(** * PDF page layout reconstruction of [convertPdfToMd]

    A shallow embedding of the per-page pipeline of
    [src/hooks/useConverter.ts] (function [convertPdfToMd]): font
    statistics, the transform tracker over the operator list, the
    header/footer filter, line clustering and sorting, heading
    classification, paragraph assembly and the final join of the pages.

    Numbers.  The source computes with JavaScript numbers, which are
    double precision floating point numbers.  A finite number is
    modelled by the rational it denotes ([Q]); comparisons are the
    boolean comparisons of [Q], and a number used as a condition is
    truthy when it is not zero.  [JS.fl] rounds a rational to the
    nearest double, and [JS.add], [JS.sub], [JS.mul] and [JS.num] are
    the operations and the literals of the source with their rounding.
    The filter of the text runs, the clustering of the runs, the
    heading test and the scroll synchronisation are written with them;
    the transform tracker, the placement of the images and the widths
    of the lines are computed on the rationals without rounding.
    Results are taken to stay in the range of the finite doubles
    (below 2^1024).

    Strings.  A JavaScript string is a sequence of UTF-16 code units
    and is modelled by a list of code units ([list Z]). *)

From Stdlib Require Import String Ascii.
From Stdlib Require Import ZArith QArith Qabs Qround Qpower List Bool Lia Lqa.
From Stdlib Require Import Sorted Permutation PeanoNat.
Import ListNotations.

Open Scope Q_scope.

(* ================================================================= *)
(** ** JavaScript primitives used by the converter *)

Module JS.

(** [a < b], [a <= b], [a > b], [a >= b] on numbers. *)
Definition lt (a b : Q) : bool := negb (Qle_bool b a).
Definition le (a b : Q) : bool := Qle_bool a b.
Definition gt (a b : Q) : bool := lt b a.
Definition ge (a b : Q) : bool := le b a.

(** A number in condition position: zero is falsy. *)
Definition truthy (a : Q) : bool := negb (Qeq_bool a 0).

(** [a || b] on numbers. *)
Definition or_num (a b : Q) : Q := if truthy a then a else b.

(** [o || b] where [o] is an optional field ([undefined] is falsy). *)
Definition or_opt (o : option Q) (b : Q) : Q :=
  match o with
  | Some a => or_num a b
  | None => b
  end.

(** [Math.max(a, b)] and [Math.abs(a)]. *)
Definition max2 (a b : Q) : Q := if le a b then b else a.
Definition abs (a : Q) : Q := if lt a 0 then - a else a.

(** [Math.round(a)]: the nearest integer, halves rounded up. *)
Definition round (a : Q) : Z := Qfloor (a + (1 # 2)).

(** Double precision (IEEE 754 binary64).  [pow2 e] is [2^e]. *)
Definition pow2 (e : Z) : Q := 2 ^ e.

(** The binary exponent of a positive rational: the [k] with
    [2^k <= x < 2^(k+1)]. *)
Definition ilog2 (x : Q) : Z :=
  let k := (Z.log2 (Qnum x) - Z.log2 (Zpos (Qden x)))%Z in
  if le (pow2 k) x then k else (k - 1)%Z.

(** The nearest integer, a half going to the even neighbour. *)
Definition roundHalfEven (x : Q) : Z :=
  let f := Qfloor x in
  let r := x - inject_Z f in
  if lt r (1 # 2) then f
  else if lt (1 # 2) r then (f + 1)%Z
  else if Z.even f then f else (f + 1)%Z.

(** The double nearest to a positive rational: 53 significant bits,
    and below [2^-1022] the fixed spacing [2^-1074] of the subnormal
    numbers. *)
Definition flpos (x : Q) : Q :=
  let e := Z.max (ilog2 x - 52) (-1074) in
  inject_Z (roundHalfEven (x / pow2 e)) * pow2 e.

(** The double nearest to a rational, ties to the even mantissa. *)
Definition fl (x : Q) : Q :=
  if lt 0 x then flpos x else if lt x 0 then - flpos (- x) else 0.

(** [a + b], [a - b] and [a * b] on numbers, and a decimal literal. *)
Definition add (a b : Q) : Q := fl (a + b).
Definition sub (a b : Q) : Q := fl (a - b).
Definition mul (a b : Q) : Q := fl (a * b).
Definition num (x : Q) : Q := fl x.

(** [a / b] for a divisor that is not zero. *)
Definition div (a b : Q) : Q := fl (a / b).

End JS.

(* ================================================================= *)
(** ** Transform tracker (operator list replay) *)

Module Transform.

(** A 6-number transform [[m[0], ..., m[5]]]. *)
Record Matrix : Type := mkMatrix
  { ix0 : Q; ix1 : Q; ix2 : Q; ix3 : Q; ix4 : Q; ix5 : Q }.

(** [const multiply = (m1, m2) => [...]], entry by entry. *)
Definition multiply (m1 m2 : Matrix) : Matrix :=
  mkMatrix
    (ix0 m1 * ix0 m2 + ix1 m1 * ix2 m2)
    (ix0 m1 * ix1 m2 + ix1 m1 * ix3 m2)
    (ix2 m1 * ix0 m2 + ix3 m1 * ix2 m2)
    (ix2 m1 * ix1 m2 + ix3 m1 * ix3 m2)
    (ix4 m1 * ix0 m2 + ix5 m1 * ix2 m2 + ix4 m1)
    (ix4 m1 * ix1 m2 + ix5 m1 * ix3 m2 + ix5 m1).

(** The composition of [m1] with [m2], two affine maps written as 6-number
    transforms, as the specification words it.  It has the linear part
    of [multiply]; its translation adds the translation of [m2]. *)
Definition compose_spec (m1 m2 : Matrix) : Matrix :=
  mkMatrix
    (ix0 m1 * ix0 m2 + ix1 m1 * ix2 m2)
    (ix0 m1 * ix1 m2 + ix1 m1 * ix3 m2)
    (ix2 m1 * ix0 m2 + ix3 m1 * ix2 m2)
    (ix2 m1 * ix1 m2 + ix3 m1 * ix3 m2)
    (ix4 m1 * ix0 m2 + ix5 m1 * ix2 m2 + ix4 m2)
    (ix4 m1 * ix1 m2 + ix5 m1 * ix3 m2 + ix5 m2).

(** The other reading of a composition, [m2] applied first (the order
    of the PDF [cm] operator). *)
Definition compose_spec_rev (m1 m2 : Matrix) : Matrix := compose_spec m2 m1.

Definition identity : Matrix := mkMatrix 1 0 0 1 0 0.

(** [pdf_img_${pageNumber}_${i}]: the pair of numbers it is built from. *)
Definition ImgId : Type := (nat * nat)%type.

Definition ImgId_eqb (a b : ImgId) : bool :=
  Nat.eqb (fst a) (fst b) && Nat.eqb (snd a) (snd b).

(** What the external resolver, canvas and blob encoder do at one
    paint operator.  The first four are the ways in which the body of
    the [try] block ends without registering anything. *)
Inductive ImgOutcome : Type :=
| Thrown                 (* [page.objs.get] or a canvas call throws *)
| NoImage                (* [img] is falsy *)
| NoContext              (* [canvas.getContext('2d')] is null *)
| NoBlob                 (* [canvas.toBlob] yields null *)
| Decoded (width height : Q) (url : list Z).

(** The operators the replay distinguishes; every other opcode is
    [OtherOp].  A paint operator carries the outcome of resolving and
    encoding its image. *)
Inductive Op : Type :=
| Save
| Restore
| TransformOp (args : Matrix)
| PaintImageXObject (r : ImgOutcome)
| PaintInlineImageXObject (r : ImgOutcome)
| OtherOp.

(** An entry of [pageImages] ([alt] and [title] are functions of [id]). *)
Record ExtractedImage : Type := mkExtractedImage
  { src : list Z; id : ImgId }.

(** An entry of [imageInfos]. *)
Record ImageInfo : Type := mkImageInfo
  { info_y : Q; info_id : ImgId; info_w : Q; info_h : Q }.

(** [Math.max(pdfY00, pdfY01, pdfY10, pdfY11)]. *)
Definition visualTopY (ctm : Matrix) : Q :=
  let pdfY00 := ix5 ctm in
  let pdfY01 := ix3 ctm + ix5 ctm in
  let pdfY10 := ix1 ctm + ix5 ctm in
  let pdfY11 := ix1 ctm + ix3 ctm + ix5 ctm in
  JS.max2 (JS.max2 (JS.max2 pdfY00 pdfY01) pdfY10) pdfY11.

(** The mutable state of the replay loop. *)
Record State : Type := mkState
  { ctm : Matrix;
    transformStack : list Matrix;   (* last pushed first *)
    imageInfos : list ImageInfo;
    pageImages : list ExtractedImage }.

Definition init : State := mkState identity [] [] [].

(** The body of the [try] block of a paint operator. *)
Definition paint (pageNumber i : nat) (r : ImgOutcome) (s : State) : State :=
  match r with
  | Decoded width height url =>
      let currentY := visualTopY (ctm s) in
      let imgId := (pageNumber, i) in
      mkState (ctm s) (transformStack s)
        (imageInfos s ++ [mkImageInfo currentY imgId width height])
        (pageImages s ++ [mkExtractedImage url imgId])
  | _ => s
  end.

(** One iteration of [for (let i = 0; i < ops.fnArray.length; i++)]. *)
Definition step (pageNumber i : nat) (op : Op) (s : State) : State :=
  match op with
  | Save =>
      mkState (ctm s) (ctm s :: transformStack s) (imageInfos s) (pageImages s)
  | Restore =>
      match transformStack s with
      | top :: rest => mkState top rest (imageInfos s) (pageImages s)
      | [] => s
      end
  | TransformOp args =>
      mkState (multiply (ctm s) args) (transformStack s)
        (imageInfos s) (pageImages s)
  | PaintImageXObject r => paint pageNumber i r s
  | PaintInlineImageXObject r => paint pageNumber i r s
  | OtherOp => s
  end.

(** The loop from index [i] on. *)
Fixpoint replay_from (pageNumber i : nat) (ops : list Op) (s : State) : State :=
  match ops with
  | [] => s
  | op :: rest => replay_from pageNumber (S i) rest (step pageNumber i op s)
  end.

Definition replay (pageNumber : nat) (ops : list Op) : State :=
  replay_from pageNumber 0 ops init.

(** A transform whose translation entries are zero. *)
Definition untranslated (m : Matrix) : Prop := ix4 m == 0 /\ ix5 m == 0.

(** The outcomes of a paint operator that register nothing. *)
Definition isFailure (r : ImgOutcome) : bool :=
  match r with
  | Decoded _ _ _ => false
  | _ => true
  end.

(** The image a paint operator registers, if any. *)
Definition decodedBy (op : Op) : option (Q * Q * list Z) :=
  match op with
  | PaintImageXObject (Decoded w h url) => Some (w, h, url)
  | PaintInlineImageXObject (Decoded w h url) => Some (w, h, url)
  | _ => None
  end.

End Transform.

(* ================================================================= *)
(** ** Strings *)

Module Str.

(** A string is its sequence of UTF-16 code units. *)
Definition jsstring : Type := list Z.

(** The code units of an ASCII literal. *)
Definition lit (s : String.string) : jsstring :=
  map (fun a => Z.of_N (Ascii.N_of_ascii a)) (String.list_ascii_of_string s).

Local Open Scope Z_scope.

(** White space and line terminators of the language: what [trim] strips
    and what [\s] matches. *)
Definition isWhiteSpace (c : Z) : bool :=
  (c =? 0x09) || (c =? 0x0A) || (c =? 0x0B) || (c =? 0x0C) || (c =? 0x0D)
  || (c =? 0x20) || (c =? 0xA0) || (c =? 0x1680)
  || ((0x2000 <=? c) && (c <=? 0x200A))
  || (c =? 0x2028) || (c =? 0x2029) || (c =? 0x202F) || (c =? 0x205F)
  || (c =? 0x3000) || (c =? 0xFEFF).

Fixpoint dropWhile (p : Z -> bool) (s : jsstring) : jsstring :=
  match s with
  | [] => []
  | c :: r => if p c then dropWhile p r else s
  end.

Fixpoint takeWhile (p : Z -> bool) (s : jsstring) : jsstring :=
  match s with
  | [] => []
  | c :: r => if p c then c :: takeWhile p r else []
  end.

Definition trimStart (s : jsstring) : jsstring := dropWhile isWhiteSpace s.
Definition trimEnd (s : jsstring) : jsstring := rev (trimStart (rev s)).

(** [s.trim()]. *)
Definition trim (s : jsstring) : jsstring := trimEnd (trimStart s).

(** A string in condition position: the empty string is falsy. *)
Definition truthy (s : jsstring) : bool :=
  match s with [] => false | _ => true end.

(** [s === t] on strings. *)
Fixpoint eqb (s t : jsstring) : bool :=
  match s, t with
  | [], [] => true
  | c :: s', d :: t' => (c =? d) && eqb s' t'
  | _, _ => false
  end.

(** [s.slice(-1)]: the last code unit as a string, empty for [''] . *)
Definition lastChar (s : jsstring) : jsstring :=
  match rev s with [] => [] | c :: _ => [c] end.

(** [s[0]]: the first code unit, [undefined] for the empty string. *)
Definition firstChar (s : jsstring) : option Z :=
  match s with [] => None | c :: _ => Some c end.

(** Some code unit of the string is not white space. *)
Definition hasNonSpace (s : jsstring) : bool :=
  existsb (fun c => negb (isWhiteSpace c)) s.

(** The two-character string ['\n\n']. *)
Definition nl2 : jsstring := [0x0A; 0x0A].

(** [parts.join(sep)]. *)
Fixpoint join (sep : jsstring) (parts : list jsstring) : jsstring :=
  match parts with
  | [] => []
  | [p] => p
  | p :: rest => p ++ sep ++ join sep rest
  end.

End Str.

(* ================================================================= *)
(** ** The boilerplate patterns *)

Module Patterns.
Import Str.
Local Open Scope Z_scope.

Definition isDigit (c : Z) : bool := (0x30 <=? c) && (c <=? 0x39).

(** One pattern character against one code unit under the [i] flag:
    only the ASCII letters fold. *)
Definition ci_eq (p c : Z) : bool :=
  (c =? p)
  || ((0x61 <=? p) && (p <=? 0x7A) && (c =? p - 32))
  || ((0x41 <=? p) && (p <=? 0x5A) && (c =? p + 32)).

(** Match a literal at the start of [s]; the rest of [s] on success. *)
Fixpoint prefix (eq : Z -> Z -> bool) (pat s : jsstring) : option jsstring :=
  match pat, s with
  | [], _ => Some s
  | p :: pat', c :: s' => if eq p c then prefix eq pat' s' else None
  | _ :: _, [] => None
  end.

(** An unanchored pattern is tried at every start position. *)
Fixpoint anywhere (f : jsstring -> bool) (s : jsstring) : bool :=
  f s || match s with [] => false | _ :: r => anywhere f r end.

Definition isPrefix (eq : Z -> Z -> bool) (pat s : jsstring) : bool :=
  match prefix eq pat s with Some _ => true | None => false end.

Definition headIs (p : Z -> bool) (s : jsstring) : bool :=
  match s with c :: _ => p c | [] => false end.

(** [/about:blank/i] *)
Definition re_about_blank (s : jsstring) : bool :=
  anywhere (isPrefix ci_eq (lit "about:blank"%string)) s.

(** [/^\d+\s*\/\s*\d+$/] *)
Definition re_page_of (s : jsstring) : bool :=
  headIs isDigit s &&
  match dropWhile isWhiteSpace (dropWhile isDigit s) with
  | c :: r =>
      (c =? 0x2F) &&
      let t := dropWhile isWhiteSpace r in
      headIs isDigit t && Str.eqb (dropWhile isDigit t) []
  | [] => false
  end.

(** [/^\(\d+\)$/] *)
Definition re_paren_number (s : jsstring) : bool :=
  match s with
  | c :: r => (c =? 0x28) && headIs isDigit r && Str.eqb (dropWhile isDigit r) [0x29]
  | [] => false
  end.

(** [/^\s*Page\s*\d+/i] *)
Definition re_page_n (s : jsstring) : bool :=
  match prefix ci_eq (lit "Page"%string) (dropWhile isWhiteSpace s) with
  | Some r => headIs isDigit (dropWhile isWhiteSpace r)
  | None => false
  end.

Definition isDateSep (c : Z) : bool := (c =? 0x2F) || (c =? 0x2D).

(** [/^\d{4}[\/\-]\d{1,2}[\/\-]\d{1,2}/] *)
Definition re_date (s : jsstring) : bool :=
  match s with
  | d1 :: d2 :: d3 :: d4 :: s1 :: a :: b :: r =>
      isDigit d1 && isDigit d2 && isDigit d3 && isDigit d4 && isDateSep s1
      && isDigit a
      && ((isDigit b && match r with
                        | s2 :: r' => isDateSep s2 && headIs isDigit r'
                        | [] => false
                        end)
          || (isDateSep b && headIs isDigit r))
  | _ => false
  end.

(** [/(www\.|http:|https:)\S+/] *)
Definition re_url (s : jsstring) : bool :=
  anywhere (fun t =>
    let nonSpaceNext (o : option jsstring) :=
      match o with
      | Some r => headIs (fun c => negb (isWhiteSpace c)) r
      | None => false
      end in
    nonSpaceNext (prefix Z.eqb (lit "www."%string) t)
    || nonSpaceNext (prefix Z.eqb (lit "http:"%string) t)
    || nonSpaceNext (prefix Z.eqb (lit "https:"%string) t)) s.

(** [/\.com$/i] *)
Definition re_dot_com (s : jsstring) : bool :=
  anywhere (fun t =>
    match prefix ci_eq (lit ".com"%string) t with
    | Some [] => true
    | _ => false
    end) s.

(** [IGNORE_PATTERNS], in the order of the array. *)
Definition IGNORE_PATTERNS : list (jsstring -> bool) :=
  [ re_about_blank; re_page_of; re_paren_number; re_page_n;
    re_date; re_url; re_dot_com ].

(** [IGNORE_PATTERNS.some(p => p.test(s))]. *)
Definition matchesIgnore (s : jsstring) : bool :=
  existsb (fun p => p s) IGNORE_PATTERNS.

End Patterns.

(* ================================================================= *)
(** ** Text items and font statistics *)

Module Text.
Import Str Transform.

(** An element of [content.items]. *)
Record TextItem : Type := mkTextItem
  { str : jsstring;
    transform : Matrix;
    height : option Q;
    width : option Q }.

(** [item.height || item.transform[3] || dflt]. *)
Definition heightOr (item : TextItem) (dflt : Q) : Q :=
  JS.or_num (JS.or_opt (height item) (ix3 (transform item))) dflt.

End Text.

(** An object used as a map from numbers to counts.  The association
    list keeps the properties in creation order; [ownKeys] is the order
    in which [for (const size in fontSizes)] visits them: the keys that
    are array indices in ascending numeric order, then the other keys
    in creation order. *)
Module JSObject.
Local Open Scope Z_scope.

Definition Obj : Type := list (Z * nat).

Definition isArrayIndex (k : Z) : bool := (0 <=? k) && (k <? 2 ^ 32 - 1).

Fixpoint get (k : Z) (o : Obj) : option nat :=
  match o with
  | [] => None
  | (k', v) :: r => if k' =? k then Some v else get k r
  end.

(** [o[k] = v]: an existing property keeps its place. *)
Fixpoint set (k : Z) (v : nat) (o : Obj) : Obj :=
  match o with
  | [] => [(k, v)]
  | (k', v') :: r => if k' =? k then (k, v) :: r else (k', v') :: set k v r
  end.

Fixpoint insertAsc (k : Z) (l : list Z) : list Z :=
  match l with
  | [] => [k]
  | k' :: r => if k <=? k' then k :: l else k' :: insertAsc k r
  end.

Definition sortAsc (l : list Z) : list Z := fold_right insertAsc [] l.

Definition ownKeys (o : Obj) : list Z :=
  let keys := map fst o in
  sortAsc (filter isArrayIndex keys)
  ++ filter (fun k => negb (isArrayIndex k)) keys.

(** [o[k] || 0] *)
Definition getOr0 (k : Z) (o : Obj) : nat :=
  match get k o with Some v => v | None => 0%nat end.

End JSObject.

Module FontStats.
Import Str Transform Text JSObject.

(** The body of [items.forEach(item => ...)] that fills [fontSizes]. *)
Definition addItem (fontSizes : Obj) (item : TextItem) : Obj :=
  let h := heightOr item 10 in
  let rounded := JS.round h in
  set rounded (getOr0 rounded fontSizes + length (str item))%nat fontSizes.

Definition fontSizes (items : list TextItem) : Obj :=
  fold_left addItem items [].

(** The loop [for (const size in fontSizes)] on the pair
    [(baseFontSize, maxCount)]. *)
Definition pick (o : Obj) (st : Z * nat) (size : Z) : Z * nat :=
  if (snd st <? getOr0 size o)%nat then (size, getOr0 size o) else st.

(** [baseFontSize] after the loop and the [=== 0] default. *)
Definition baseFontSizeZ (items : list TextItem) : Z :=
  let o := fontSizes items in
  let baseFontSize := fst (fold_left (pick o) (ownKeys o) (0%Z, 0%nat)) in
  if (baseFontSize =? 0)%Z then 10%Z else baseFontSize.

Definition baseFontSize (items : list TextItem) : Q :=
  inject_Z (baseFontSizeZ items).

(** The bucket of a run and the number of characters counted in a
    bucket: the quantities in which the result is described. *)
Definition sizeOf (item : TextItem) : Z := JS.round (heightOr item 10).

Fixpoint countAt (k : Z) (items : list TextItem) : nat :=
  match items with
  | [] => 0
  | item :: rest =>
      ((if (sizeOf item =? k)%Z then length (str item) else 0)
       + countAt k rest)%nat
  end.

(** The distinct values of a list in the order of their first
    appearance. *)
Definition addKey (seen : list Z) (k : Z) : list Z :=
  if existsb (Z.eqb k) seen then seen else seen ++ [k].

Definition firstSeen (l : list Z) : list Z := fold_left addKey l [].

(** The order in which the buckets of a page are visited: the sizes
    that are array indices in ascending order, then the other sizes in
    the order of their first appearance. *)
Definition visitOrder (items : list TextItem) : list Z :=
  let ks := firstSeen (map sizeOf items) in
  sortAsc (filter isArrayIndex ks)
  ++ filter (fun k => negb (isArrayIndex k)) ks.

End FontStats.

(* ================================================================= *)
(** ** One page: filter, lines, order, classification, paragraphs *)

Module Page.
Import Str Transform Text Patterns.

Definition HEADER_HEIGHT : Q := 70.
Definition FOOTER_HEIGHT : Q := 70.
Definition Y_TOLERANCE : Q := 4.

(** An element of [lines]. *)
Inductive Line : Type :=
| TextLine (y : Q) (items : list TextItem)
| ImageLine (y : Q) (imageId : ImgId).

Definition line_y (l : Line) : Q :=
  match l with
  | TextLine y _ => y
  | ImageLine y _ => y
  end.

(** [Array.prototype.sort] with a comparator: the sort is stable, and
    insertion from the right computes the stable arrangement.
    [before a b] is [comparator(a, b) <= 0]. *)
Section Sort.
Context {A : Type} (before : A -> A -> bool).

Fixpoint insertSorted (x : A) (l : list A) : list A :=
  match l with
  | [] => [x]
  | e :: r => if before x e then x :: l else e :: insertSorted x r
  end.

Definition sort (l : list A) : list A := fold_right insertSorted [] l.

End Sort.

(** [!item.str || item.str.trim().length === 0] *)
Definition isBlank (item : TextItem) : bool :=
  negb (Str.truthy (str item)) || (length (trim (str item)) =? 0)%nat.

(** [item.transform[5] + (fontSize * 0.8)] *)
Definition itemY (item : TextItem) : Q :=
  let fontSize := heightOr item 10 in
  JS.add (ix5 (transform item)) (JS.mul fontSize (JS.num (8 # 10))).

(** [y < FOOTER_HEIGHT || y > pageHeight - HEADER_HEIGHT] *)
Definition isEdge (pageHeight y : Q) : bool :=
  JS.lt y FOOTER_HEIGHT || JS.gt y (JS.sub pageHeight HEADER_HEIGHT).

(** The [continue] statements of the loop over the items: [true] when
    the item is skipped. *)
Definition dropped (pageHeight baseFontSize : Q) (item : TextItem) : bool :=
  if isBlank item then true
  else
    let y := itemY item in
    if isEdge pageHeight y then
      if matchesIgnore (trim (str item)) then true
      else
        let itemFontSize := heightOr item 10 in
        if JS.lt itemFontSize (JS.mul baseFontSize (JS.num (9 # 10)))
        then true
        else re_about_blank (str item)
    else re_about_blank (str item).

(** [lines.find(l => l.type === 'text' && Math.abs(l.y - y) < Y_TOLERANCE)]
    followed by the push of the item, on the found line or on a new
    last line. *)
Fixpoint pushItem (y : Q) (item : TextItem) (lines : list Line) : list Line :=
  match lines with
  | [] => [TextLine y [item]]
  | TextLine ly its :: rest =>
      if JS.lt (JS.abs (JS.sub ly y)) Y_TOLERANCE
      then TextLine ly (its ++ [item]) :: rest
      else TextLine ly its :: pushItem y item rest
  | l :: rest => l :: pushItem y item rest
  end.

Definition addText (pageHeight baseFontSize : Q) (lines : list Line)
    (item : TextItem) : list Line :=
  if dropped pageHeight baseFontSize item then lines
  else pushItem (itemY item) item lines.

(** [img.y < 20 || img.y > pageHeight - 20] *)
Definition imageAtEdge (pageHeight : Q) (img : ImageInfo) : bool :=
  JS.lt (info_y img) 20 || JS.gt (info_y img) (pageHeight - 20).

Definition addImage (pageHeight : Q) (lines : list Line) (img : ImageInfo)
    : list Line :=
  if imageAtEdge pageHeight img then lines
  else lines ++ [ImageLine (info_y img) (info_id img)].

(** [lines] before the sort. *)
Definition buildLines (pageHeight baseFontSize : Q) (items : list TextItem)
    (infos : list ImageInfo) : list Line :=
  fold_left (addImage pageHeight) infos
    (fold_left (addText pageHeight baseFontSize) items []).

(** [lines.sort((a, b) => b.y - a.y)] *)
Definition sortLines (lines : list Line) : list Line :=
  sort (fun a b => JS.le (line_y b - line_y a) 0) lines.

(** [line.items.sort((a, b) => a.transform[4] - b.transform[4])] *)
Definition sortItems (items : list TextItem) : list TextItem :=
  sort (fun a b => JS.le (ix4 (transform a) - ix4 (transform b)) 0) items.

(** An element of [processedLines]. *)
Inductive ProcessedLine : Type :=
| PImage (imageId : ImgId)
| PText (text prefix : jsstring) (lineWidth : Q).

(** The state [lineStr, lastXEnd, startX, endX] of the loop over the
    items of a line. *)
Record Scan : Type := mkScan
  { lineStr : jsstring; lastXEnd : Q; startX : Q; endX : Q }.

Definition scanItem (baseFontSize : Q) (s : Scan) (item : TextItem) : Scan :=
  let itemX := ix4 (transform item) in
  let itemWidth := JS.or_opt (width item) 0 in
  let startX' :=
    if Qeq_bool (startX s) (-1) || JS.lt itemX (startX s)
    then itemX else startX s in
  let endX' :=
    if JS.gt (itemX + itemWidth) (endX s) then itemX + itemWidth else endX s in
  let sep :=
    if JS.ge (lastXEnd s) 0 then
      let gap := itemX - lastXEnd s in
      let fontSize := heightOr item baseFontSize in
      if JS.gt gap (fontSize * (25 # 100)) then [0x20%Z] else []
    else [] in
  mkScan (lineStr s ++ sep ++ str item) (itemX + itemWidth) startX' endX'.

Definition scanLine (baseFontSize : Q) (items : list TextItem) : Scan :=
  fold_left (scanItem baseFontSize) items (mkScan [] (-1) (-1) (-1)).

(** [Math.max(...line.items.map(i => i.height || i.transform[3] || 0))];
    [None] stands for the [-Infinity] of an empty argument list. *)
Definition maxLineFontSize (items : list TextItem) : option Q :=
  match items with
  | [] => None
  | i :: rest =>
      Some (fold_left (fun m j => JS.max2 m (heightOr j 0)) rest (heightOr i 0))
  end.

(** The heading test on the line's largest font size. *)
Definition headingPrefix (maxLineFontSize baseFontSize : Q) : jsstring :=
  if JS.gt (JS.abs (JS.sub maxLineFontSize baseFontSize)) 1 then
    if JS.ge maxLineFontSize (JS.mul baseFontSize (JS.num (18 # 10)))
    then lit "# "%string
    else if JS.ge maxLineFontSize (JS.mul baseFontSize (JS.num (14 # 10)))
    then lit "## "%string
    else if JS.ge maxLineFontSize (JS.mul baseFontSize (JS.num (115 # 100)))
    then lit "### "%string
    else []
  else [].

(** The callback of [lines.map], without its update of [maxLineWidth]. *)
Definition processLine (baseFontSize : Q) (line : Line) : ProcessedLine :=
  match line with
  | ImageLine _ imageId => PImage imageId
  | TextLine _ items =>
      let items := sortItems items in
      let s := scanLine baseFontSize items in
      let lineWidth := endX s - startX s in
      let prefix :=
        match maxLineFontSize items with
        | Some m => headingPrefix m baseFontSize
        | None => []   (* [-Infinity] passes none of the [>=] tests *)
        end in
      PText (lineStr s) prefix lineWidth
  end.

(** [maxLineWidth] once [lines.map] is over. *)
Definition maxLineWidthOf (processedLines : list ProcessedLine) : Q :=
  fold_left
    (fun maxLineWidth pl =>
       match pl with
       | PText _ _ lineWidth =>
           if JS.gt lineWidth maxLineWidth then lineWidth else maxLineWidth
       | PImage _ => maxLineWidth
       end)
    processedLines 0.

Local Open Scope Z_scope.

Definition inCJKRange (c : Z) : bool :=
  ((0x4e00 <=? c) && (c <=? 0x9fa5))
  || ((0x3000 <=? c) && (c <=? 0x303f))
  || ((0xff00 <=? c) && (c <=? 0xffef)).

(** [isCJK(char)]: the pattern is tested on the whole argument. *)
Definition isCJK (char : jsstring) : bool := existsb inCJKRange char.

(** The string a value of [text[0]] is converted to when tested. *)
Definition charToString (c : option Z) : jsstring :=
  match c with
  | Some u => [u]
  | None => lit "undefined"%string
  end.

Local Close Scope Z_scope.

(** The merge of a text line into a non-empty paragraph. *)
Definition mergeLine (currentParagraph text : jsstring) : jsstring :=
  let lastChar := Str.lastChar currentParagraph in
  let firstChar := Str.firstChar text in
  if isCJK lastChar && isCJK (charToString firstChar) then
    currentParagraph ++ text
  else if Str.eqb lastChar [0x20%Z]
          || match firstChar with Some c => (c =? 0x20)%Z | None => false end
  then currentParagraph ++ text
  else currentParagraph ++ [0x20%Z] ++ text.

(** [pageImages.find(i => i.id === line.data.imageId)?.src] *)
Definition findSrc (pageImages : list ExtractedImage) (imageId : ImgId)
    : option jsstring :=
  option_map src (find (fun i => ImgId_eqb (id i) imageId) pageImages).

(** [(prevLine as any).lineWidth || 0] for [processedLines[index - 1]].
    At index 0 the paragraph is empty and the source does not get there. *)
Definition prevWidth (processedLines : list ProcessedLine) (index : nat) : Q :=
  match index with
  | O => 0
  | S j =>
      match nth_error processedLines j with
      | Some (PText _ _ lineWidth) => JS.or_num lineWidth 0
      | _ => 0
      end
  end.

(** The pair [(pageText, currentParagraph)]. *)
Record Out : Type := mkOut { pageText : jsstring; currentParagraph : jsstring }.

Definition flush (o : Out) : Out :=
  if Str.truthy (currentParagraph o)
  then mkOut (pageText o ++ currentParagraph o ++ nl2) []
  else o.

Definition imageRef (src : jsstring) : jsstring :=
  lit "![Image]("%string ++ src ++ lit ")"%string ++ nl2.

(** The callback of [processedLines.forEach((line, index) => ...)]. *)
Definition emit (processedLines : list ProcessedLine) (maxLineWidth : Q)
    (pageImages : list ExtractedImage) (o : Out) (index : nat)
    (line : ProcessedLine) : Out :=
  match line with
  | PImage imageId =>
      let o := flush o in
      match findSrc pageImages imageId with
      | Some src =>
          if Str.truthy src
          then mkOut (pageText o ++ imageRef src) (currentParagraph o)
          else o
      | None => o
      end
  | PText text prefix lineWidth =>
      if Str.truthy prefix then
        let o := flush o in
        mkOut (pageText o ++ prefix ++ text ++ nl2) (currentParagraph o)
      else if Str.eqb (currentParagraph o) [] then
        mkOut (pageText o) text
      else if JS.lt (prevWidth processedLines index) (maxLineWidth * (85 # 100))
      then mkOut (pageText o ++ currentParagraph o ++ nl2) text
      else mkOut (pageText o) (mergeLine (currentParagraph o) text)
  end.

Fixpoint forEachFrom (processedLines : list ProcessedLine) (maxLineWidth : Q)
    (pageImages : list ExtractedImage) (index : nat)
    (rest : list ProcessedLine) (o : Out) : Out :=
  match rest with
  | [] => o
  | line :: rest' =>
      forEachFrom processedLines maxLineWidth pageImages (S index) rest'
        (emit processedLines maxLineWidth pageImages o index line)
  end.

(** [pageText] after the last flush. *)
Definition assemble (processedLines : list ProcessedLine)
    (pageImages : list ExtractedImage) : jsstring :=
  let maxLineWidth := maxLineWidthOf processedLines in
  pageText (flush (forEachFrom processedLines maxLineWidth pageImages 0
                     processedLines (mkOut [] []))).

(** A text line holds at least one run, and each of its runs has a
    character that is not white space. *)
Definition goodLine (l : Line) : Prop :=
  match l with
  | TextLine _ its =>
      its <> [] /\ Forall (fun i => hasNonSpace (str i) = true) its
  | ImageLine _ _ => True
  end.

Definition goodProcessed (pl : ProcessedLine) : Prop :=
  match pl with
  | PText text _ _ => hasNonSpace text = true
  | PImage _ => True
  end.

(** The paragraph under construction is empty or not blank. *)
Definition goodOut (o : Out) : Prop :=
  currentParagraph o = [] \/ hasNonSpace (currentParagraph o) = true.

(** No image line of the list carries the identifier [iid]. *)
Definition noImageLine (iid : ImgId) (lines : list Line) : Prop :=
  forall ly, ~ In (ImageLine ly iid) lines.

(** The order of the reading: [a] is not below [b]. *)
Definition notBelow (a b : Line) : Prop := line_y b <= line_y a.

End Page.

(* ================================================================= *)
(** ** The document *)

Module Document.
Import Str Transform Text Page.

(** What the page source yields for one page. *)
Record PageInput : Type := mkPageInput
  { pageHeight : Q;
    items : list TextItem;
    ops : list Op }.

(** The lines of a page in the order in which they are processed. *)
Definition pageLines (pageNumber : nat) (p : PageInput) : list Line :=
  let baseFontSize := FontStats.baseFontSize (items p) in
  let st := replay pageNumber (ops p) in
  sortLines (buildLines (pageHeight p) baseFontSize (items p) (imageInfos st)).

(** [pageText] and [pageImages] of one iteration of the page loop. *)
Definition convertPage (pageNumber : nat) (p : PageInput)
    : jsstring * list ExtractedImage :=
  let baseFontSize := FontStats.baseFontSize (items p) in
  let st := replay pageNumber (ops p) in
  let processedLines := map (processLine baseFontSize) (pageLines pageNumber p) in
  (assemble processedLines (pageImages st), pageImages st).

(** [parts] and [allExtractedImages]. *)
Record Acc : Type := mkAcc
  { parts : list jsstring; allExtractedImages : list ExtractedImage }.

Definition pageStep (a : Acc) (pageNumber : nat) (p : PageInput) : Acc :=
  let '(pageText, pageImages) := convertPage pageNumber p in
  mkAcc
    (if Str.truthy (trim pageText) then parts a ++ [pageText] else parts a)
    (allExtractedImages a ++ pageImages).

Fixpoint pagesFrom (pageNumber : nat) (pages : list PageInput) (a : Acc) : Acc :=
  match pages with
  | [] => a
  | p :: rest => pagesFrom (S pageNumber) rest (pageStep a pageNumber p)
  end.

(** The returned Markdown and the images handed to [setExtractedImages]. *)
Definition convertPdfToMd (pages : list PageInput)
    : jsstring * list ExtractedImage :=
  let a := pagesFrom 1 pages (mkAcc [] []) in
  (join nl2 (parts a), allExtractedImages a).

End Document.

(* ================================================================= *)
(** ** Descriptions used by the further properties *)

Module Describe.
Import Str Transform Text Page Document.

(** The images a list of operators registers, as a function of the
    list: one entry per paint operator that decodes, in the order of the
    operators, with the index of the operator in its identifier. *)
Fixpoint registered (pageNumber i : nat) (ops : list Op) : list ExtractedImage :=
  match ops with
  | [] => []
  | op :: rest =>
      match decodedBy op with
      | Some (_, _, url) => [mkExtractedImage url (pageNumber, i)]
      | None => []
      end ++ registered pageNumber (S i) rest
  end.

(** The depth of the save/restore nesting after a list of operators
    that starts at depth [d]; [None] when a restore finds depth 0. *)
Fixpoint nesting (d : nat) (ops : list Op) : option nat :=
  match ops with
  | [] => Some d
  | Save :: rest => nesting (S d) rest
  | Restore :: rest =>
      match d with
      | O => None
      | S d' => nesting d' rest
      end
  | _ :: rest => nesting d rest
  end.

(** The runs of a line; an image line has none. *)
Definition lineItems (l : Line) : list TextItem :=
  match l with
  | TextLine _ items => items
  | ImageLine _ _ => []
  end.

Definition isTextLine (l : Line) : bool :=
  match l with
  | TextLine _ _ => true
  | ImageLine _ _ => false
  end.

(** [Math.abs(ly - y) < Y_TOLERANCE], the test of the clustering. *)
Definition near (ly y : Q) : bool :=
  JS.lt (JS.abs (JS.sub ly y)) Y_TOLERANCE.

(** Two lines are apart when they are not both text lines or the test
    of the clustering fails on their canonical y. *)
Definition apart (a b : Line) : Prop :=
  isTextLine a = true -> isTextLine b = true ->
  near (line_y a) (line_y b) = false.

(** A text line starts with the run that created it, carries the
    visual top of that run, and holds only runs that pass the test of
    the clustering against it. *)
Definition clustered (l : Line) : Prop :=
  match l with
  | TextLine y items =>
      (exists first rest, items = first :: rest /\ y = itemY first)
      /\ Forall (fun i => near y (itemY i) = true) items
  | ImageLine _ _ => True
  end.

(** The text of the pages that are not blank, in the order of the
    pages, and the images of all pages. *)
Fixpoint pageTexts (pageNumber : nat) (pages : list PageInput) : list jsstring :=
  match pages with
  | [] => []
  | p :: rest =>
      let text := fst (convertPage pageNumber p) in
      (if Str.truthy (trim text) then [text] else [])
      ++ pageTexts (S pageNumber) rest
  end.

Fixpoint pageImageTables (pageNumber : nat) (pages : list PageInput)
    : list ExtractedImage :=
  match pages with
  | [] => []
  | p :: rest =>
      snd (convertPage pageNumber p) ++ pageImageTables (S pageNumber) rest
  end.

(** [item.transform[4]] and [item.width || 0]. *)
Definition itemX (item : TextItem) : Q := ix4 (transform item).
Definition itemWidth (item : TextItem) : Q := JS.or_opt (width item) 0.

(** The string [n / m]: digits, white space, a slash, white space,
    digits. *)
Definition pageOf (n ws1 ws2 m : jsstring) : jsstring :=
  n ++ ws1 ++ [0x2F%Z] ++ ws2 ++ m.

(** [s] occurs in [t] as a contiguous piece. *)
Definition occursIn (s t : jsstring) : Prop :=
  exists before after, t = before ++ s ++ after.

(** [s] has been written: it occurs in the text of the page or in
    the paragraph under construction. *)
Definition written (s : jsstring) (o : Out) : Prop :=
  occursIn s (pageText o) \/ occursIn s (currentParagraph o).

(** The text is empty or ends with a blank line. *)
Definition closed (s : jsstring) : Prop := s = [] \/ exists t, s = t ++ nl2.

(** What the assembler writes for a processed line: the heading with
    its blank line, the text of a plain line, the reference of an
    image that has a handle. *)
Definition lineBody (pageImages : list ExtractedImage) (pl : ProcessedLine)
    : jsstring :=
  match pl with
  | PImage imageId =>
      match findSrc pageImages imageId with
      | Some src => if Str.truthy src then imageRef src else []
      | None => []
      end
  | PText text prefix _ =>
      if Str.truthy prefix then prefix ++ text ++ nl2 else text
  end.

(** What the assembler puts between two lines: nothing, a space or a
    blank line. *)
Definition isSeparator (s : jsstring) : Prop :=
  s = [] \/ s = [0x20%Z] \/ s = nl2.

(** The strings [bodies] one after the other, each after its
    separator. *)
Fixpoint laidOut (seps bodies : list jsstring) : jsstring :=
  match seps, bodies with
  | sep :: seps', body :: bodies' => sep ++ body ++ laidOut seps' bodies'
  | _, _ => []
  end.

(** All that has been written so far: the text of the page and the
    paragraph under construction. *)
Definition soFar (o : Out) : jsstring := pageText o ++ currentParagraph o.

(** [b] is a block of [t]: it occurs in [t] at the start or right after
    a blank line. *)
Definition blockOf (b t : jsstring) : Prop :=
  exists before after, t = before ++ b ++ after /\ closed before.

End Describe.

(* ================================================================= *)
(** ** The identifier strings of the images *)

Module Ident.
Import Str Transform.

(** The decimal digits of [n], the most significant first, put before
    [acc]. *)
Fixpoint digits (fuel n : nat) (acc : jsstring) : jsstring :=
  match fuel with
  | O => acc
  | S fuel' =>
      let acc' := (0x30 + Z.of_nat (n mod 10))%Z :: acc in
      if (n / 10 =? 0)%nat then acc' else digits fuel' (n / 10) acc'
  end.

(** [String(n)] for a counter [n]: its decimal digits (a number below
    10^21 is written without exponent). *)
Definition decimal (n : nat) : jsstring := digits (S n) n [].

(** [`pdf_img_${pageNumber}_${i}`] *)
Definition imgIdString (a : ImgId) : jsstring :=
  lit "pdf_img_"%string ++ decimal (fst a) ++ 0x5F%Z :: decimal (snd a).

(** The number that a string of decimal digits writes. *)
Definition digitStep (a : nat) (c : Z) : nat :=
  (10 * a + Z.to_nat (c - 0x30))%nat.

Definition valueOf (s : jsstring) : nat := fold_left digitStep s 0%nat.

End Ident.

(* ================================================================= *)
(** ** Raw image samples to RGBA

    The branch [else if (img.data)] of the paint operator: the samples
    of a raw image are written into the [imageData] that is then put on
    the canvas.  [imageData.data] is a clamped byte array of
    [4 * width * height] zeros; a store converts its value to a byte
    and a store beyond the end is ignored. *)

Module Raster.

(** The conversion of a stored value to a clamped byte.  [None] is the
    value [NaN], which [undefined] and every arithmetic on it give. *)
Definition toUint8Clamp (v : option Q) : Z :=
  match v with
  | None => 0%Z
  | Some number =>
      if JS.le number 0 then 0%Z
      else if JS.ge number 255 then 255%Z
      else
        let f := Qfloor number in
        if JS.lt (inject_Z f + (1 # 2)) number then (f + 1)%Z
        else if JS.lt number (inject_Z f + (1 # 2)) then f
        else if Z.even f then f else (f + 1)%Z
  end.

(** [arr[d] = v] on the byte array. *)
Fixpoint store (d : nat) (v : option Q) (arr : list Z) : list Z :=
  match arr, d with
  | [], _ => []
  | _ :: r, O => toUint8Clamp v :: r
  | a :: r, S d' => a :: store d' v r
  end.

(** [data[p]] as a number. *)
Definition sample (data : list Z) (p : nat) : option Q :=
  option_map inject_Z (nth_error data p).

(** [data[p] || 0] *)
Definition sampleOr0 (data : list Z) (p : nat) : option Q :=
  match sample data p with
  | Some v => Some (JS.or_num v 0)
  | None => Some 0
  end.

(** The four stores of one loop iteration, at offset [d]. *)
Definition storePixel (d : nat) (r g b a : option Q) (imageData : list Z)
    : list Z :=
  store (d + 3) a (store (d + 2) b (store (d + 1) g (store d r imageData))).

(** [for (let p = 0, d = 0; p < len; p++, d += 4)] with [val = get p]. *)
Definition grayLoop (get : nat -> option Q) (len : nat) (imageData : list Z)
    : list Z :=
  fold_left
    (fun imageData p =>
       let val := get p in
       storePixel (4 * p) val val val (Some 255) imageData)
    (seq 0 len) imageData.

(** [for (let p = 0, d = 0; p < data.length; p += 3, d += 4)] *)
Definition rgbLoop (data : list Z) (imageData : list Z) : list Z :=
  fold_left
    (fun imageData i =>
       let p := (3 * i)%nat in
       storePixel (4 * i) (sample data p) (sample data (p + 1))
         (sample data (p + 2)) (Some 255) imageData)
    (seq 0 ((length data + 2) / 3)) imageData.

(** [255 * (1 - c / 255) * (1 - k / 255)] *)
Definition cmykChannel (c k : option Q) : option Q :=
  match c, k with
  | Some c, Some k => Some (255 * (1 - c / 255) * (1 - k / 255))
  | _, _ => None
  end.

(** [for (let p = 0, d = 0; p < data.length; p += 4, d += 4)] *)
Definition cmykLoop (data : list Z) (imageData : list Z) : list Z :=
  fold_left
    (fun imageData i =>
       let p := (4 * i)%nat in
       let c := sample data p in
       let m := sample data (p + 1) in
       let y := sample data (p + 2) in
       let k := sample data (p + 3) in
       storePixel p (cmykChannel c k) (cmykChannel m k) (cmykChannel y k)
         (Some 255) imageData)
    (seq 0 ((length data + 3) / 4)) imageData.

(** [imageData.data.set(data)] for a [data] of the length of the array. *)
Definition setAll (data : list Z) : list Z :=
  map (fun v => toUint8Clamp (Some (inject_Z v))) data.

(** [img.kind || 2] *)
Definition kindOr2 (kind : option Z) : Z :=
  match kind with
  | Some k => if (k =? 0)%Z then 2%Z else k
  | None => 2%Z
  end.

(** The array handed to [putImageData] for raw samples. *)
Definition rawToRgba (kind : option Z) (data : list Z) (width height : nat)
    : list Z :=
  let len := (width * height)%nat in
  let imageData := repeat 0%Z (4 * len) in
  let kind := kindOr2 kind in
  if (kind =? 1)%Z then grayLoop (sample data) len imageData
  else if (kind =? 2)%Z then
    if (length data =? len * 4)%nat then setAll data
    else if (length data =? len * 3)%nat then rgbLoop data imageData
    else imageData
  else if (kind =? 3)%Z then cmykLoop data imageData
  else if (length data =? len * 4)%nat then setAll data
  else grayLoop (sampleOr0 data) len imageData.

(** The samples are bytes. *)
Definition bytes (data : list Z) : Prop :=
  Forall (fun v => (0 <= v <= 255)%Z) data.

(** The byte of sample [p], 0 when there is none. *)
Definition byteAt (data : list Z) (p : nat) : Z := nth p data 0%Z.

(** The byte stored for an ink byte [c] under a black byte [k]. *)
Definition cmykByte (c k : Z) : Z :=
  toUint8Clamp (cmykChannel (Some (inject_Z c)) (Some (inject_Z k))).

End Raster.

(* ================================================================= *)
(** ** Quoted-printable decoding *)

Module QuotedPrintable.
Import Str Patterns.
Local Open Scope Z_scope.

Definition isCRLF (c : Z) : bool := (c =? 0x0D) || (c =? 0x0A).

(** [[0-9A-F]] under the [i] flag. *)
Definition isHex (c : Z) : bool :=
  isDigit c || ((0x41 <=? c) && (c <=? 0x46)) || ((0x61 <=? c) && (c <=? 0x66)).

(** The value of one hexadecimal digit, as [parseInt(_, 16)] reads it. *)
Definition hexVal (c : Z) : Z :=
  if isDigit c then c - 0x30
  else if (0x41 <=? c) && (c <=? 0x46) then c - 0x41 + 10
  else c - 0x61 + 10.

(** [.replace(/=[\r\n]+/g, '')]: an [=] that is followed by line break
    characters is removed together with all of them.  [skipping] is
    set while the line breaks of a match are consumed. *)
Fixpoint softBreaks (skipping : bool) (s : jsstring) : jsstring :=
  match s with
  | [] => []
  | c :: r =>
      if skipping && isCRLF c then softBreaks true r
      else if (c =? 0x3D) && headIs isCRLF r then softBreaks true r
      else c :: softBreaks false r
  end.

(** [.replace(/=([0-9A-F]{2})/gi, (_match, hex) =>
      String.fromCharCode(parseInt(hex, 16)))] *)
Fixpoint hexPairs (s : jsstring) : jsstring :=
  match s with
  | [] => []
  | c :: r =>
      match r with
      | h1 :: h2 :: r' =>
          if (c =? 0x3D) && isHex h1 && isHex h2
          then (16 * hexVal h1 + hexVal h2) :: hexPairs r'
          else c :: hexPairs r
      | _ => c :: hexPairs r
      end
  end.

Definition decodeQuotedPrintable (str : jsstring) : jsstring :=
  hexPairs (softBreaks false str).

(** The upper-case hexadecimal digit of a value below 16. *)
Definition hexDigit (n : Z) : Z := if n <? 10 then 0x30 + n else 0x41 + (n - 10).

(** A quoted-printable encoding of a string of bytes: [=] and the bytes
    chosen by [esc] are written as [=HH], the others as they are. *)
Definition encodeByte (esc : Z -> bool) (c : Z) : jsstring :=
  if esc c || (c =? 0x3D) then [0x3D; hexDigit (c / 16); hexDigit (c mod 16)]
  else [c].

Definition encode (esc : Z -> bool) (s : jsstring) : jsstring :=
  flat_map (encodeByte esc) s.

(** The soft line break [=\r\n]. *)
Definition softBreak : jsstring := [0x3D; 0x0D; 0x0A].

End QuotedPrintable.

(* ================================================================= *)
(** ** The image viewer *)

Module Viewer.

(** [Math.min(a, b)] *)
Definition min2 (a b : Q) : Q := if JS.le a b then a else b.

(** The state of the component. *)
Record View : Type := mkView
  { scale : Q;
    rotation : Z;
    isDragging : bool;
    position : Q * Q;
    dragStart : Q * Q }.

Definition initial : View := mkView 1 0 false (0, 0) (0, 0).

(** [setScale(prev => Math.min(prev + 0.5, 5))] *)
Definition handleZoomIn (v : View) : View :=
  mkView (min2 (scale v + (1 # 2)) 5) (rotation v) (isDragging v)
    (position v) (dragStart v).

(** [setScale(prev => Math.max(prev - 0.5, 0.5))] *)
Definition handleZoomOut (v : View) : View :=
  mkView (JS.max2 (scale v - (1 # 2)) (1 # 2)) (rotation v) (isDragging v)
    (position v) (dragStart v).

(** [setRotation(prev => (prev + 90) % 360)] *)
Definition handleRotate (v : View) : View :=
  mkView (scale v) (Z.rem (rotation v + 90) 360) (isDragging v)
    (position v) (dragStart v).

Definition handleMouseDown (clientX clientY : Q) (v : View) : View :=
  mkView (scale v) (rotation v) true (position v)
    (clientX - fst (position v), clientY - snd (position v)).

Definition handleMouseMove (clientX clientY : Q) (v : View) : View :=
  if negb (isDragging v) then v
  else mkView (scale v) (rotation v) (isDragging v)
         (clientX - fst (dragStart v), clientY - snd (dragStart v))
         (dragStart v).

Definition handleMouseUp (v : View) : View :=
  mkView (scale v) (rotation v) false (position v) (dragStart v).

(** The [onWheel] handler. *)
Definition handleWheel (ctrlKey : bool) (deltaY : Q) (v : View) : View :=
  if ctrlKey then
    if JS.lt deltaY 0 then handleZoomIn v else handleZoomOut v
  else v.

Inductive Event : Type :=
| ZoomIn
| ZoomOut
| Rotate
| MouseDown (clientX clientY : Q)
| MouseMove (clientX clientY : Q)
| MouseUp
| Wheel (ctrlKey : bool) (deltaY : Q).

Definition handle (v : View) (e : Event) : View :=
  match e with
  | ZoomIn => handleZoomIn v
  | ZoomOut => handleZoomOut v
  | Rotate => handleRotate v
  | MouseDown x y => handleMouseDown x y v
  | MouseMove x y => handleMouseMove x y v
  | MouseUp => handleMouseUp v
  | Wheel ctrlKey deltaY => handleWheel ctrlKey deltaY v
  end.

Definition run (events : list Event) (v : View) : View :=
  fold_left handle events v.

(** The scale is between 0.5 and 5 and the rotation is one of 0, 90,
    180 and 270. *)
Definition inRange (v : View) : Prop :=
  (1 # 2) <= scale v /\ scale v <= 5
  /\ (rotation v = 0 \/ rotation v = 90 \/ rotation v = 180
      \/ rotation v = 270)%Z.

End Viewer.

(* ================================================================= *)
(** ** Scroll synchronisation of editor and preview *)

Module Scroll.

Inductive Side : Type := Editor | Preview.

Definition Side_eqb (a b : Side) : bool :=
  match a, b with
  | Editor, Editor | Preview, Preview => true
  | _, _ => false
  end.

(** What [syncScroll] reads of an element. *)
Record Pane : Type := mkPane
  { scrollTop : Q; scrollHeight : Q; clientHeight : Q }.

(** The value assigned to [toEl.scrollTop]. *)
Definition fromMaxOf (el : Pane) : Q :=
  JS.sub (scrollHeight el) (clientHeight el).

Definition target (fromEl toEl : Pane) : Q :=
  let fromMax := fromMaxOf fromEl in
  let toMax := fromMaxOf toEl in
  let ratio :=
    if JS.gt fromMax 0 then JS.div (scrollTop fromEl) fromMax else 0 in
  JS.mul ratio (JS.max2 0 toMax).

(** [syncScroll(from)] with both elements present: the new value of
    [syncScrollingRef.current] and the assignment to [toEl.scrollTop],
    if there is one. *)
Definition syncScroll (isSyncScroll : bool) (syncScrolling : option Side)
    (from : Side) (fromEl toEl : Pane) : option Side * option Q :=
  if negb isSyncScroll then (syncScrolling, None)
  else
    match syncScrolling with
    | Some holder =>
        if negb (Side_eqb holder from) then (syncScrolling, None)
        else (Some from, Some (target fromEl toEl))
    | None => (Some from, Some (target fromEl toEl))
    end.

End Scroll.

(* ================================================================= *)
(** ** Blob URLs and the state of the hook during a PDF conversion *)

Module Registry.
Import Str Transform Text Page Document.

(** [activeUrlsRef.current], the URLs revoked so far, and the state
    variables that [convertPdfToMd] sets. *)
Record Hook : Type := mkHook
  { activeUrls : list jsstring;
    revokedUrls : list jsstring;
    extractedImages : list ExtractedImage;
    error : option jsstring;
    isConverting : bool }.

Definition registerBlobUrl (url : jsstring) (h : Hook) : Hook :=
  mkHook (activeUrls h ++ [url]) (revokedUrls h) (extractedImages h)
    (error h) (isConverting h).

(** Every active URL is revoked and the list is emptied. *)
Definition clearBlobUrls (h : Hook) : Hook :=
  mkHook [] (revokedUrls h ++ activeUrls h) (extractedImages h)
    (error h) (isConverting h).

(** The calls of [registerBlobUrl] during the replay of a page: one
    for each paint operator that decodes. *)
Definition registerPage (ops : list Op) (h : Hook) : Hook :=
  fold_left
    (fun h op =>
       match decodedBy op with
       | Some (_, _, url) => registerBlobUrl url h
       | None => h
       end)
    ops h.

(** The URLs of the images that a list of operators registers. *)
Definition urlsOf (ops : list Op) : list jsstring :=
  flat_map (fun op => match decodedBy op with
                      | Some (_, _, url) => [url]
                      | None => []
                      end) ops.

(** The page loop on pages of which some cannot be read ([None]): the
    reading of such a page raises, before anything of the page is
    registered, and ends the loop. *)
Fixpoint runPages (pageNumber : nat) (pages : list (option PageInput))
    (a : Acc) (h : Hook) : option Acc * Hook :=
  match pages with
  | [] => (Some a, h)
  | None :: _ => (None, h)
  | Some p :: rest =>
      runPages (S pageNumber) rest (pageStep a pageNumber p)
        (registerPage (ops p) h)
  end.

Definition failedMessage : jsstring := lit "Failed to convert PDF to MD"%string.

(** [convertPdfToMd]: the returned Markdown, or [None] when the
    exception is thrown again, and the state of the hook afterwards. *)
Definition convertPdfToMd (pages : list (option PageInput)) (h : Hook)
    : option jsstring * Hook :=
  let h := clearBlobUrls (mkHook (activeUrls h) (revokedUrls h) [] None true) in
  match runPages 1 pages (mkAcc [] []) h with
  | (Some a, h) =>
      (Some (join nl2 (parts a)),
       mkHook (activeUrls h) (revokedUrls h) (allExtractedImages a)
         (error h) false)
  | (None, h) =>
      let h := clearBlobUrls h in
      (None,
       mkHook (activeUrls h) (revokedUrls h) (extractedImages h)
         (Some failedMessage) false)
  end.

(** The URLs registered while the readable pages before the first
    unreadable one are replayed. *)
Fixpoint registeredUrls (pages : list (option PageInput)) : list jsstring :=
  match pages with
  | [] => []
  | None :: _ => []
  | Some p :: rest => urlsOf (ops p) ++ registeredUrls rest
  end.

End Registry.

(* ================================================================= *)
(** * Properties *)

(** ** Comparisons of numbers *)

Module JSFacts.
Import JS.

Lemma lt_spec a b : lt a b = true <-> a < b.
Proof.
  unfold lt. rewrite negb_true_iff. split; intro H.
  - apply Qnot_le_lt. intro Hle. apply Qle_bool_iff in Hle. congruence.
  - destruct (Qle_bool b a) eqn:E; [|reflexivity].
    apply Qle_bool_iff in E. exfalso. exact (Qlt_not_le _ _ H E).
Qed.

Lemma le_spec a b : le a b = true <-> a <= b.
Proof. unfold le. apply Qle_bool_iff. Qed.

Lemma lt_false a b : lt a b = false <-> b <= a.
Proof.
  unfold lt. rewrite negb_false_iff. apply Qle_bool_iff.
Qed.

Lemma le_false a b : le a b = false <-> b < a.
Proof.
  rewrite <- lt_spec. unfold lt, le.
  destruct (Qle_bool a b); simpl; split; congruence.
Qed.

Lemma max2_ub_l a b : a <= max2 a b.
Proof.
  unfold max2. destruct (le a b) eqn:E.
  - now apply le_spec.
  - apply Qle_refl.
Qed.

Lemma max2_ub_r a b : b <= max2 a b.
Proof.
  unfold max2. destruct (le a b) eqn:E.
  - apply Qle_refl.
  - apply le_false in E. now apply Qlt_le_weak.
Qed.

Lemma gt_spec a b : gt a b = true <-> b < a.
Proof. unfold gt. apply lt_spec. Qed.

Lemma ge_spec a b : ge a b = true <-> b <= a.
Proof. unfold ge. apply le_spec. Qed.

Lemma lt_compat a a' b b' : a == a' -> b == b' -> lt a b = lt a' b'.
Proof.
  intros Ea Eb. destruct (lt a b) eqn:A, (lt a' b') eqn:B; try reflexivity.
  - apply lt_spec in A. apply lt_false in B. lra.
  - apply lt_false in A. apply lt_spec in B. lra.
Qed.

Lemma abs_Qabs a : abs a == Qabs.Qabs a.
Proof.
  unfold abs. destruct (lt a 0) eqn:E.
  - apply lt_spec in E. symmetry. apply Qabs.Qabs_neg. now apply Qlt_le_weak.
  - apply lt_false in E. symmetry. now apply Qabs.Qabs_pos.
Qed.

End JSFacts.

(** ** Rounding to double precision *)

Module RoundingFacts.
Import JS JSFacts.

Lemma pow2_pos (e : Z) : 0 < pow2 e.
Proof. apply Qpower_0_lt. reflexivity. Qed.

Lemma pow2_plus (a b : Z) : pow2 (a + b) == pow2 a * pow2 b.
Proof. apply Qpower_plus. discriminate. Qed.

Lemma pow2_succ (a : Z) : pow2 (a + 1) == 2 * pow2 a.
Proof. rewrite pow2_plus. change (pow2 1) with 2. ring. Qed.

Lemma pow2_le (a b : Z) : (a <= b)%Z -> pow2 a <= pow2 b.
Proof. intros H. apply Qpower_le_compat_l; [exact H | discriminate]. Qed.

Lemma pow2_lt_inv (a b : Z) : pow2 a < pow2 b -> (a < b)%Z.
Proof. intros H. apply (Qpower_lt_compat_l_inv 2); [exact H | reflexivity]. Qed.

Lemma pow2_Z (n : Z) : (0 <= n)%Z -> pow2 n == inject_Z (2 ^ n).
Proof. intros H. unfold pow2. now rewrite Zpower_Qpower. Qed.

(** The exponent found by [ilog2] is the binary exponent. *)
Lemma ilog2_spec (x : Q) :
  0 < x -> pow2 (ilog2 x) <= x /\ x < pow2 (ilog2 x + 1).
Proof.
  intros Hx. unfold ilog2.
  set (n := Qnum x). set (d := Zpos (Qden x)).
  assert (Hn : (0 < n)%Z).
  { unfold n. destruct x as [xn xd]. unfold Qlt in Hx. simpl in *. lia. }
  assert (Hd : (0 < d)%Z) by (unfold d; lia).
  set (a := Z.log2 n). set (b := Z.log2 d).
  assert (Ha0 : (0 <= a)%Z) by apply Z.log2_nonneg.
  assert (Hb0 : (0 <= b)%Z) by apply Z.log2_nonneg.
  destruct (Z.log2_spec n Hn) as [La Ua]. destruct (Z.log2_spec d Hd) as [Lb Ub].
  fold a in La, Ua. fold b in Lb, Ub.
  rewrite Zle_Qle in La, Lb. rewrite Zlt_Qlt in Ua, Ub.
  rewrite <- pow2_Z in La, Lb by lia. rewrite <- pow2_Z in Ua, Ub by lia.
  unfold Z.succ in Ua, Ub. rewrite pow2_succ in Ua, Ub.
  assert (E : x * inject_Z d == inject_Z n).
  { unfold n, d. destruct x as [xn xd]. unfold Qeq, Qmult, inject_Z. simpl.
    rewrite Pos.mul_1_r. ring. }
  assert (Ek : pow2 (a - b) * pow2 b == pow2 a).
  { rewrite <- pow2_plus. now replace (a - b + b)%Z with a by lia. }
  assert (Ek1 : pow2 (a - b - 1) * 2 == pow2 (a - b)).
  { replace (a - b)%Z with ((a - b - 1) + 1)%Z at 2 by lia.
    rewrite pow2_succ. ring. }
  pose proof (pow2_pos a) as Pa. pose proof (pow2_pos b) as Pb.
  pose proof (pow2_pos (a - b)) as Pk. pose proof (pow2_pos (a - b - 1)) as Pk1.
  assert (Hup : x < 2 * pow2 (a - b)).
  { apply Qnot_le_lt. intros C.
    assert (2 * pow2 (a - b) * pow2 b <= x * inject_Z d).
    { apply Qle_trans with (x * pow2 b).
      - apply Qmult_le_compat_r; [exact C | now apply Qlt_le_weak].
      - rewrite !(Qmult_comm x). apply Qmult_le_compat_r; [exact Lb | now apply Qlt_le_weak]. }
    rewrite E in H. rewrite <- Qmult_assoc, Ek in H. lra. }
  assert (Hlow : pow2 (a - b - 1) < x).
  { apply Qnot_le_lt. intros C.
    assert (x * inject_Z d <= pow2 (a - b - 1) * inject_Z d).
    { apply Qmult_le_compat_r; [exact C|]. lra. }
    assert (pow2 (a - b - 1) * inject_Z d < pow2 (a - b - 1) * (2 * pow2 b)).
    { rewrite !(Qmult_comm (pow2 (a - b - 1))). apply Qmult_lt_compat_r; assumption. }
    rewrite E in H.
    assert (pow2 (a - b - 1) * (2 * pow2 b) == pow2 a).
    { rewrite Qmult_assoc, Ek1. exact Ek. }
    lra. }
  destruct (le (pow2 (a - b)) x) eqn:T.
  - apply le_spec in T. split; [exact T|]. now rewrite pow2_succ.
  - apply le_false in T. split; [now apply Qlt_le_weak|].
    now replace (a - b - 1 + 1)%Z with (a - b)%Z by lia.
Qed.

Lemma ilog2_mono (x y : Q) : 0 < x -> x <= y -> (ilog2 x <= ilog2 y)%Z.
Proof.
  intros Hx Hxy.
  destruct (ilog2_spec x Hx) as [Lx _].
  destruct (ilog2_spec y) as [_ Uy]; [lra|].
  assert (H : pow2 (ilog2 x) < pow2 (ilog2 y + 1)) by lra.
  apply pow2_lt_inv in H. lia.
Qed.

Lemma roundHalfEven_Z (n : Z) : roundHalfEven (inject_Z n) = n.
Proof.
  unfold roundHalfEven. rewrite Qfloor_Z.
  assert (E : lt (inject_Z n - inject_Z n) (1 # 2) = true).
  { apply lt_spec. lra. }
  now rewrite E.
Qed.

Lemma roundHalfEven_bounds (x : Q) :
  (Qfloor x <= roundHalfEven x <= Qfloor x + 1)%Z.
Proof.
  unfold roundHalfEven.
  repeat match goal with |- context [if ?c then _ else _] => destruct c end; lia.
Qed.

Lemma roundHalfEven_mono (x y : Q) :
  x <= y -> (roundHalfEven x <= roundHalfEven y)%Z.
Proof.
  intros H. pose proof (Qfloor_resp_le x y H) as F.
  destruct (Z.eq_dec (Qfloor x) (Qfloor y)) as [E|N].
  - unfold roundHalfEven. rewrite <- E.
    destruct (lt (x - inject_Z (Qfloor x)) (1 # 2)) eqn:A.
    { repeat match goal with |- context [if ?c then _ else _] => destruct c end; lia. }
    apply lt_false in A.
    destruct (lt (y - inject_Z (Qfloor x)) (1 # 2)) eqn:B.
    { apply lt_spec in B. lra. }
    destruct (lt (1 # 2) (x - inject_Z (Qfloor x))) eqn:C.
    { apply lt_spec in C.
      assert (D : lt (1 # 2) (y - inject_Z (Qfloor x)) = true) by (apply lt_spec; lra).
      rewrite D. lia. }
    repeat match goal with |- context [if ?c then _ else _] => destruct c end; lia.
  - pose proof (roundHalfEven_bounds x). pose proof (roundHalfEven_bounds y). lia.
Qed.

Lemma roundHalfEven_nonneg (x : Q) : 0 <= x -> (0 <= roundHalfEven x)%Z.
Proof.
  intros H. pose proof (roundHalfEven_mono 0 x H) as M.
  change 0 with (inject_Z 0) in M at 1. now rewrite roundHalfEven_Z in M.
Qed.

(** A power of two above the spacing lies on the grid. *)
Lemma pow2_grid (e t : Z) :
  (e <= t)%Z -> pow2 t == inject_Z (2 ^ (t - e)) * pow2 e.
Proof.
  intros H. rewrite <- pow2_Z by lia. rewrite <- pow2_plus.
  now replace (t - e + e)%Z with t by lia.
Qed.

Lemma scaled_le (x : Q) (e t : Z) :
  (e <= t)%Z -> x <= pow2 t -> x / pow2 e <= inject_Z (2 ^ (t - e)).
Proof.
  intros H L. pose proof (pow2_pos e) as P.
  apply Qle_shift_div_r; [exact P|]. now rewrite <- pow2_grid.
Qed.

Lemma scaled_ge (x : Q) (e t : Z) :
  (e <= t)%Z -> pow2 t <= x -> inject_Z (2 ^ (t - e)) <= x / pow2 e.
Proof.
  intros H L. pose proof (pow2_pos e) as P.
  apply Qle_shift_div_l; [exact P|]. now rewrite <- pow2_grid.
Qed.

Lemma flpos_le_pow2 (x : Q) (t : Z) :
  x <= pow2 t -> (Z.max (ilog2 x - 52) (-1074) <= t)%Z -> flpos x <= pow2 t.
Proof.
  intros L H. unfold flpos. set (e := Z.max (ilog2 x - 52) (-1074)) in *.
  rewrite (pow2_grid e t H).
  apply Qmult_le_compat_r; [|apply Qlt_le_weak, pow2_pos].
  rewrite <- Zle_Qle. rewrite <- (roundHalfEven_Z (2 ^ (t - e))).
  apply roundHalfEven_mono. now apply scaled_le.
Qed.

Lemma flpos_ge_pow2 (x : Q) (t : Z) :
  pow2 t <= x -> (Z.max (ilog2 x - 52) (-1074) <= t)%Z -> pow2 t <= flpos x.
Proof.
  intros L H. unfold flpos. set (e := Z.max (ilog2 x - 52) (-1074)) in *.
  rewrite (pow2_grid e t H).
  apply Qmult_le_compat_r; [|apply Qlt_le_weak, pow2_pos].
  rewrite <- Zle_Qle. rewrite <- (roundHalfEven_Z (2 ^ (t - e))).
  apply roundHalfEven_mono. now apply scaled_ge.
Qed.

(** Rounding keeps the order of the positive numbers. *)
Lemma flpos_mono (x y : Q) : 0 < x -> x <= y -> flpos x <= flpos y.
Proof.
  intros Hx Hxy. assert (Hy : 0 < y) by lra.
  pose proof (ilog2_mono x y Hx Hxy) as M.
  destruct (ilog2_spec x Hx) as [_ Ux]. destruct (ilog2_spec y Hy) as [Ly _].
  set (ex := Z.max (ilog2 x - 52) (-1074)).
  set (ey := Z.max (ilog2 y - 52) (-1074)).
  destruct (Z.eq_dec ex ey) as [E|N].
  - unfold flpos. fold ex. fold ey. rewrite <- E.
    apply Qmult_le_compat_r; [|apply Qlt_le_weak, pow2_pos].
    rewrite <- Zle_Qle. apply roundHalfEven_mono.
    apply Qmult_le_compat_r; [exact Hxy|].
    apply Qlt_le_weak, Qinv_lt_0_compat, pow2_pos.
  - assert (L : (ex < ey)%Z) by (unfold ex, ey in *; lia).
    apply Qle_trans with (pow2 (ilog2 y)).
    + apply flpos_le_pow2; [|fold ex; unfold ey in L; lia].
      destruct (Z.eq_dec (ilog2 x) (ilog2 y)) as [E|N'].
      * exfalso. unfold ex, ey in L. rewrite E in L. lia.
      * apply Qle_trans with (pow2 (ilog2 x + 1)); [now apply Qlt_le_weak|].
        apply pow2_le. lia.
    + apply flpos_ge_pow2; [exact Ly|]. fold ey. unfold ex, ey in *. lia.
Qed.

Lemma flpos_nonneg (x : Q) : 0 < x -> 0 <= flpos x.
Proof.
  intros H. unfold flpos.
  apply Qmult_le_0_compat; [|apply Qlt_le_weak, pow2_pos].
  change 0 with (inject_Z 0). rewrite <- Zle_Qle.
  apply roundHalfEven_nonneg.
  apply Qlt_le_weak, Qlt_shift_div_l; [apply pow2_pos | lra].
Qed.

Lemma fl_zero (x : Q) : x == 0 -> fl x = 0.
Proof.
  intros E. unfold fl.
  assert (A : lt 0 x = false) by (apply lt_false; lra).
  assert (B : lt x 0 = false) by (apply lt_false; lra).
  now rewrite A, B.
Qed.

Lemma fl_pos (x : Q) : 0 < x -> fl x = flpos x.
Proof.
  intros H. unfold fl. apply lt_spec in H. now rewrite H.
Qed.

Lemma fl_neg (x : Q) : x < 0 -> fl x = - flpos (- x).
Proof.
  intros H. unfold fl.
  assert (A : lt 0 x = false) by (apply lt_false; lra).
  apply lt_spec in H. now rewrite A, H.
Qed.

(** Rounding keeps the order: [fl] is monotone. *)
Lemma fl_mono (x y : Q) : x <= y -> fl x <= fl y.
Proof.
  intros H.
  destruct (Qlt_le_dec 0 x) as [Px|Nx].
  - rewrite (fl_pos x Px), (fl_pos y) by lra. now apply flpos_mono.
  - destruct (Qlt_le_dec x 0) as [Nx'|Zx].
    + rewrite (fl_neg x Nx').
      assert (0 <= flpos (- x)) by (apply flpos_nonneg; lra).
      destruct (Qlt_le_dec 0 y) as [Py|Ny].
      * rewrite (fl_pos y Py). pose proof (flpos_nonneg y Py). lra.
      * destruct (Qlt_le_dec y 0) as [Ny'|Zy].
        -- rewrite (fl_neg y Ny').
           assert (flpos (- y) <= flpos (- x)) by (apply flpos_mono; lra).
           lra.
        -- rewrite (fl_zero y) by lra. lra.
    + rewrite (fl_zero x) by lra.
      destruct (Qlt_le_dec 0 y) as [Py|Ny].
      * rewrite (fl_pos y Py). now apply flpos_nonneg.
      * rewrite (fl_zero y) by lra. lra.
Qed.

(** Numbers that are equal have the same rounding. *)
Lemma fl_compat (x y : Q) : x == y -> fl x == fl y.
Proof.
  intros E. apply Qle_antisym; apply fl_mono; lra.
Qed.

(** Rounding is symmetric about zero. *)
Lemma fl_opp (x : Q) : fl (- x) == - fl x.
Proof.
  destruct (Qlt_le_dec 0 x) as [Px|Nx].
  - rewrite (fl_pos x Px), (fl_neg (- x)) by lra.
    assert (E : flpos (- - x) == flpos x).
    { apply Qle_antisym; apply flpos_mono; lra. }
    now rewrite E.
  - destruct (Qlt_le_dec x 0) as [Nx'|Zx].
    + rewrite (fl_neg x Nx'), (fl_pos (- x)) by lra. ring.
    + rewrite (fl_zero x), (fl_zero (- x)) by lra. reflexivity.
Qed.

Lemma fl_sign (x : Q) : (0 <= x -> 0 <= fl x) /\ (x <= 0 -> fl x <= 0).
Proof.
  split; intros H.
  - pose proof (fl_mono 0 x H) as M.
    now rewrite (fl_zero 0) in M by reflexivity.
  - pose proof (fl_mono x 0 H) as M.
    now rewrite (fl_zero 0) in M by reflexivity.
Qed.


Lemma pow2_le_inv (a b : Z) : pow2 a <= pow2 b -> (a <= b)%Z.
Proof. intros H. apply (Qpower_le_compat_l_inv 2); [exact H | reflexivity]. Qed.

Lemma roundHalfEven_compat (x y : Q) :
  x == y -> roundHalfEven x = roundHalfEven y.
Proof.
  intros E. apply Z.le_antisymm; apply roundHalfEven_mono; lra.
Qed.

(** Rounding to an integer moves a number by at most a half. *)
Lemma roundHalfEven_error (x : Q) :
  Qabs (inject_Z (roundHalfEven x) - x) <= 1 # 2.
Proof.
  pose proof (Qfloor_le x) as L. pose proof (Qlt_floor x) as U.
  rewrite inject_Z_plus in U. change (inject_Z 1) with 1 in U.
  apply Qabs_Qle_condition. unfold roundHalfEven.
  destruct (lt (x - inject_Z (Qfloor x)) (1 # 2)) eqn:A.
  { apply lt_spec in A. split; lra. }
  apply lt_false in A.
  destruct (lt (1 # 2) (x - inject_Z (Qfloor x))) eqn:B.
  { apply lt_spec in B. rewrite inject_Z_plus. change (inject_Z 1) with 1.
    split; lra. }
  apply lt_false in B.
  destruct (Z.even (Qfloor x));
    rewrite ?inject_Z_plus; change (inject_Z 1) with 1; split; lra.
Qed.

(** A positive number on the grid of its binade is its own rounding. *)
Lemma flpos_on_grid (y : Q) (j : Z) :
  y == inject_Z j * pow2 (Z.max (ilog2 y - 52) (-1074)) -> flpos y == y.
Proof.
  intros E. unfold flpos. set (e := Z.max (ilog2 y - 52) (-1074)) in *.
  pose proof (pow2_pos e) as P.
  assert (Z : y / pow2 e == inject_Z j).
  { rewrite E at 1. field. lra. }
  rewrite (roundHalfEven_compat _ _ Z), roundHalfEven_Z. now rewrite <- E.
Qed.

Lemma ilog2_ge (y : Q) (k : Z) : 0 < y -> pow2 k <= y -> (k <= ilog2 y)%Z.
Proof.
  intros Hy H. destruct (ilog2_spec y Hy) as [_ U].
  assert (L : pow2 k < pow2 (ilog2 y + 1)) by lra.
  apply pow2_lt_inv in L. lia.
Qed.

Lemma ilog2_le (y : Q) (k : Z) : 0 < y -> y <= pow2 k -> (ilog2 y <= k)%Z.
Proof.
  intros Hy H. destruct (ilog2_spec y Hy) as [L _].
  apply pow2_le_inv. lra.
Qed.

(** The rounding of a positive number is a double: rounding it again
    changes nothing. *)
Lemma flpos_idem (x : Q) : 0 < x -> 0 < flpos x -> flpos (flpos x) == flpos x.
Proof.
  intros Hx Hy. set (y := flpos x) in *.
  destruct (ilog2_spec x Hx) as [Lx Ux].
  set (k := ilog2 x) in *. set (e := Z.max (k - 52) (-1074)).
  assert (Ey : y = inject_Z (roundHalfEven (x / pow2 e)) * pow2 e) by reflexivity.
  destruct (Z_le_gt_dec (-1074) (k - 52)) as [Hn|Hs].
  - assert (He : e = (k - 52)%Z) by (unfold e; lia).
    assert (Ly : pow2 k <= y).
    { apply flpos_ge_pow2; [exact Lx|]. fold k. lia. }
    assert (Uy : y <= pow2 (k + 1)).
    { apply flpos_le_pow2; [now apply Qlt_le_weak|]. fold k. lia. }
    pose proof (ilog2_ge y k Hy Ly) as G.
    pose proof (ilog2_le y (k + 1) Hy Uy) as L.
    destruct (Z.eq_dec (ilog2 y) k) as [Ek|Nk].
    + apply (flpos_on_grid y (roundHalfEven (x / pow2 e))).
      rewrite Ek. fold e. now rewrite Ey.
    + assert (Ek : ilog2 y = (k + 1)%Z) by lia.
      destruct (ilog2_spec y Hy) as [Ly' _]. rewrite Ek in Ly'.
      assert (E2 : y == pow2 (k + 1)) by lra.
      apply (flpos_on_grid y (2 ^ 52)). rewrite Ek.
      replace (Z.max (k + 1 - 52) (-1074)) with (k + 1 - 52)%Z by lia.
      rewrite E2. rewrite <- pow2_Z by lia. rewrite <- pow2_plus.
      now replace (52 + (k + 1 - 52))%Z with (k + 1)%Z by lia.
  - assert (He : e = (-1074)%Z) by (unfold e; lia).
    assert (Uy : y <= pow2 (Z.max (k + 1) (-1074))).
    { apply flpos_le_pow2; [|fold k; lia].
      apply Qle_trans with (pow2 (k + 1)); [now apply Qlt_le_weak|].
      apply pow2_le. lia. }
    pose proof (ilog2_le y _ Hy Uy) as L.
    apply (flpos_on_grid y (roundHalfEven (x / pow2 e))).
    replace (Z.max (ilog2 y - 52) (-1074)) with e by lia. now rewrite Ey.
Qed.

Lemma fl_idem (x : Q) : fl (fl x) == fl x.
Proof.
  assert (P : forall z, 0 < z -> fl (flpos z) == flpos z).
  { intros z Hz. pose proof (flpos_nonneg z Hz) as N.
    destruct (Qlt_le_dec 0 (flpos z)) as [Py|Zy].
    - rewrite (fl_pos _ Py). now apply flpos_idem.
    - rewrite (fl_zero (flpos z)) by lra. lra. }
  destruct (Qlt_le_dec 0 x) as [Px|Nx].
  - rewrite (fl_pos x Px). now apply P.
  - destruct (Qlt_le_dec x 0) as [Nx'|Zx].
    + rewrite (fl_neg x Nx'). rewrite fl_opp. rewrite P by lra. reflexivity.
    + rewrite (fl_zero x) by lra. now rewrite (fl_zero 0).
Qed.

(** The error of a rounding: at most [2^-53] of the number, or
    [2^-1075] among the subnormal numbers. *)
Lemma flpos_error (x : Q) :
  0 < x -> Qabs (flpos x - x) <= pow2 (-53) * x + pow2 (-1075).
Proof.
  intros Hx. destruct (ilog2_spec x Hx) as [Lx _].
  unfold flpos. set (k := ilog2 x) in *.
  set (e := Z.max (k - 52) (-1074)).
  pose proof (pow2_pos e) as P.
  set (z := x / pow2 e).
  assert (Ex : x == z * pow2 e) by (unfold z; field; lra).
  pose proof (roundHalfEven_error z) as R.
  apply Qabs_Qle_condition in R. destruct R as [R1 R2].
  assert (H2 : pow2 e == 2 * pow2 (e - 1)).
  { rewrite <- pow2_succ. now replace (e - 1 + 1)%Z with e by lia. }
  pose proof (pow2_pos (e - 1)) as P1.
  clearbody z. set (n := inject_Z (roundHalfEven z)) in *. clearbody n.
  assert (B : Qabs (n * pow2 e - x) <= pow2 (e - 1)).
  { apply Qabs_Qle_condition. set (q := pow2 (e - 1)) in *.
    set (p := pow2 e) in *. clearbody p q. split; nra. }
  eapply Qle_trans; [exact B|].
  pose proof (pow2_pos (-53)) as P53. pose proof (pow2_pos (-1075)) as P1075.
  destruct (Z_le_gt_dec (-1074) (k - 52)) as [Hn|Hs].
  - replace (e - 1)%Z with (-53 + k)%Z by (unfold e; lia).
    rewrite pow2_plus.
    assert (pow2 (-53) * pow2 k <= pow2 (-53) * x) by nra. lra.
  - replace (e - 1)%Z with (-1075)%Z by (unfold e; lia).
    assert (0 <= pow2 (-53) * x) by nra. lra.
Qed.

Lemma fl_error (x : Q) :
  Qabs (fl x - x) <= pow2 (-53) * Qabs x + pow2 (-1075).
Proof.
  pose proof (pow2_pos (-1075)) as P.
  destruct (Qlt_le_dec 0 x) as [Px|Nx].
  - rewrite (fl_pos x Px), (Qabs_pos x) by lra. now apply flpos_error.
  - destruct (Qlt_le_dec x 0) as [Nx'|Zx].
    + rewrite (fl_neg x Nx'), (Qabs_neg x) by lra.
      assert (E : - flpos (- x) - x == - (flpos (- x) - - x)) by ring.
      rewrite E, Qabs_opp. apply flpos_error. lra.
    + rewrite (fl_zero x) by lra.
      assert (E : 0 - x == 0) by lra. rewrite E.
      assert (E' : Qabs x == 0) by (apply Qabs_case; intros; lra).
      rewrite E'. change (Qabs 0) with 0. lra.
Qed.

End RoundingFacts.

(** ** The transform tracker *)

Module TransformFacts.
Import Transform.

(** The translation entries of [multiply m1 m2] are computed from [m1]
    and the linear part of [m2] alone. *)
Lemma multiply_translation_of_args (m1 : Matrix) (a b c d e f e' f' : Q) :
  multiply m1 (mkMatrix a b c d e f) = multiply m1 (mkMatrix a b c d e' f').
Proof. reflexivity. Qed.

Lemma multiply_untranslated m1 m2 :
  untranslated m1 -> untranslated (multiply m1 m2).
Proof.
  intros [H4 H5]. split; simpl; rewrite H4, H5; ring.
Qed.

Lemma step_untranslated pageNumber i op s :
  untranslated (ctm s) -> Forall untranslated (transformStack s) ->
  untranslated (ctm (step pageNumber i op s))
  /\ Forall untranslated (transformStack (step pageNumber i op s)).
Proof.
  intros Hc Hs. destruct op as [| |args|r|r|]; simpl.
  - split; [assumption | now constructor].
  - destruct (transformStack s) as [|top rest] eqn:E.
    + rewrite E. now split.
    + simpl. inversion Hs; subst. now split.
  - split; [now apply multiply_untranslated | assumption].
  - destruct r; simpl; now split.
  - destruct r; simpl; now split.
  - now split.
Qed.

(** Whatever the operator list, the replay never holds a translation:
    entries 4 and 5 of [ctm] are zero throughout. *)
Lemma replay_from_untranslated pageNumber ops : forall i s,
  untranslated (ctm s) -> Forall untranslated (transformStack s) ->
  untranslated (ctm (replay_from pageNumber i ops s)).
Proof.
  induction ops as [|op rest IH]; intros i s Hc Hs; simpl.
  - assumption.
  - destruct (step_untranslated pageNumber i op s Hc Hs) as [Hc' Hs'].
    now apply IH.
Qed.

Lemma replay_untranslated pageNumber ops :
  untranslated (ctm (replay pageNumber ops)).
Proof.
  apply replay_from_untranslated.
  - split; reflexivity.
  - constructor.
Qed.

(** The loop over a concatenation of operator lists. *)
Lemma replay_from_app pageNumber l1 : forall l2 i s,
  replay_from pageNumber i (l1 ++ l2) s
  = replay_from pageNumber (i + length l1) l2 (replay_from pageNumber i l1 s).
Proof.
  induction l1 as [|op l1 IH]; intros l2 i s; simpl.
  - now rewrite Nat.add_0_r.
  - rewrite IH. now rewrite Nat.add_succ_r.
Qed.

Local Ltac nothing_appended :=
  intros; rewrite !app_nil_r; split; [reflexivity | split; intros ? []].

(** One operator changes the two output lists by appending to them,
    and what it appends and what it does to the transform and to the
    stack does not depend on the lists. *)
Lemma step_appends pageNumber i op c st :
  exists c' st' dI dP, forall I P,
    step pageNumber i op (mkState c st I P) = mkState c' st' (I ++ dI) (P ++ dP)
    /\ (forall x, In x dI -> info_id x = (pageNumber, i) /\ info_y x = visualTopY c
                              /\ decodedBy op <> None)
    /\ (forall e, In e dP -> id e = (pageNumber, i) /\ decodedBy op <> None).
Proof.
  destruct op as [| |args|r|r|]; simpl.
  - exists c, (c :: st), [], []. nothing_appended.
  - destruct st as [|top rest].
    + exists c, [], [], []. nothing_appended.
    + exists top, rest, [], []. nothing_appended.
  - exists (multiply c args), st, [], []. nothing_appended.
  - destruct r as [| | | |w h url];
      try (exists c, st, [], []; nothing_appended).
    exists c, st, [mkImageInfo (visualTopY c) (pageNumber, i) w h],
      [mkExtractedImage url (pageNumber, i)].
    intros. split; [reflexivity|]. split.
    + intros x [<-|[]]. simpl. repeat split. discriminate.
    + intros e [<-|[]]. simpl. repeat split. discriminate.
  - destruct r as [| | | |w h url];
      try (exists c, st, [], []; nothing_appended).
    exists c, st, [mkImageInfo (visualTopY c) (pageNumber, i) w h],
      [mkExtractedImage url (pageNumber, i)].
    intros. split; [reflexivity|]. split.
    + intros x [<-|[]]. simpl. repeat split. discriminate.
    + intros e [<-|[]]. simpl. repeat split. discriminate.
  - exists c, st, [], []. nothing_appended.
Qed.

(** The same for the loop: the appended entries carry the indices of
    operators of the list. *)
Lemma replay_from_appends pageNumber ops : forall i c st,
  exists c' st' dI dP, forall I P,
    replay_from pageNumber i ops (mkState c st I P)
    = mkState c' st' (I ++ dI) (P ++ dP)
    /\ (forall x, In x dI ->
          exists j, (j < length ops)%nat /\ info_id x = (pageNumber, (i + j)%nat))
    /\ (forall e, In e dP ->
          exists j, (j < length ops)%nat /\ id e = (pageNumber, (i + j)%nat)).
Proof.
  induction ops as [|op rest IH]; intros i c st.
  - exists c, st, [], []. intros. simpl. rewrite !app_nil_r.
    split; [reflexivity | split; intros ? []].
  - destruct (step_appends pageNumber i op c st) as (c1 & st1 & dI1 & dP1 & H1).
    destruct (IH (S i) c1 st1) as (c2 & st2 & dI2 & dP2 & H2).
    exists c2, st2, (dI1 ++ dI2), (dP1 ++ dP2). intros I P.
    destruct (H1 I P) as (E1 & HI1 & HP1).
    destruct (H2 (I ++ dI1) (P ++ dP1)) as (E2 & HI2 & HP2).
    split; [|split].
    + simpl. rewrite E1, E2. now rewrite !app_assoc.
    + intros x Hx. apply in_app_or in Hx. destruct Hx as [Hx|Hx].
      * exists 0%nat. split; [simpl; lia|]. rewrite Nat.add_0_r.
        now apply HI1.
      * destruct (HI2 x Hx) as (j & Hj & Hid). exists (S j).
        split; [simpl; lia|]. rewrite Hid. f_equal. lia.
    + intros e He. apply in_app_or in He. destruct He as [He|He].
      * exists 0%nat. split; [simpl; lia|]. rewrite Nat.add_0_r.
        now apply HP1.
      * destruct (HP2 e He) as (j & Hj & Hid). exists (S j).
        split; [simpl; lia|]. rewrite Hid. f_equal. lia.
Qed.

(** A paint operator that fails leaves the state as it is. *)
Lemma step_failed_paint pageNumber i r s :
  isFailure r = true ->
  step pageNumber i (PaintImageXObject r) s = s
  /\ step pageNumber i (PaintInlineImageXObject r) s = s.
Proof.
  destruct r; simpl; intros H; try discriminate; now split.
Qed.

(** The replay of [pre ++ op :: post] around the operator at index
    [length pre]: what [pre] and [post] register carries other indices. *)
Lemma replay_around pageNumber pre post :
  exists c st dI1 dP1 c2 st2 dI2 dP2,
    replay_from pageNumber 0 pre init = mkState c st dI1 dP1
    /\ (forall I P,
          replay_from pageNumber (S (length pre)) post (mkState c st I P)
          = mkState c2 st2 (I ++ dI2) (P ++ dP2))
    /\ (forall x, In x (dI1 ++ dI2) -> info_id x <> (pageNumber, length pre))
    /\ (forall e, In e (dP1 ++ dP2) -> id e <> (pageNumber, length pre)).
Proof.
  destruct (replay_from_appends pageNumber pre 0 identity [])
    as (c & st & dI1 & dP1 & H1).
  destruct (replay_from_appends pageNumber post (S (length pre)) c st)
    as (c2 & st2 & dI2 & dP2 & H2).
  exists c, st, dI1, dP1, c2, st2, dI2, dP2.
  destruct (H1 [] []) as (E1 & HI1 & HP1). simpl in E1.
  split; [exact E1|]. split; [intros I P; apply (H2 I P)|].
  destruct (H2 [] []) as (_ & HI2 & HP2).
  split.
  - intros x Hx. apply in_app_or in Hx. destruct Hx as [Hx|Hx].
    + destruct (HI1 x Hx) as (j & Hj & ->). intros [=]. lia.
    + destruct (HI2 x Hx) as (j & Hj & ->). intros [=]. lia.
  - intros e He. apply in_app_or in He. destruct He as [He|He].
    + destruct (HP1 e He) as (j & Hj & ->). intros [=]. lia.
    + destruct (HP2 e He) as (j & Hj & ->). intros [=]. lia.
Qed.

(** C1.  The stream [cm(1,0,0,1,0,100); q; cm(.5,0,0,.5,0,0); Do; Q]:
    the painted image is recorded with visual top 1/2, although the
    unit square under translate(0,100) composed with scale(0.5) has its
    top at 101/2 (or at 201/2 when the scale is applied first).  The
    cause is that [multiply] never reads the translation of its second
    argument, so the translation of an incoming matrix is lost. *)
Theorem C1_incoming_translation_is_lost :
  (forall m1 a b c d e f,
      multiply m1 (mkMatrix a b c d e f) = multiply m1 (mkMatrix a b c d 0 0))
  /\ (let pre := mkMatrix 1 0 0 1 0 100 in
      let half := mkMatrix (1 # 2) 0 0 (1 # 2) 0 0 in
      let ops := [TransformOp pre; Save; TransformOp half;
                  PaintImageXObject (Decoded 10 10 [0x75%Z]); Restore] in
      (exists y, map info_y (imageInfos (replay 1 ops)) = [y] /\ y == 1 # 2)
      /\ visualTopY (compose_spec pre half) == 101 # 2
      /\ visualTopY (compose_spec_rev pre half) == 201 # 2
      /\ ~ multiply identity pre = compose_spec identity pre).
Proof.
  split.
  - intros. reflexivity.
  - cbv zeta. repeat split.
    + eexists. split; [reflexivity | reflexivity].
    + intro H. discriminate H.
Qed.

(** C9.  A restore met with an empty stack changes nothing: the state,
    and so the current transform, is the one before it, and the rest of
    the operator list is replayed from that state. *)
Theorem C9_restore_on_empty_stack_is_noop :
  forall pageNumber i m infos images rest,
    let s := mkState m [] infos images in
    step pageNumber i Restore s = s
    /\ ctm (step pageNumber i Restore s) = m
    /\ replay_from pageNumber i (Restore :: rest) s
       = replay_from pageNumber (S i) rest s.
Proof.
  intros. repeat split.
Qed.

End TransformFacts.

(** ** Font statistics *)

Module FontStatsFacts.
Import Str Transform Text JSObject FontStats.
Local Open Scope Z_scope.

Lemma keys_set (k : Z) (v : nat) (o : Obj) :
  map fst (set k v o) = addKey (map fst o) k.
Proof.
  unfold addKey. induction o as [|[k' v'] r IH]; simpl; [reflexivity|].
  rewrite (Z.eqb_sym k k'). destruct (k' =? k) eqn:E; simpl.
  - apply Z.eqb_eq in E. now subst.
  - rewrite IH. now destruct (existsb (Z.eqb k) (map fst r)).
Qed.

Lemma get_set (k k' : Z) (v : nat) (o : Obj) :
  get k' (set k v o) = if k =? k' then Some v else get k' o.
Proof.
  induction o as [|[k0 v0] r IH]; simpl.
  - now rewrite (Z.eqb_sym k k').
  - destruct (k0 =? k) eqn:E; simpl.
    + apply Z.eqb_eq in E. subst k0. now destruct (k =? k').
    + rewrite IH. destruct (k =? k') eqn:E'; [|reflexivity].
      apply Z.eqb_eq in E'. subst k'. now rewrite E.
Qed.

(** The keys of [fontSizes] are created in the order in which the
    sizes first appear, and each bucket holds the count of its size. *)
Lemma fontSizes_keys_from (items : list TextItem) : forall o,
  map fst (fold_left addItem items o)
  = fold_left addKey (map sizeOf items) (map fst o).
Proof.
  induction items as [|item rest IH]; intros o; simpl; [reflexivity|].
  rewrite IH. f_equal. unfold addItem, sizeOf. apply keys_set.
Qed.

Lemma fontSizes_count_from (k : Z) (items : list TextItem) : forall o,
  getOr0 k (fold_left addItem items o) = (getOr0 k o + countAt k items)%nat.
Proof.
  induction items as [|item rest IH]; intros o; simpl; [lia|].
  rewrite IH. unfold addItem at 1, getOr0 at 1. rewrite get_set.
  fold (sizeOf item). destruct (sizeOf item =? k) eqn:E.
  - apply Z.eqb_eq in E. subst k. lia.
  - fold (getOr0 k o). lia.
Qed.

Lemma fontSizes_count (k : Z) (items : list TextItem) :
  getOr0 k (fontSizes items) = countAt k items.
Proof. unfold fontSizes. now rewrite fontSizes_count_from. Qed.

Lemma ownKeys_fontSizes (items : list TextItem) :
  ownKeys (fontSizes items) = visitOrder items.
Proof.
  unfold ownKeys, visitOrder, fontSizes, firstSeen.
  now rewrite fontSizes_keys_from.
Qed.

(** The selection loop. *)
Section Pick.
Variable o : Obj.

Lemma pick_take (st : Z * nat) (k : Z) :
  (snd st < getOr0 k o)%nat -> pick o st k = (k, getOr0 k o).
Proof.
  intros H. unfold pick.
  destruct (Nat.ltb_spec (snd st) (getOr0 k o)); [reflexivity | lia].
Qed.

Lemma pick_skip (st : Z * nat) (k : Z) :
  (getOr0 k o <= snd st)%nat -> pick o st k = st.
Proof.
  intros H. unfold pick.
  destruct (Nat.ltb_spec (snd st) (getOr0 k o)); [lia | reflexivity].
Qed.

Lemma pick_none (l : list Z) : forall st,
  (forall k, In k l -> (getOr0 k o <= snd st)%nat) ->
  fold_left (pick o) l st = st.
Proof.
  induction l as [|k r IH]; intros st H; simpl; [reflexivity|].
  rewrite pick_skip by (apply H; now left). apply IH. intros k' Hk'. apply H. now right.
Qed.

Lemma pick_below (bound : nat) (l : list Z) : forall st,
  (snd st < bound)%nat ->
  (forall k, In k l -> (getOr0 k o < bound)%nat) ->
  (snd (fold_left (pick o) l st) < bound)%nat.
Proof.
  induction l as [|k r IH]; intros st Hst H; simpl; [exact Hst|].
  apply IH.
  - destruct (Nat.lt_ge_cases (snd st) (getOr0 k o)) as [L|L].
    + rewrite pick_take by exact L. simpl. apply H. now left.
    + rewrite pick_skip by exact L. exact Hst.
  - intros k' Hk'. apply H. now right.
Qed.

(** The loop returns the first key, in the order of the visit, whose
    count is the largest. *)
Lemma pick_first_max (l1 l2 : list Z) (k : Z) (st : Z * nat) :
  (snd st < getOr0 k o)%nat ->
  (forall k', In k' l1 -> (getOr0 k' o < getOr0 k o)%nat) ->
  (forall k', In k' l2 -> (getOr0 k' o <= getOr0 k o)%nat) ->
  fold_left (pick o) (l1 ++ k :: l2) st = (k, getOr0 k o).
Proof.
  intros Hst H1 H2. rewrite fold_left_app. simpl.
  pose proof (pick_below (getOr0 k o) l1 st Hst H1) as Hb.
  rewrite pick_take by exact Hb. apply pick_none. exact H2.
Qed.

End Pick.

Lemma baseFontSize_none (items : list TextItem) :
  (forall k, countAt k items = 0%nat) -> baseFontSizeZ items = 10.
Proof.
  intros H. unfold baseFontSizeZ. rewrite pick_none; [reflexivity|].
  intros k _. rewrite fontSizes_count, H. simpl. lia.
Qed.

Lemma baseFontSize_first_max (items : list TextItem) (l1 l2 : list Z) (k : Z) :
  visitOrder items = l1 ++ k :: l2 ->
  (0 < countAt k items)%nat ->
  (forall k', In k' l1 -> (countAt k' items < countAt k items)%nat) ->
  (forall k', In k' l2 -> (countAt k' items <= countAt k items)%nat) ->
  baseFontSizeZ items = if k =? 0 then 10 else k.
Proof.
  intros Ho Hk H1 H2. unfold baseFontSizeZ.
  rewrite ownKeys_fontSizes, Ho, pick_first_max; [reflexivity| | |].
  - simpl. now rewrite fontSizes_count.
  - intros k' Hk'. rewrite !fontSizes_count. now apply H1.
  - intros k' Hk'. rewrite !fontSizes_count. now apply H2.
Qed.

(** The order of the visit lists exactly the sizes that occur. *)
Lemma addKey_In (k k' : Z) (seen : list Z) :
  In k' (addKey seen k) <-> In k' seen \/ k' = k.
Proof.
  unfold addKey. destruct (existsb (Z.eqb k) seen) eqn:E.
  - split; [now left|]. intros [H| ->]; [exact H|].
    apply existsb_exists in E. destruct E as (x & Hx & Ex).
    apply Z.eqb_eq in Ex. now subst.
  - rewrite in_app_iff. simpl. intuition.
Qed.

Lemma firstSeen_In_from (k : Z) (l : list Z) : forall seen,
  In k (fold_left addKey l seen) <-> In k seen \/ In k l.
Proof.
  induction l as [|a l IH]; intros seen; simpl.
  - intuition.
  - rewrite IH, addKey_In. intuition.
Qed.

Lemma firstSeen_In (k : Z) (l : list Z) : In k (firstSeen l) <-> In k l.
Proof. unfold firstSeen. rewrite firstSeen_In_from. simpl. intuition. Qed.

Lemma insertAsc_perm (k : Z) (l : list Z) : Permutation (k :: l) (insertAsc k l).
Proof.
  induction l as [|a l IH]; simpl.
  - apply Permutation_refl.
  - destruct (k <=? a).
    + apply Permutation_refl.
    + eapply perm_trans; [apply perm_swap | now apply perm_skip].
Qed.

Lemma sortAsc_perm (l : list Z) : Permutation l (sortAsc l).
Proof.
  induction l as [|a l IH]; simpl.
  - constructor.
  - eapply perm_trans; [apply perm_skip, IH | apply insertAsc_perm].
Qed.

Lemma insertAsc_sorted (k : Z) (l : list Z) :
  StronglySorted Z.le l -> StronglySorted Z.le (insertAsc k l).
Proof.
  induction 1 as [|a l Hl IH Ha]; simpl.
  - repeat constructor.
  - destruct (Z.leb_spec k a).
    + constructor; [now constructor|]. constructor; [exact H|].
      eapply Forall_impl; [|exact Ha]. intros c Hc. simpl in Hc. lia.
    + constructor; [exact IH|].
      eapply Permutation_Forall; [apply insertAsc_perm|].
      constructor; [lia | exact Ha].
Qed.

Lemma sortAsc_sorted (l : list Z) : StronglySorted Z.le (sortAsc l).
Proof.
  induction l as [|a l IH]; simpl; [constructor | now apply insertAsc_sorted].
Qed.

Lemma sorted_before (s1 s2 : list Z) (k : Z) :
  StronglySorted Z.le (s1 ++ k :: s2) -> forall k', In k' s1 -> k' <= k.
Proof.
  induction s1 as [|a s1 IH]; simpl; intros H k' Hk'; [contradiction|].
  inversion H as [|? ? Hs Ha]; subst. destruct Hk' as [<-|Hk'].
  - rewrite Forall_forall in Ha. apply Ha. apply in_or_app. right. now left.
  - now apply IH.
Qed.

Lemma in_split_first (k : Z) (l : list Z) :
  In k l -> exists l1 l2, l = l1 ++ k :: l2 /\ ~ In k l1.
Proof.
  induction l as [|a l IH]; intros H; [contradiction|].
  destruct (Z.eq_dec a k) as [->|Hne].
  - exists [], l. split; [reflexivity | intros []].
  - destruct H as [H|H]; [contradiction|].
    destruct (IH H) as (l1 & l2 & -> & Hn).
    exists (a :: l1), l2. split; [reflexivity|].
    intros [E|E]; [contradiction | now apply Hn].
Qed.

Lemma visitOrder_In (items : list TextItem) (k : Z) :
  In k (visitOrder items) <-> In k (map sizeOf items).
Proof.
  unfold visitOrder. rewrite in_app_iff.
  rewrite <- (firstSeen_In k (map sizeOf items)).
  set (ks := firstSeen (map sizeOf items)).
  split.
  - intros [H|H].
    + apply Permutation_in with (l' := filter isArrayIndex ks) in H;
        [|apply Permutation_sym, sortAsc_perm].
      now apply filter_In in H.
    + now apply filter_In in H.
  - intros H. destruct (isArrayIndex k) eqn:E.
    + left. apply Permutation_in with (l := filter isArrayIndex ks);
        [apply sortAsc_perm|]. apply filter_In. now split.
    + right. apply filter_In. split; [exact H|]. now rewrite E.
Qed.

Lemma countAt_positive (items : list TextItem) (k : Z) :
  (0 < countAt k items)%nat -> In k (map sizeOf items).
Proof.
  induction items as [|item rest IH]; simpl; [lia|].
  destruct (sizeOf item =? k) eqn:E.
  - intros _. left. now apply Z.eqb_eq.
  - intros H. right. apply IH. lia.
Qed.

(** Among the array-index sizes the smallest of those with the largest
    count is visited first, also before every other size. *)
Lemma baseFontSize_smallest_index (items : list TextItem) (k : Z) :
  isArrayIndex k = true ->
  (0 < countAt k items)%nat ->
  (forall k', (countAt k' items <= countAt k items)%nat) ->
  (forall k', countAt k' items = countAt k items ->
              isArrayIndex k' = true -> k <= k') ->
  baseFontSizeZ items = if k =? 0 then 10 else k.
Proof.
  intros Hidx Hpos Hmax Hmin.
  set (ks := firstSeen (map sizeOf items)).
  assert (Hin : In k (sortAsc (filter isArrayIndex ks))).
  { apply Permutation_in with (l := filter isArrayIndex ks);
      [apply sortAsc_perm|]. apply filter_In. split; [|exact Hidx].
    apply firstSeen_In. now apply countAt_positive. }
  destruct (in_split_first k _ Hin) as (s1 & s2 & Es & Hs1).
  apply (baseFontSize_first_max items s1
           (s2 ++ filter (fun k => negb (isArrayIndex k)) ks) k).
  - unfold visitOrder. fold ks. rewrite Es. now rewrite <- app_assoc.
  - exact Hpos.
  - intros k' Hk'.
    pose proof (sortAsc_sorted (filter isArrayIndex ks)) as Hsorted.
    rewrite Es in Hsorted.
    pose proof (sorted_before s1 s2 k Hsorted k' Hk') as Hle.
    assert (Hidx' : isArrayIndex k' = true).
    { assert (Hk'' : In k' (sortAsc (filter isArrayIndex ks))).
      { rewrite Es. apply in_or_app. now left. }
      apply Permutation_in with (l' := filter isArrayIndex ks) in Hk'';
        [|apply Permutation_sym, sortAsc_perm].
      now apply filter_In in Hk''. }
    destruct (Nat.eq_dec (countAt k' items) (countAt k items)) as [E|E].
    + specialize (Hmin k' E Hidx'). assert (k' = k) by lia. subst k'.
      contradiction.
    + specialize (Hmax k'). lia.
  - intros k' _. apply Hmax.
Qed.

(** Unless every count is zero there is a first largest bucket in the
    order of the visit. *)
Lemma first_max_exists (cnt : Z -> nat) (l : list Z) :
  Forall (fun k => cnt k = 0%nat) l
  \/ exists l1 k l2,
       l = l1 ++ k :: l2 /\ (0 < cnt k)%nat
       /\ (forall k', In k' l1 -> (cnt k' < cnt k)%nat)
       /\ (forall k', In k' l2 -> (cnt k' <= cnt k)%nat).
Proof.
  induction l as [|a r IH].
  - left. constructor.
  - destruct IH as [Hz|(l1 & k & l2 & -> & Hpos & H1 & H2)].
    + destruct (Nat.eq_dec (cnt a) 0) as [Ea|Ea].
      * left. now constructor.
      * right. exists [], a, r. split; [reflexivity|]. split; [lia|].
        split; [intros k' []|]. intros k' Hk'.
        rewrite Forall_forall in Hz. rewrite (Hz k' Hk'). lia.
    + right. destruct (Nat.lt_ge_cases (cnt a) (cnt k)) as [L|L].
      * exists (a :: l1), k, l2. split; [reflexivity|]. split; [exact Hpos|].
        split; [|exact H2]. intros k' [<-|Hk']; [exact L | now apply H1].
      * exists [], a, (l1 ++ k :: l2). split; [reflexivity|]. split; [lia|].
        split; [intros k' []|]. intros k' Hk'. apply in_app_or in Hk'.
        destruct Hk' as [Hk'|[<-|Hk']].
        -- specialize (H1 k' Hk'). lia.
        -- exact L.
        -- specialize (H2 k' Hk'). lia.
Qed.

(** C3 (amended).  The base font size is the bucket with the largest
    count of characters, a bucket being the rounded
    [height || transform[3] || 10] of a run; among buckets of equal
    count it is the one visited first, and the visit takes the sizes
    that are array indices (0 to 2^32 - 2) in ascending order before
    the other sizes in the order of their first appearance, so that of
    two tied array-index sizes the smaller one is chosen.  The result
    is 10 when no bucket has a positive count, in particular on a page
    without runs, and when the chosen bucket is 0. *)
Theorem C3_base_font_size :
  forall items,
    let count k := countAt k items in
    baseFontSizeZ [] = 10
    /\ ((forall k, count k = 0%nat) -> baseFontSizeZ items = 10)
    /\ (forall l1 k l2,
          visitOrder items = l1 ++ k :: l2 ->
          (0 < count k)%nat ->
          (forall k', In k' l1 -> (count k' < count k)%nat) ->
          (forall k', In k' l2 -> (count k' <= count k)%nat) ->
          baseFontSizeZ items = if k =? 0 then 10 else k)
    /\ ((exists k, (0 < count k)%nat) ->
          exists l1 k l2,
            visitOrder items = l1 ++ k :: l2
            /\ (0 < count k)%nat
            /\ (forall k', (count k' <= count k)%nat)
            /\ (forall k', In k' l1 -> (count k' < count k)%nat))
    /\ (forall k,
          isArrayIndex k = true ->
          (0 < count k)%nat ->
          (forall k', (count k' <= count k)%nat) ->
          (forall k', count k' = count k -> isArrayIndex k' = true -> k <= k') ->
          baseFontSizeZ items = if k =? 0 then 10 else k).
Proof.
  intros items count. subst count. cbv beta.
  split; [reflexivity|]. split; [apply baseFontSize_none|].
  split; [intros l1 k l2; apply baseFontSize_first_max|].
  split; [|apply baseFontSize_smallest_index].
  intros (k0 & Hk0).
  destruct (first_max_exists (fun k => countAt k items) (visitOrder items))
    as [Hz|(l1 & k & l2 & E & Hpos & H1 & H2)].
  - exfalso. rewrite Forall_forall in Hz.
    rewrite (Hz k0) in Hk0; [lia|].
    now apply visitOrder_In, countAt_positive.
  - exists l1, k, l2. repeat split; try assumption.
    intros k'. destruct (Nat.eq_dec (countAt k' items) 0) as [Z0|Z0]; [lia|].
    assert (Hin : In k' (visitOrder items)).
    { apply visitOrder_In, countAt_positive. lia. }
    rewrite E in Hin. apply in_app_or in Hin.
    destruct Hin as [Hin|[<-|Hin]].
    + specialize (H1 k' Hin). lia.
    + lia.
    + now apply H2.
Qed.

(** The theorem on the page of the runs "ab" of size 12 and "cd" of
    size 10, and on the page without runs. *)
Lemma C3_base_font_size_witness :
  let run s size := mkTextItem (lit s) (mkMatrix size 0 0 size 72 400)
                      (Some size) (Some 30%Q) in
  baseFontSizeZ [] = 10
  /\ baseFontSizeZ [run "ab"%string 12%Q; run "cd"%string 10%Q] = 10.
Proof.
  split.
  - apply (proj1 (proj2 (C3_base_font_size []))). reflexivity.
  - apply (proj1 (proj2 (proj2 (C3_base_font_size
             [mkTextItem (lit "ab"%string) (mkMatrix 12 0 0 12 72 400)
                (Some 12%Q) (Some 30%Q);
              mkTextItem (lit "cd"%string) (mkMatrix 10 0 0 10 72 400)
                (Some 10%Q) (Some 30%Q)]))) [] 10 [12]).
    + reflexivity.
    + vm_compute. lia.
    + intros k' [].
    + intros k' [<-|[]]. vm_compute. lia.
Defined.

(** The claim as worded fails on the runs "ab" of size 12 and "cd" of
    size 10: both buckets count two characters, 12 is seen first, and
    the base font size is 10. *)
Lemma C3_tie_not_first_seen :
  let run s size := mkTextItem (lit s) (mkMatrix size 0 0 size 72 400)
                      (Some size) (Some 30%Q) in
  let items := [run "ab"%string 12%Q; run "cd"%string 10%Q] in
  map sizeOf items = [12; 10]
  /\ countAt 12 items = 2%nat
  /\ countAt 10 items = 2%nat
  /\ (forall k, (countAt k items <= 2)%nat)
  /\ baseFontSizeZ items = 10
  /\ baseFontSizeZ items <> 12.
Proof.
  cbv zeta. repeat split; try reflexivity.
  - intros k. unfold countAt.
    change (sizeOf _) with 12 at 1. change (sizeOf _) with 10 at 1.
    destruct (Z.eqb_spec 12 k); destruct (Z.eqb_spec 10 k); simpl; lia.
  - discriminate.
Qed.

End FontStatsFacts.

(** ** Sorting *)

Module SortFacts.
Import Page.

Section Sorting.
Context {A : Type} (before : A -> A -> bool).

Lemma insertSorted_perm (x : A) (l : list A) :
  Permutation (x :: l) (insertSorted before x l).
Proof.
  induction l as [|e r IH]; simpl.
  - apply Permutation_refl.
  - destruct (before x e).
    + apply Permutation_refl.
    + eapply perm_trans; [apply perm_swap|]. now apply perm_skip.
Qed.

Lemma sort_perm (l : list A) : Permutation l (sort before l).
Proof.
  induction l as [|x l IH]; simpl.
  - constructor.
  - eapply perm_trans; [apply perm_skip, IH|]. apply insertSorted_perm.
Qed.

Lemma sort_In (l : list A) (x : A) : In x (sort before l) <-> In x l.
Proof.
  split; intro H.
  - eapply Permutation_in; [apply Permutation_sym, sort_perm | exact H].
  - eapply Permutation_in; [apply sort_perm | exact H].
Qed.

Lemma sort_not_nil (l : list A) : l <> [] -> sort before l <> [].
Proof.
  intros Hl Hs. pose proof (sort_perm l) as P. rewrite Hs in P.
  apply Permutation_sym, Permutation_nil in P. contradiction.
Qed.

(** With a total and transitive order the result is ordered. *)
Variable R : A -> A -> Prop.
Hypothesis before_R : forall a b, before a b = true -> R a b.
Hypothesis not_before_R : forall a b, before a b = false -> R b a.
Hypothesis R_trans : forall a b c, R a b -> R b c -> R a c.

Lemma insertSorted_sorted (x : A) (l : list A) :
  StronglySorted R l -> StronglySorted R (insertSorted before x l).
Proof.
  induction 1 as [|e r Hr IH He]; simpl.
  - repeat constructor.
  - destruct (before x e) eqn:E.
    + constructor; [now constructor|].
      apply before_R in E. constructor; [exact E|].
      eapply Forall_impl; [|exact He]. intros c Hc. now apply R_trans with e.
    + constructor; [exact IH|].
      apply not_before_R in E.
      eapply Permutation_Forall; [apply insertSorted_perm|].
      now constructor.
Qed.

Lemma sort_sorted (l : list A) : StronglySorted R (sort before l).
Proof.
  induction l as [|x l IH]; simpl.
  - constructor.
  - now apply insertSorted_sorted.
Qed.

End Sorting.

End SortFacts.

(** ** Heading classification *)

Module ClassifierFacts.
Import Str Transform Text Page JSFacts RoundingFacts SortFacts.

Lemma fold_max_ge (f : TextItem -> Q) (l : list TextItem) : forall m0,
  let m := fold_left (fun m j => JS.max2 m (f j)) l m0 in
  m0 <= m /\ forall j, In j l -> f j <= m.
Proof.
  induction l as [|i r IH]; intros m0; simpl.
  - split; [apply Qle_refl | intros j []].
  - destruct (IH (JS.max2 m0 (f i))) as [H0 Hr]. split.
    + eapply Qle_trans; [apply max2_ub_l | exact H0].
    + intros j [<-|Hj].
      * eapply Qle_trans; [apply max2_ub_r | exact H0].
      * now apply Hr.
Qed.

Lemma fold_max_attained (f : TextItem -> Q) (l : list TextItem) : forall m0,
  let m := fold_left (fun m j => JS.max2 m (f j)) l m0 in
  m = m0 \/ exists j, In j l /\ m = f j.
Proof.
  induction l as [|i r IH]; intros m0; simpl.
  - now left.
  - destruct (IH (JS.max2 m0 (f i))) as [E|(j & Hj & E)].
    + rewrite E. unfold JS.max2. destruct (JS.le m0 (f i)).
      * right. exists i. split; [now left | reflexivity].
      * now left.
    + right. exists j. split; [now right | exact E].
Qed.

(** [maxLineFontSize] is the largest [height || transform[3] || 0] of
    the items. *)
Lemma maxLineFontSize_is_max (i : TextItem) (rest : list TextItem) :
  exists m, maxLineFontSize (i :: rest) = Some m
    /\ (exists j, In j (i :: rest) /\ m = heightOr j 0)
    /\ (forall j, In j (i :: rest) -> heightOr j 0 <= m).
Proof.
  simpl. eexists. split; [reflexivity|]. split.
  - destruct (fold_max_attained (fun j => heightOr j 0) rest (heightOr i 0))
      as [E|(j & Hj & E)].
    + exists i. split; [now left | exact E].
    + exists j. split; [now right | exact E].
  - destruct (fold_max_ge (fun j => heightOr j 0) rest (heightOr i 0)) as [H0 Hr].
    intros j [<-|Hj]; [exact H0 | now apply Hr].
Qed.

(** The three bounds of the heading test are ordered as their
    factors are. *)
Lemma heading_bounds (b : Q) :
  let b18 := JS.mul b (JS.num (18 # 10)) in
  let b14 := JS.mul b (JS.num (14 # 10)) in
  let b115 := JS.mul b (JS.num (115 # 100)) in
  (0 <= b -> b115 <= b14 /\ b14 <= b18)
  /\ (b <= 0 -> b18 <= b14 /\ b14 <= b115).
Proof.
  assert (F1 : JS.num (115 # 100) <= JS.num (14 # 10))
    by (apply fl_mono; lra).
  assert (F2 : JS.num (14 # 10) <= JS.num (18 # 10))
    by (apply fl_mono; lra).
  cbv zeta. unfold JS.mul.
  split; intros H; split; apply fl_mono; nra.
Qed.

Lemma headingPrefix_cases (m b : Q) :
  let far := 1 < Qabs (JS.sub m b) in
  let b18 := JS.mul b (JS.num (18 # 10)) in
  let b14 := JS.mul b (JS.num (14 # 10)) in
  let b115 := JS.mul b (JS.num (115 # 100)) in
  (far /\ b18 <= m /\ headingPrefix m b = lit "# "%string)
  \/ (far /\ m < b18 /\ b14 <= m /\ headingPrefix m b = lit "## "%string)
  \/ (far /\ m < b18 /\ m < b14 /\ b115 <= m
      /\ headingPrefix m b = lit "### "%string)
  \/ ((Qabs (JS.sub m b) <= 1 \/ (m < b18 /\ m < b14 /\ m < b115))
      /\ headingPrefix m b = []).
Proof.
  cbv zeta. unfold headingPrefix.
  destruct (JS.gt (JS.abs (JS.sub m b)) 1) eqn:G.
  - apply gt_spec in G. rewrite abs_Qabs in G.
    destruct (JS.ge m (JS.mul b (JS.num (18 # 10)))) eqn:G1.
    { apply ge_spec in G1. left. auto. }
    unfold JS.ge in G1. apply le_false in G1.
    destruct (JS.ge m (JS.mul b (JS.num (14 # 10)))) eqn:G2.
    { apply ge_spec in G2. right; left. auto. }
    unfold JS.ge in G2. apply le_false in G2.
    destruct (JS.ge m (JS.mul b (JS.num (115 # 100)))) eqn:G3.
    { apply ge_spec in G3. right; right; left. auto. }
    unfold JS.ge in G3. apply le_false in G3.
    right; right; right. auto.
  - unfold JS.gt in G. apply lt_false in G. rewrite abs_Qabs in G.
    right; right; right. auto.
Qed.

Local Ltac heading_case :=
  repeat split; intros;
  repeat match goal with
         | H : _ /\ _ |- _ => destruct H
         | H : _ \/ _ |- _ => destruct H
         | |- ~ _ => intro
         end;
  try reflexivity;
  try match goal with
      | H : @eq jsstring _ _ |- _ => vm_compute in H; discriminate H
      end;
  try lra;
  try (exfalso;
       match goal with
       | H : ~ _ |- _ => apply H; solve [repeat split; (assumption || lra)]
       end).

(** C5 (amended).  The prefix of a text line is decided by its largest
    run font size [m] against the base size [b]: level 1 iff
    [m >= b * 1.8], level 2 iff [b * 1.4 <= m < b * 1.8], level 3 iff
    [b * 1.15 <= m < b * 1.4], each only when [|m - b| > 1], and no
    prefix in every other case, where the three products and the
    difference are the double precision results that the source
    computes; [m] is the largest [height || transform[3] || 0] of the
    line's runs.  A run of size 24 on a base of 12 gives ["# "], one of
    size 15 gives ["### "]; and a run of size 25.2 on a base of 14
    gives ["# "], since [14 * 1.8] is the double 25.2. *)
Theorem C5_heading_levels :
  (forall m b,
     let far := 1 < Qabs (JS.sub m b) in
     let b18 := JS.mul b (JS.num (18 # 10)) in
     let b14 := JS.mul b (JS.num (14 # 10)) in
     let b115 := JS.mul b (JS.num (115 # 100)) in
     let level1 := far /\ b18 <= m in
     let level2 := far /\ b14 <= m /\ m < b18 in
     let level3 := far /\ b115 <= m /\ m < b14 in
     (headingPrefix m b = lit "# "%string <-> level1)
     /\ (headingPrefix m b = lit "## "%string <-> level2)
     /\ (headingPrefix m b = lit "### "%string <-> level3)
     /\ (headingPrefix m b = [] <-> ~ level1 /\ ~ level2 /\ ~ level3))
  /\ (forall b y i rest,
        exists text m lineWidth,
          processLine b (TextLine y (i :: rest))
          = PText text (headingPrefix m b) lineWidth
          /\ (exists j, In j (i :: rest) /\ m = heightOr j 0)
          /\ (forall j, In j (i :: rest) -> heightOr j 0 <= m))
  /\ (forall y str x w,
        let run size := mkTextItem str (mkMatrix size 0 0 size x y) (Some size) w in
        (exists text lineWidth,
            processLine 12 (TextLine y [run 24])
            = PText text (lit "# "%string) lineWidth)
        /\ (exists text lineWidth,
              processLine 12 (TextLine y [run 15])
              = PText text (lit "### "%string) lineWidth)
        /\ (exists text lineWidth,
              processLine 14 (TextLine y [run (JS.num (252 # 10))])
              = PText text (lit "# "%string) lineWidth)).
Proof.
  split; [|split].
  - intros m b far b18 b14 b115 level1 level2 level3.
    subst level1 level2 level3.
    destruct (heading_bounds b) as [Hpos Hneg]. cbv zeta in Hpos, Hneg.
    fold b18 in Hpos, Hneg. fold b14 in Hpos, Hneg. fold b115 in Hpos, Hneg.
    pose proof (headingPrefix_cases m b) as C. cbv zeta in C.
    fold b18 in C. fold b14 in C. fold b115 in C. subst far.
    set (d := Qabs (JS.sub m b)) in *. clearbody b18 b14 b115 d.
    destruct (Qlt_le_dec b 0) as [Hb|Hb];
      [destruct Hneg as [O1 O2]; [lra|] | destruct Hpos as [O1 O2]; [lra|]];
      destruct C as [(G & A & E)|[(G & A & B & E)|[(G & A & B & C & E)|(N & E)]]];
      rewrite E; clear E; heading_case.
  - intros b y i rest.
    destruct (sortItems (i :: rest)) as [|i' rest'] eqn:Es.
    { exfalso. revert Es. apply (sort_not_nil _ (i :: rest)). discriminate. }
    destruct (maxLineFontSize_is_max i' rest') as (m & Em & (j & Hj & Ej) & Hmax).
    do 3 eexists. split; [|split].
    + unfold processLine. rewrite Es, Em. reflexivity.
    + exists j. split; [|exact Ej].
      rewrite <- Es in Hj. now apply sort_In in Hj.
    + intros k Hk. apply Hmax. rewrite <- Es. now apply sort_In.
  - intros y str x w run.
    assert (E1 : headingPrefix 24 12 = lit "# "%string)
      by (vm_compute; reflexivity).
    assert (E2 : headingPrefix 15 12 = lit "### "%string)
      by (vm_compute; reflexivity).
    assert (E3 : headingPrefix (JS.num (252 # 10)) 14 = lit "# "%string)
      by (vm_compute; reflexivity).
    split; [|split]; do 2 eexists; unfold processLine, run;
      cbn [sortItems sort fold_right insertSorted maxLineFontSize fold_left
           heightOr height transform ix3];
      [rewrite <- E1 | rewrite <- E2 | rewrite <- E3]; reflexivity.
Qed.

(** The claim as worded, with the exact products, fails next to a
    bound: a run of size 13.799999999999999, which is the double
    [12 * 1.15], on a base of 12 is below [1.15 * 12 = 13.8] and gets
    the prefix of level 3. *)
Lemma C5_exact_bound_differs :
  ~ (forall m b,
       headingPrefix m b = lit "### "%string
       <-> 1 < Qabs (m - b) /\ b * (115 # 100) <= m /\ m < b * (14 # 10)).
Proof.
  intros H.
  destruct (H (JS.mul 12 (JS.num (115 # 100))) 12) as [H1 _].
  destruct (H1 eq_refl) as (_ & L & _).
  vm_compute in L. now apply L.
Qed.

End ClassifierFacts.

(** ** Strings and patterns *)

Module PatternFacts.
Import Str Patterns.

(** An unanchored pattern that cannot start on white space still
    matches after [trimStart]. *)
Lemma anywhere_trimStart (f : jsstring -> bool) :
  (forall c r, f (c :: r) = true -> isWhiteSpace c = false) ->
  forall s, anywhere f s = true -> anywhere f (trimStart s) = true.
Proof.
  intros Hf. induction s as [|c r IH]; intros H.
  - exact H.
  - unfold trimStart in *. simpl dropWhile.
    destruct (isWhiteSpace c) eqn:W; [|exact H].
    apply IH. simpl in H. apply orb_true_iff in H. destruct H as [H|H].
    + apply Hf in H. congruence.
    + exact H.
Qed.

Lemma anywhere_drop_last (f : jsstring -> bool) (c : Z) :
  (forall t, f (t ++ [c]) = true -> f t = true) ->
  forall s, anywhere f (s ++ [c]) = true -> anywhere f s = true.
Proof.
  intros Hf. induction s as [|d s IH]; intros H.
  - simpl in *. rewrite !orb_false_r in *.
    apply orb_true_iff in H. destruct H as [H|H]; [|exact H].
    now apply (Hf []).
  - simpl in *. apply orb_true_iff in H. apply orb_true_iff.
    destruct H as [H|H].
    + left. now apply (Hf (d :: s)).
    + right. now apply IH.
Qed.

(** An unanchored pattern whose match cannot end on white space still
    matches after [trimEnd]. *)
Lemma anywhere_trimEnd (f : jsstring -> bool) :
  (forall c t, isWhiteSpace c = true -> f (t ++ [c]) = true -> f t = true) ->
  forall s, anywhere f s = true -> anywhere f (trimEnd s) = true.
Proof.
  intros Hf s. unfold trimEnd, trimStart.
  rewrite <- (rev_involutive s) at 1.
  induction (rev s) as [|c r IH]; intros H.
  - exact H.
  - simpl dropWhile. destruct (isWhiteSpace c) eqn:W; [|exact H].
    apply IH. simpl rev in H.
    apply (anywhere_drop_last f c); [intro t; now apply Hf | exact H].
Qed.

(** A literal none of whose characters matches white space: a match at
    the start of [t ++ [c]] with [c] white space is a match in [t]. *)
Lemma isPrefix_drop_last (eq : Z -> Z -> bool) (c : Z) (pat : jsstring) :
  Forall (fun p => eq p c = false) pat ->
  forall t, isPrefix eq pat (t ++ [c]) = true -> isPrefix eq pat t = true.
Proof.
  unfold isPrefix. induction 1 as [|p pat Hp _ IH]; intros t H.
  - destruct t; reflexivity.
  - destruct t as [|d t]; simpl in *.
    + now rewrite Hp in H.
    + destruct (eq p d); [now apply IH | discriminate].
Qed.

Local Open Scope Z_scope.

(** Under the [i] flag a pattern character matches itself and, for a
    letter, its other case. *)
Lemma ci_eq_cases (p c : Z) :
  ci_eq p c = true -> c = p \/ c = p - 32 \/ c = p + 32.
Proof.
  unfold ci_eq. rewrite !orb_true_iff, !andb_true_iff, !Z.eqb_eq. tauto.
Qed.

Lemma about_blank_no_space (c : Z) :
  isWhiteSpace c = true ->
  Forall (fun p => ci_eq p c = false) (lit "about:blank"%string).
Proof.
  intros W.
  assert (H : Forall (fun p => isWhiteSpace p = false
                               /\ isWhiteSpace (p - 32) = false
                               /\ isWhiteSpace (p + 32) = false)
                (lit "about:blank"%string)).
  { repeat constructor. }
  eapply Forall_impl; [|exact H]. intros p (H0 & H1 & H2).
  destruct (ci_eq p c) eqn:E; [|reflexivity].
  apply ci_eq_cases in E. destruct E as [->|[->| ->]]; congruence.
Qed.

(** [/about:blank/i] matches the trimmed string whenever it matches the
    string. *)
Lemma re_about_blank_trim (s : jsstring) :
  re_about_blank s = true -> re_about_blank (trim s) = true.
Proof.
  unfold re_about_blank, trim. intros H.
  apply anywhere_trimEnd.
  - intros c t W. apply isPrefix_drop_last. now apply about_blank_no_space.
  - apply anywhere_trimStart; [|exact H].
    intros c r Hm. destruct (isWhiteSpace c) eqn:W; [|reflexivity].
    pose proof (about_blank_no_space c W) as F.
    unfold lit in F. simpl in F. apply Forall_inv in F.
    unfold isPrefix, lit in Hm. simpl in Hm.
    rewrite F in Hm. discriminate.
Qed.

Lemma matchesIgnore_about_blank (s : jsstring) :
  re_about_blank s = true -> matchesIgnore s = true.
Proof.
  intros H. unfold matchesIgnore, IGNORE_PATTERNS. simpl. now rewrite H.
Qed.

End PatternFacts.

(** ** The header and footer filter *)

Module FilterFacts.
Import Str Transform Text Patterns Page JSFacts PatternFacts.

(** The item ends up in one of the lines. *)
Lemma pushItem_In (y : Q) (item : TextItem) (lines : list Line) :
  exists ly its, In (TextLine ly its) (pushItem y item lines) /\ In item its.
Proof.
  induction lines as [|l rest (ly & its & Hl & Hi)]; simpl.
  - exists y, [item]. split; now left.
  - destruct l as [ly0 its0|ly0 imageId].
    + destruct (JS.lt (JS.abs (JS.sub ly0 y)) Y_TOLERANCE).
      * exists ly0, (its0 ++ [item]). split; [now left|].
        apply in_or_app. right. now left.
      * exists ly, its. split; [now right | exact Hi].
    + exists ly, its. split; [now right | exact Hi].
Qed.

Lemma isEdge_in_band (pageHeight y : Q) :
  (0 <= y /\ y < FOOTER_HEIGHT)
  \/ (JS.sub pageHeight HEADER_HEIGHT < y /\ y <= pageHeight) ->
  isEdge pageHeight y = true.
Proof.
  unfold isEdge. intros [[_ H]|[H _]]; apply orb_true_iff.
  - left. now apply lt_spec.
  - right. now apply gt_spec.
Qed.

Lemma isEdge_between (pageHeight y : Q) :
  FOOTER_HEIGHT <= y -> y <= JS.sub pageHeight HEADER_HEIGHT ->
  isEdge pageHeight y = false.
Proof.
  unfold isEdge. intros H1 H2. apply orb_false_iff. split.
  - now apply lt_false.
  - unfold JS.gt. now apply lt_false.
Qed.

(** The decision on a non-blank item at an edge. *)
Lemma dropped_at_edge (pageHeight baseFontSize : Q) (item : TextItem) :
  isBlank item = false ->
  isEdge pageHeight (itemY item) = true ->
  (dropped pageHeight baseFontSize item = true
   <-> matchesIgnore (trim (str item)) = true
       \/ heightOr item 10 < JS.mul baseFontSize (JS.num (9 # 10))).
Proof.
  intros Hb He. unfold dropped. rewrite Hb, He.
  destruct (matchesIgnore (trim (str item))) eqn:M.
  - split; auto.
  - destruct (JS.lt (heightOr item 10) (JS.mul baseFontSize (JS.num (9 # 10))))
      eqn:L.
    + apply lt_spec in L. split; auto.
    + apply lt_false in L. split.
      * intros B. apply re_about_blank_trim, matchesIgnore_about_blank in B.
        congruence.
      * intros [C|C]; [discriminate|]. exfalso. lra.
Qed.

(** C4 (amended).  A non-blank run whose visual top is in the footer
    band [[0, 70)] or in the header band [(pageHeight - 70, pageHeight]]
    is dropped iff its trimmed string matches one of the boilerplate
    patterns or its font size is below [baseFontSize * 0.9]; the visual
    top, the difference [pageHeight - 70] and the product are the
    double precision results that the source computes.  A run "Page 3"
    in the footer band, smaller than 90% of a base of 12, is dropped;
    the same string with [70 <= visual top <= pageHeight - 70] is kept
    and put unchanged on a line.  A run of size 12.6 in the footer band
    of a page of base 14 is not below the bound, [14 * 0.9] being the
    double 12.6, and is kept. *)
Theorem C4_edge_filter :
  (forall pageHeight baseFontSize item,
      isBlank item = false ->
      (0 <= itemY item /\ itemY item < 70)
      \/ (JS.sub pageHeight 70 < itemY item /\ itemY item <= pageHeight) ->
      (dropped pageHeight baseFontSize item = true
       <-> matchesIgnore (trim (str item)) = true
           \/ heightOr item 10 < JS.mul baseFontSize (JS.num (9 # 10))))
  /\ (forall pageHeight tr h w,
        let item := mkTextItem (lit "Page 3"%string) tr h w in
        0 <= itemY item /\ itemY item < 70 ->
        heightOr item 10 < JS.mul 12 (JS.num (9 # 10)) ->
        dropped pageHeight 12 item = true)
  /\ (forall pageHeight baseFontSize tr h w lines,
        let item := mkTextItem (lit "Page 3"%string) tr h w in
        70 <= itemY item /\ itemY item <= JS.sub pageHeight 70 ->
        dropped pageHeight baseFontSize item = false
        /\ exists ly its,
             In (TextLine ly its) (addText pageHeight baseFontSize lines item)
             /\ In item its)
  /\ (let size := JS.num (126 # 10) in
      let item := mkTextItem (lit "Notes"%string) (mkMatrix size 0 0 size 72 30)
                    (Some size) (Some 30) in
      itemY item < 70 /\ dropped 800 14 item = false).
Proof.
  split; [|split; [|split]].
  - intros pageHeight baseFontSize item Hb Hband.
    apply dropped_at_edge; [exact Hb|]. now apply isEdge_in_band.
  - intros pageHeight tr h w item Hband Hsmall.
    apply dropped_at_edge.
    + reflexivity.
    + apply isEdge_in_band. left. exact Hband.
    + right. exact Hsmall.
  - intros pageHeight baseFontSize tr h w lines item [H1 H2].
    assert (D : dropped pageHeight baseFontSize item = false).
    { unfold dropped. change (isBlank item) with false. cbv iota.
      rewrite (isEdge_between _ _ H1 H2). reflexivity. }
    split; [exact D|]. unfold addText. rewrite D. apply pushItem_In.
  - cbv zeta. split; vm_compute; reflexivity.
Qed.

(** The theorem at a page of height 800, base size 12: a run with a
    boilerplate string at visual top 37.2, "Page 3" of size 9 there,
    and "Page 3" at visual top 409.6. *)
Lemma C4_edge_filter_witness :
  let footer := mkTextItem (lit "Page 3"%string) (mkMatrix 9 0 0 9 72 30)
                  (Some 9) (Some 30) in
  let body := mkTextItem (lit "Page 3"%string) (mkMatrix 12 0 0 12 72 400)
                (Some 12) (Some 30) in
  (dropped 800 12 footer = true
   <-> matchesIgnore (trim (str footer)) = true
       \/ heightOr footer 10 < JS.mul 12 (JS.num (9 # 10)))
  /\ dropped 800 12 footer = true
  /\ dropped 800 12 body = false
  /\ exists ly its, In (TextLine ly its) (addText 800 12 [] body) /\ In body its.
Proof.
  destruct C4_edge_filter as (H1 & H2 & H3 & _).
  split; [|split].
  - apply (H1 800 12 (mkTextItem (lit "Page 3"%string) (mkMatrix 9 0 0 9 72 30)
                        (Some 9) (Some 30))).
    + reflexivity.
    + left. split; vm_compute; (reflexivity || discriminate).
  - apply (H2 800 (mkMatrix 9 0 0 9 72 30) (Some 9) (Some 30)).
    + split; vm_compute; (reflexivity || discriminate).
    + vm_compute. reflexivity.
  - apply (H3 800 12 (mkMatrix 12 0 0 12 72 400) (Some 12) (Some 30) []).
    split; vm_compute; (reflexivity || discriminate).
Defined.

(** The claim as worded fails below the page: "Page 3" with visual top
    -10.4 on a page of height 800 is in neither band and is dropped. *)
Lemma C4_dropped_outside_the_bands :
  ~ (forall pageHeight baseFontSize tr h w,
       let item := mkTextItem (lit "Page 3"%string) tr h w in
       ~ (0 <= itemY item /\ itemY item < 70) ->
       ~ (pageHeight - 70 < itemY item /\ itemY item <= pageHeight) ->
       dropped pageHeight baseFontSize item = false).
Proof.
  intros H.
  specialize (H 800 12 (mkMatrix 12 0 0 12 72 (-20)) (Some 12) (Some 30)).
  cbv zeta in H.
  assert (D : dropped 800 12
                (mkTextItem (lit "Page 3"%string) (mkMatrix 12 0 0 12 72 (-20))
                   (Some 12) (Some 30)) = true) by (vm_compute; reflexivity).
  rewrite H in D; [discriminate| |].
  - intros [A _]. vm_compute in A. now apply A.
  - intros [A _]. vm_compute in A. discriminate A.
Qed.

End FilterFacts.

(** ** Paragraph assembly *)

Module AssemblerFacts.
Import Str Transform Text Page JSFacts.

Lemma lastChar_snoc (s : jsstring) (c : Z) : Str.lastChar (s ++ [c]) = [c].
Proof. unfold Str.lastChar. now rewrite rev_unit. Qed.

(** The merge in terms of the two characters at the boundary. *)
Lemma mergeLine_boundary (cp0 : jsstring) (l f : Z) (t : jsstring) :
  mergeLine (cp0 ++ [l]) (f :: t)
  = if inCJKRange l && inCJKRange f then (cp0 ++ [l]) ++ f :: t
    else if ((l =? 0x20) || (f =? 0x20))%Z then (cp0 ++ [l]) ++ f :: t
    else (cp0 ++ [l]) ++ [0x20%Z] ++ f :: t.
Proof.
  unfold mergeLine. rewrite lastChar_snoc. simpl.
  now rewrite !orb_false_r, andb_true_r.
Qed.

Lemma snoc_not_empty (s : jsstring) (c : Z) : Str.eqb (s ++ [c]) [] = false.
Proof. destruct s; reflexivity. Qed.

(** C6 (amended).  On the merge path (no prefix, a non-empty
    paragraph, previous width not below 85% of the largest width) the
    line is appended with no separator when the last character of the
    paragraph and the first of the line are both in the CJK ranges;
    otherwise with one space between them, unless one of the two
    characters is the space U+0020.  The paragraph of the two CJK
    lines U+4F60 U+597D and U+4E16 U+754C is the four characters in a
    row, that of "hello" and "world" is "hello world". *)
Theorem C6_merge_rule :
  (forall processedLines maxLineWidth pageImages text0 cp0 l f t lineWidth index,
      JS.lt (prevWidth processedLines index) (maxLineWidth * (85 # 100)) = false ->
      emit processedLines maxLineWidth pageImages
        (mkOut text0 (cp0 ++ [l])) index (PText (f :: t) [] lineWidth)
      = mkOut text0
          (if inCJKRange l && inCJKRange f then (cp0 ++ [l]) ++ f :: t
           else if ((l =? 0x20) || (f =? 0x20))%Z then (cp0 ++ [l]) ++ f :: t
           else (cp0 ++ [l]) ++ [0x20%Z] ++ f :: t))
  /\ mergeLine [0x4F60; 0x597D]%Z [0x4E16; 0x754C]%Z
     = [0x4F60; 0x597D; 0x4E16; 0x754C]%Z
  /\ mergeLine (lit "hello"%string) (lit "world"%string)
     = lit "hello world"%string.
Proof.
  split; [|split; reflexivity].
  intros processedLines maxLineWidth pageImages text0 cp0 l f t lineWidth index Hw.
  unfold emit. cbn [Str.truthy currentParagraph pageText].
  rewrite snoc_not_empty, Hw. now rewrite mergeLine_boundary.
Qed.

(** The theorem on the second of two lines of width 100: "hello" and
    "world" become the paragraph "hello world". *)
Lemma C6_merge_rule_witness :
  let processedLines :=
    [PText (lit "hello"%string) [] 100; PText (lit "world"%string) [] 100] in
  emit processedLines 100 [] (mkOut [] (lit "hello"%string)) 1
    (PText (lit "world"%string) [] 100)
  = mkOut [] (lit "hello world"%string).
Proof.
  exact (proj1 C6_merge_rule
           [PText (lit "hello"%string) [] 100; PText (lit "world"%string) [] 100]
           100 [] [] (lit "hell"%string) 0x6F%Z 0x77%Z (lit "orld"%string)
           100 1%nat eq_refl).
Defined.

(** The claim as worded fails for white space other than U+0020: after
    a paragraph that ends with a tab a space is still inserted. *)
Lemma C6_space_inserted_after_tab :
  ~ (forall cp l text f,
       Str.lastChar cp = [l] -> Str.firstChar text = Some f ->
       isCJK [l] && isCJK [f] = false ->
       isWhiteSpace l = true \/ isWhiteSpace f = true ->
       mergeLine cp text = cp ++ text).
Proof.
  intros H.
  specialize (H [0x61; 0x09]%Z 0x09%Z [0x62]%Z 0x62%Z
                eq_refl eq_refl eq_refl (or_introl eq_refl)).
  discriminate H.
Qed.

End AssemblerFacts.

(** ** Trimming *)

Module StrFacts.
Import Str.

Lemma dropWhile_all (p : Z -> bool) (s : jsstring) :
  Forall (fun c => p c = true) s -> dropWhile p s = [].
Proof.
  induction 1 as [|c r Hc _ IH]; simpl; [reflexivity|]. now rewrite Hc.
Qed.

Lemma dropWhile_snoc (p : Z -> bool) (c : Z) (s : jsstring) :
  p c = false -> dropWhile p (s ++ [c]) <> [].
Proof.
  intros Hc. induction s as [|d s IH]; simpl.
  - rewrite Hc. discriminate.
  - destruct (p d); [exact IH | discriminate].
Qed.

Lemma trimStart_head (s : jsstring) :
  hasNonSpace s = true ->
  exists c r, trimStart s = c :: r /\ isWhiteSpace c = false.
Proof.
  unfold trimStart. induction s as [|d s IH]; simpl; [discriminate|].
  destruct (isWhiteSpace d) eqn:W; simpl.
  - exact IH.
  - intros _. now exists d, s.
Qed.

(** A string with a character that is not white space has a non-empty
    trim, and a string of white space an empty one. *)
Lemma trim_truthy (s : jsstring) :
  hasNonSpace s = true -> Str.truthy (trim s) = true.
Proof.
  intros H. destruct (trimStart_head s H) as (c & r & E & W).
  unfold trim, trimEnd. rewrite E. simpl rev. unfold trimStart.
  pose proof (dropWhile_snoc isWhiteSpace c (rev r) W) as N.
  destruct (dropWhile isWhiteSpace (rev r ++ [c])) as [|d t]; [contradiction|].
  simpl. now destruct (rev t).
Qed.

Lemma trim_whitespace (s : jsstring) :
  Forall (fun c => isWhiteSpace c = true) s -> trim s = [].
Proof.
  intros H. unfold trim, trimStart. now rewrite (dropWhile_all _ _ H).
Qed.

Lemma hasNonSpace_false (s : jsstring) :
  hasNonSpace s = false -> Forall (fun c => isWhiteSpace c = true) s.
Proof.
  induction s as [|c r IH]; simpl; intros H; constructor.
  - apply orb_false_iff in H. destruct H as [H _].
    now apply negb_false_iff in H.
  - apply IH. now apply orb_false_iff in H.
Qed.

Lemma hasNonSpace_app (a b : jsstring) :
  hasNonSpace (a ++ b) = hasNonSpace a || hasNonSpace b.
Proof. apply existsb_app. Qed.

Lemma join_single (sep p : jsstring) : join sep [p] = p.
Proof. reflexivity. Qed.

End StrFacts.

(** ** Pages *)

Module PageFacts.
Import Str Transform Text Page Document Describe.
Import JSFacts StrFacts SortFacts TransformFacts.

Lemma isBlank_false (item : TextItem) :
  isBlank item = false -> hasNonSpace (str item) = true.
Proof.
  unfold isBlank. intros H. apply orb_false_iff in H. destruct H as [_ H].
  destruct (hasNonSpace (str item)) eqn:E; [reflexivity|].
  apply hasNonSpace_false, trim_whitespace in E. now rewrite E in H.
Qed.

Lemma dropped_false (pageHeight baseFontSize : Q) (item : TextItem) :
  dropped pageHeight baseFontSize item = false -> isBlank item = false.
Proof.
  unfold dropped. now destruct (isBlank item).
Qed.

Lemma pushItem_good (y : Q) (item : TextItem) (lines : list Line) :
  hasNonSpace (str item) = true ->
  Forall goodLine lines -> Forall goodLine (pushItem y item lines).
Proof.
  intros Hi. induction 1 as [|l rest Hl Hrest IH]; simpl.
  - repeat constructor; [discriminate | exact Hi].
  - destruct l as [ly its|ly imageId].
    + destruct (JS.lt (JS.abs (JS.sub ly y)) Y_TOLERANCE).
      * constructor; [|assumption]. destruct Hl as [_ Hf]. split.
        -- now destruct its.
        -- apply Forall_app. split; [exact Hf | now constructor].
      * now constructor.
    + now constructor.
Qed.

(** Every line built for a page is well formed. *)
Lemma buildLines_good (pageHeight baseFontSize : Q) (texts : list TextItem)
    (infos : list ImageInfo) :
  Forall goodLine (buildLines pageHeight baseFontSize texts infos).
Proof.
  unfold buildLines.
  assert (T : forall lines, Forall goodLine lines ->
                Forall goodLine
                  (fold_left (addText pageHeight baseFontSize) texts lines)).
  { induction texts as [|t r IH]; intros lines Hl; simpl; [exact Hl|].
    apply IH. unfold addText.
    destruct (dropped pageHeight baseFontSize t) eqn:D; [exact Hl|].
    apply pushItem_good; [|exact Hl].
    now apply isBlank_false, (dropped_false pageHeight baseFontSize). }
  assert (I : forall lines, Forall goodLine lines ->
                Forall goodLine (fold_left (addImage pageHeight) infos lines)).
  { induction infos as [|x r IH]; intros lines Hl; simpl; [exact Hl|].
    apply IH. unfold addImage. destruct (imageAtEdge pageHeight x); [exact Hl|].
    apply Forall_app. split; [exact Hl | now repeat constructor]. }
  apply I, T. constructor.
Qed.

Lemma sortLines_good (lines : list Line) :
  Forall goodLine lines -> Forall goodLine (sortLines lines).
Proof.
  intros H. eapply Permutation_Forall; [apply sort_perm | exact H].
Qed.

Lemma scanLine_nonblank (baseFontSize : Q) (its : list TextItem) : forall s0,
  hasNonSpace (lineStr s0) = true
  \/ Exists (fun i => hasNonSpace (str i) = true) its ->
  hasNonSpace (lineStr (fold_left (scanItem baseFontSize) its s0)) = true.
Proof.
  induction its as [|i r IH]; intros s0 H; simpl.
  - destruct H as [H|H]; [exact H | inversion H].
  - apply IH. cbn [scanItem lineStr]. rewrite !hasNonSpace_app.
    destruct H as [H|H].
    + left. now rewrite H.
    + inversion H as [? ? Hi|? ? Hr]; subst.
      * left. rewrite Hi. now rewrite !orb_true_r.
      * now right.
Qed.

Lemma processLine_good (baseFontSize : Q) (l : Line) :
  goodLine l -> goodProcessed (processLine baseFontSize l).
Proof.
  destruct l as [y its|y imageId]; simpl; [|trivial].
  intros [Hne Hf]. apply scanLine_nonblank. right.
  assert (Hs : Forall (fun i => hasNonSpace (str i) = true) (sortItems its)).
  { eapply Permutation_Forall; [apply sort_perm | exact Hf]. }
  pose proof (sort_not_nil
                (fun a b => JS.le (ix4 (transform a) - ix4 (transform b)) 0)
                its Hne) as Hn.
  fold (sortItems its) in Hn.
  destruct (sortItems its) as [|i r]; [contradiction|].
  apply Exists_cons_hd. now inversion Hs.
Qed.

Lemma mergeLine_nonblank (cp text : jsstring) :
  hasNonSpace text = true -> hasNonSpace (mergeLine cp text) = true.
Proof.
  intros H. unfold mergeLine.
  repeat match goal with |- context [if ?b then _ else _] => destruct b end;
    rewrite !hasNonSpace_app, H; now rewrite !orb_true_r.
Qed.

Lemma flush_paragraph (o : Out) : currentParagraph (flush o) = [].
Proof.
  unfold flush. destruct (currentParagraph o) eqn:E; simpl; [exact E | reflexivity].
Qed.

Lemma emit_good processedLines maxLineWidth pageImages o index line :
  goodProcessed line -> goodOut o ->
  goodOut (emit processedLines maxLineWidth pageImages o index line).
Proof.
  intros Hl Ho. unfold goodOut. destruct line as [imageId|text prefix lineWidth].
  - left. simpl. destruct (findSrc pageImages imageId) as [src|].
    + destruct (Str.truthy src); simpl; apply flush_paragraph.
    + apply flush_paragraph.
  - simpl in *. destruct (Str.truthy prefix).
    + left. simpl. apply flush_paragraph.
    + destruct (Str.eqb (currentParagraph o) []); [now right|].
      destruct (JS.lt _ _); right; simpl; [exact Hl|].
      now apply mergeLine_nonblank.
Qed.

Lemma forEachFrom_good processedLines maxLineWidth pageImages rest :
  forall index o,
    Forall goodProcessed rest -> goodOut o ->
    goodOut (forEachFrom processedLines maxLineWidth pageImages index rest o).
Proof.
  induction rest as [|line rest IH]; intros index o Hr Ho; simpl.
  - exact Ho.
  - inversion Hr; subst. apply IH; [assumption|]. now apply emit_good.
Qed.

(** The processed lines of a page are well formed. *)
Lemma pageLines_processed_good pageNumber p :
  Forall goodProcessed
    (map (processLine (FontStats.baseFontSize (items p))) (pageLines pageNumber p)).
Proof.
  apply Forall_map. unfold pageLines.
  eapply Forall_impl; [intros l; apply processLine_good|].
  apply sortLines_good, buildLines_good.
Qed.

(** Operators that register no image leave both output lists alone. *)
Lemma replay_from_no_image pageNumber ops : forall i s,
  Forall (fun op => decodedBy op = None) ops ->
  imageInfos (replay_from pageNumber i ops s) = imageInfos s
  /\ pageImages (replay_from pageNumber i ops s) = pageImages s.
Proof.
  induction ops as [|op rest IH]; intros i s H; simpl.
  - now split.
  - inversion H as [|? ? Hop Hrest]; subst.
    destruct (IH (S i) (step pageNumber i op s) Hrest) as [E1 E2].
    rewrite E1, E2. clear IH E1 E2 H Hrest.
    destruct op as [| |args|r|r|]; simpl.
    + now split.
    + destruct (transformStack s); now split.
    + now split.
    + destruct r; simpl in *; try discriminate; now split.
    + destruct r; simpl in *; try discriminate; now split.
    + now split.
Qed.

Lemma pagesFrom_app l1 : forall l2 n a,
  pagesFrom n (l1 ++ l2) a = pagesFrom (n + length l1) l2 (pagesFrom n l1 a).
Proof.
  induction l1 as [|p l1 IH]; intros l2 n a; simpl.
  - now rewrite Nat.add_0_r.
  - rewrite IH. now rewrite Nat.add_succ_r.
Qed.

Lemma notBelow_sorted_filter (keep : Line -> bool) (l : list Line) :
  StronglySorted notBelow l -> StronglySorted notBelow (filter keep l).
Proof.
  induction 1 as [|a l Hs IH Ha]; simpl.
  - constructor.
  - destruct (keep a); [|exact IH].
    constructor; [exact IH|].
    apply Forall_forall. intros b Hb. apply filter_In in Hb.
    rewrite Forall_forall in Ha. now apply Ha.
Qed.

Lemma pagesFrom_tables pages : forall n a,
  allExtractedImages (pagesFrom n pages a)
  = allExtractedImages a ++ pageImageTables n pages
  /\ parts (pagesFrom n pages a) = parts a ++ pageTexts n pages.
Proof.
  induction pages as [|p rest IH]; intros n a;
    cbn [pagesFrom pageImageTables pageTexts].
  - rewrite !app_nil_r. now split.
  - destruct (IH (S n) (pageStep a n p)) as [E1 E2]. rewrite E1, E2.
    unfold pageStep. destruct (convertPage n p) as [text images].
    cbn [fst snd allExtractedImages parts].
    split; [now rewrite <- app_assoc|].
    destruct (Str.truthy (trim text)); simpl; now rewrite <- ?app_assoc.
Qed.

Lemma truthy_false (s : jsstring) : Str.truthy s = false -> s = [].
Proof.
  now destruct s.
Qed.

Lemma eqb_empty (s : jsstring) : Str.eqb s [] = true -> s = [].
Proof.
  now destruct s.
Qed.

(** A flush moves the paragraph into the text and closes it. *)
Lemma flush_soFar (o : Out) :
  exists tail,
    (tail = [] \/ tail = nl2)
    /\ pageText (flush o) = soFar o ++ tail
    /\ currentParagraph (flush o) = [].
Proof.
  unfold flush, soFar. destruct (Str.truthy (currentParagraph o)) eqn:T.
  - exists nl2. cbn [pageText currentParagraph].
    split; [now right|]. split; [now rewrite app_assoc | reflexivity].
  - apply truthy_false in T. exists []. rewrite T, !app_nil_r. now repeat split; try left.
Qed.

(** A line is written behind all that has been written, after a
    separator. *)
Lemma emit_soFar processedLines maxLineWidth pageImages o index line :
  exists sep,
    isSeparator sep
    /\ soFar (emit processedLines maxLineWidth pageImages o index line)
       = soFar o ++ sep ++ lineBody pageImages line.
Proof.
  destruct (flush_soFar o) as (tail & Ht & Ef & Ep).
  assert (St : isSeparator tail).
  { destruct Ht as [->| ->]; [now left | now right; right]. }
  destruct line as [imageId|text prefix lineWidth]; cbn [emit lineBody].
  - exists tail. split; [exact St|].
    destruct (findSrc pageImages imageId) as [src|].
    + destruct (Str.truthy src); unfold soFar at 1;
        cbn [pageText currentParagraph]; rewrite Ef, Ep, !app_nil_r;
        now rewrite <- ?app_assoc.
    + unfold soFar at 1. now rewrite Ef, Ep, !app_nil_r.
  - destruct (Str.truthy prefix).
    + exists tail. split; [exact St|]. unfold soFar at 1.
      cbn [pageText currentParagraph]. rewrite Ef, Ep, !app_nil_r.
      now rewrite <- !app_assoc.
    + destruct (Str.eqb (currentParagraph o) []) eqn:E.
      * apply eqb_empty in E. exists []. split; [now left|].
        unfold soFar. cbn [pageText currentParagraph app].
        now rewrite E, app_nil_r.
      * destruct (JS.lt _ _).
        -- exists nl2. split; [now right; right|]. unfold soFar.
           cbn [pageText currentParagraph]. now rewrite <- !app_assoc.
        -- unfold soFar. cbn [pageText currentParagraph]. unfold mergeLine.
           destruct (isCJK _ && isCJK _);
             [exists []; split; [now left | now rewrite <- !app_assoc]|].
           destruct (Str.eqb _ _ || _).
           ++ exists []. split; [now left | now rewrite <- !app_assoc].
           ++ exists [0x20%Z]. split; [now right; left|].
              now rewrite <- !app_assoc.
Qed.

Lemma forEachFrom_soFar processedLines maxLineWidth pageImages rest :
  forall index o,
    exists seps,
      length seps = length rest
      /\ Forall isSeparator seps
      /\ soFar (forEachFrom processedLines maxLineWidth pageImages index rest o)
         = soFar o ++ laidOut seps (map (lineBody pageImages) rest).
Proof.
  induction rest as [|line rest IH]; intros index o; cbn [forEachFrom map].
  - exists []. split; [reflexivity|]. split; [constructor|].
    cbn [laidOut]. now rewrite app_nil_r.
  - destruct (emit_soFar processedLines maxLineWidth pageImages o index line)
      as (sep & Hs & E).
    destruct (IH (S index)
                (emit processedLines maxLineWidth pageImages o index line))
      as (seps & Hl & Hf & E').
    exists (sep :: seps). split; [cbn [length]; now rewrite Hl|].
    split; [now constructor|].
    rewrite E', E. cbn [laidOut]. now rewrite <- !app_assoc.
Qed.

(** In a layout, a body that comes before another one is written
    before it. *)
Lemma laidOut_split (pre : list jsstring) :
  forall seps x post,
    length seps = length (pre ++ x :: post) ->
    exists u seps',
      laidOut seps (pre ++ x :: post) = u ++ x ++ laidOut seps' post
      /\ length seps' = length post.
Proof.
  induction pre as [|b pre IH]; intros seps x post H;
    destruct seps as [|sep seps]; try discriminate H.
  - exists sep, seps. split; [reflexivity|]. now injection H.
  - injection H as H. destruct (IH seps x post H) as (u & seps' & E & L).
    exists (sep ++ b ++ u), seps'. split; [|exact L].
    cbn [app laidOut]. rewrite E. now rewrite <- !app_assoc.
Qed.

Lemma laidOut_order (seps pre mid post : list jsstring) (x y : jsstring) :
  length seps = length (pre ++ x :: mid ++ y :: post) ->
  exists u v w,
    laidOut seps (pre ++ x :: mid ++ y :: post) = u ++ x ++ v ++ y ++ w.
Proof.
  intros H.
  destruct (laidOut_split pre seps x (mid ++ y :: post) H) as (u & s1 & E1 & L1).
  destruct (laidOut_split mid s1 y post L1) as (v & s2 & E2 & _).
  exists u, v, (laidOut s2 post). now rewrite E1, E2.
Qed.

(** C2.  The lines of a page are processed, text and image lines alike,
    in an order in which the canonical y never increases; so is every
    selection of them, and the sort loses and invents no line.  The
    lines are written in that order: the text of the page is what the
    lines write (a heading, the text of a plain line, an image
    reference), line after line in the order of the sort, with nothing,
    a space or a blank line between two of them; so of two lines the
    one that is not the lower is written first. *)
Theorem C2_lines_top_to_bottom :
  forall pageNumber p,
    let baseFontSize := FontStats.baseFontSize (items p) in
    let st := replay pageNumber (ops p) in
    let written l := lineBody (pageImages st) (processLine baseFontSize l) in
    StronglySorted notBelow (pageLines pageNumber p)
    /\ (forall keep, StronglySorted notBelow (filter keep (pageLines pageNumber p)))
    /\ Permutation
         (buildLines (pageHeight p) baseFontSize (items p) (imageInfos st))
         (pageLines pageNumber p)
    /\ (exists seps tail,
          length seps = length (pageLines pageNumber p)
          /\ Forall isSeparator seps
          /\ (tail = [] \/ tail = nl2)
          /\ fst (convertPage pageNumber p)
             = laidOut seps (map written (pageLines pageNumber p)) ++ tail)
    /\ (forall pre a mid b post,
          pageLines pageNumber p = pre ++ a :: mid ++ b :: post ->
          line_y b <= line_y a
          /\ exists u v w,
               fst (convertPage pageNumber p)
               = u ++ written a ++ v ++ written b ++ w).
Proof.
  intros pageNumber p baseFontSize st written.
  assert (S : StronglySorted notBelow (pageLines pageNumber p)).
  { unfold pageLines, sortLines. apply sort_sorted; unfold notBelow.
    - intros a b H. apply le_spec in H. lra.
    - intros a b H. apply le_false in H. lra.
    - intros a b c H1 H2. lra. }
  assert (L : exists seps tail,
             length seps = length (pageLines pageNumber p)
             /\ Forall isSeparator seps
             /\ (tail = [] \/ tail = nl2)
             /\ fst (convertPage pageNumber p)
                = laidOut seps (map written (pageLines pageNumber p)) ++ tail).
  { unfold convertPage, assemble. cbn [fst]. fold baseFontSize. fold st.
    set (processedLines := map (processLine baseFontSize) (pageLines pageNumber p)).
    destruct (forEachFrom_soFar processedLines (maxLineWidthOf processedLines)
                (pageImages st) processedLines 0 (mkOut [] []))
      as (seps & Hl & Hf & E).
    destruct (flush_soFar
                (forEachFrom processedLines (maxLineWidthOf processedLines)
                   (pageImages st) 0 processedLines (mkOut [] [])))
      as (tail & Ht & Ef & _).
    exists seps, tail. split; [|split; [exact Hf|split; [exact Ht|]]].
    - rewrite Hl. unfold processedLines. apply length_map.
    - rewrite Ef, E. unfold processedLines, written. now rewrite map_map. }
  split; [exact S|]. split; [|split; [|split; [exact L|]]].
  - intros keep. now apply notBelow_sorted_filter.
  - unfold pageLines, sortLines. apply sort_perm.
  - intros pre a mid b post E. split.
    + rewrite E in S. clear - S.
      induction pre as [|x pre IH]; simpl in S; inversion S; subst.
      * rewrite Forall_forall in H2. apply H2, in_or_app. right. now left.
      * now apply IH.
    + destruct L as (seps & tail & Hl & _ & _ & Et).
      rewrite E in Hl, Et. rewrite map_app in Et. cbn [map] in Et.
      rewrite map_app in Et. cbn [map] in Et.
      destruct (laidOut_order seps (map written pre) (map written mid)
                  (map written post) (written a) (written b))
        as (u & v & w & Eo).
      { rewrite Hl. rewrite !length_app. cbn [length].
        rewrite !length_app. cbn [length]. now rewrite !length_map. }
      exists u, v, (w ++ tail). rewrite Et, Eo. now rewrite <- !app_assoc.
Qed.

Lemma pageTexts_app l1 : forall l2 n,
  pageTexts n (l1 ++ l2) = pageTexts n l1 ++ pageTexts (n + length l1) l2.
Proof.
  induction l1 as [|p l1 IH]; intros l2 n; cbn [app pageTexts length].
  - now rewrite Nat.add_0_r.
  - rewrite IH, Nat.add_succ_r. now rewrite <- app_assoc.
Qed.

Lemma pageImageTables_app l1 : forall l2 n,
  pageImageTables n (l1 ++ l2)
  = pageImageTables n l1 ++ pageImageTables (n + length l1) l2.
Proof.
  induction l1 as [|p l1 IH]; intros l2 n; cbn [app pageImageTables length].
  - now rewrite Nat.add_0_r.
  - rewrite IH, Nat.add_succ_r. now rewrite <- app_assoc.
Qed.

Lemma convertPdfToMd_tables pages :
  convertPdfToMd pages
  = (join nl2 (pageTexts 1 pages), pageImageTables 1 pages).
Proof.
  unfold convertPdfToMd.
  destruct (pagesFrom_tables pages 1 (mkAcc [] [])) as [E1 E2].
  now rewrite E1, E2.
Qed.

(** C7 (amended).  A document of one page on which no image is
    registered and whose lines leave the assembler with a single
    pending paragraph [P] and nothing emitted before it: the Markdown
    is [P] followed by ["\n\n"] and the image table is empty.  A page
    whose text is all white space adds no part: wherever it stands,
    the Markdown of the document is the join of the texts of the other
    pages.  The images that the page registers are added to the image
    table all the same; when it registers none, the document is the
    one without the page. *)
Theorem C7_single_paragraph_page :
  (forall p P,
      let baseFontSize := FontStats.baseFontSize (items p) in
      let processedLines := map (processLine baseFontSize) (pageLines 1 p) in
      Forall (fun op => decodedBy op = None) (ops p) ->
      forEachFrom processedLines (maxLineWidthOf processedLines)
        (pageImages (replay 1 (ops p))) 0 processedLines (mkOut [] [])
      = mkOut [] P ->
      P <> [] ->
      convertPdfToMd [p] = (P ++ nl2, []))
  /\ (forall a pageNumber p,
        Forall (fun c => isWhiteSpace c = true) (fst (convertPage pageNumber p)) ->
        pageStep a pageNumber p
        = mkAcc (parts a)
            (allExtractedImages a ++ snd (convertPage pageNumber p)))
  /\ (forall before p after,
        let n := S (length before) in
        Forall (fun c => isWhiteSpace c = true) (fst (convertPage n p)) ->
        fst (convertPdfToMd (before ++ p :: after))
        = join nl2 (pageTexts 1 before ++ pageTexts (S n) after)
        /\ snd (convertPdfToMd (before ++ p :: after))
           = pageImageTables 1 before ++ snd (convertPage n p)
             ++ pageImageTables (S n) after
        /\ (Forall (fun op => decodedBy op = None) (ops p) ->
            snd (convertPdfToMd (before ++ p :: after))
            = pageImageTables 1 before ++ pageImageTables (S n) after))
  /\ (forall pages p,
        Forall (fun c => isWhiteSpace c = true)
          (fst (convertPage (S (length pages)) p)) ->
        fst (convertPdfToMd (pages ++ [p])) = fst (convertPdfToMd pages)
        /\ (Forall (fun op => decodedBy op = None) (ops p) ->
            convertPdfToMd (pages ++ [p]) = convertPdfToMd pages)).
Proof.
  assert (Hstep : forall a pageNumber p,
             Forall (fun c => isWhiteSpace c = true)
               (fst (convertPage pageNumber p)) ->
             pageStep a pageNumber p
             = mkAcc (parts a)
                 (allExtractedImages a ++ snd (convertPage pageNumber p))).
  { intros a pageNumber p H. unfold pageStep.
    destruct (convertPage pageNumber p) as [text images]. simpl in *.
    now rewrite (trim_whitespace _ H). }
  assert (Hnone : forall n p,
             Forall (fun op => decodedBy op = None) (ops p) ->
             snd (convertPage n p) = []).
  { intros n p H. unfold convertPage. cbn [snd]. unfold replay.
    now destruct (replay_from_no_image n (ops p) 0 init H) as [_ ->]. }
  assert (Hmid : forall before p after,
             Forall (fun c => isWhiteSpace c = true)
               (fst (convertPage (S (length before)) p)) ->
             convertPdfToMd (before ++ p :: after)
             = (join nl2 (pageTexts 1 before
                          ++ pageTexts (S (S (length before))) after),
                pageImageTables 1 before
                ++ snd (convertPage (S (length before)) p)
                ++ pageImageTables (S (S (length before))) after)).
  { intros before p after H. rewrite convertPdfToMd_tables.
    rewrite pageTexts_app, pageImageTables_app.
    cbn [pageTexts pageImageTables Nat.add].
    rewrite (trim_whitespace _ H). reflexivity. }
  split; [|split; [|split]].
  - intros p P baseFontSize processedLines Hops Hrun HP.
    assert (G : goodOut (mkOut [] P)).
    { rewrite <- Hrun. apply forEachFrom_good.
      - apply pageLines_processed_good.
      - now left. }
    destruct G as [G|G]; [contradiction|]. simpl in G.
    destruct (replay_from_no_image 1 (ops p) 0 init Hops) as [_ Eimg].
    assert (Etext : fst (convertPage 1 p) = P ++ nl2).
    { unfold convertPage. cbn [fst]. unfold assemble.
      fold baseFontSize. fold processedLines. rewrite Hrun.
      unfold flush. cbn [currentParagraph pageText].
      destruct P; [contradiction | reflexivity]. }
    unfold convertPdfToMd. cbn [pagesFrom]. unfold pageStep.
    destruct (convertPage 1 p) as [text images] eqn:E.
    assert (Eimages : images = []).
    { change images with (snd (text, images)). rewrite <- E.
      unfold convertPage. cbn [snd]. exact Eimg. }
    cbn [fst] in Etext. subst text images.
    rewrite trim_truthy.
    + reflexivity.
    + rewrite hasNonSpace_app, G. reflexivity.
  - exact Hstep.
  - intros before p after n H. subst n.
    rewrite (Hmid before p after H). cbn [fst snd].
    split; [reflexivity|]. split; [reflexivity|].
    intros Hn. now rewrite (Hnone _ p Hn).
  - intros pages p H. rewrite (Hmid pages p [] H), convertPdfToMd_tables.
    cbn [fst snd pageTexts pageImageTables]. rewrite !app_nil_r.
    split; [reflexivity|]. intros Hn. now rewrite (Hnone _ p Hn), app_nil_r.
Qed.

(** The theorem on a page with the two full-width lines "hello" and
    "world", followed by a page with only a blank run. *)
Lemma C7_single_paragraph_page_witness :
  let run s y := mkTextItem (lit s) (mkMatrix 12 0 0 12 72 y) (Some 12) (Some 30) in
  let p := mkPageInput 800 [run "hello"%string 400; run "world"%string 380] [] in
  let blank := mkPageInput 800 [run " "%string 400] [] in
  convertPdfToMd [p] = (lit "hello world"%string ++ nl2, [])
  /\ pageStep (mkAcc [] []) 1 blank = mkAcc [] ([] ++ snd (convertPage 1 blank))
  /\ convertPdfToMd ([p] ++ [blank]) = convertPdfToMd [p].
Proof.
  destruct C7_single_paragraph_page as (H1 & H2 & _ & H4).
  split; [|split].
  - apply (H1 (mkPageInput 800
                 [mkTextItem (lit "hello"%string) (mkMatrix 12 0 0 12 72 400)
                    (Some 12) (Some 30);
                  mkTextItem (lit "world"%string) (mkMatrix 12 0 0 12 72 380)
                    (Some 12) (Some 30)] [])
              (lit "hello world"%string)).
    + constructor.
    + vm_compute. reflexivity.
    + discriminate.
  - apply (H2 (mkAcc [] []) 1%nat
              (mkPageInput 800
                 [mkTextItem (lit " "%string) (mkMatrix 12 0 0 12 72 400)
                    (Some 12) (Some 30)] [])).
    vm_compute. constructor.
  - apply (H4 [mkPageInput 800
                 [mkTextItem (lit "hello"%string) (mkMatrix 12 0 0 12 72 400)
                    (Some 12) (Some 30);
                  mkTextItem (lit "world"%string) (mkMatrix 12 0 0 12 72 380)
                    (Some 12) (Some 30)] []]
              (mkPageInput 800
                 [mkTextItem (lit " "%string) (mkMatrix 12 0 0 12 72 400)
                    (Some 12) (Some 30)] [])).
    + vm_compute. constructor.
    + constructor.
Defined.

(** The claim as worded fails on the image table: a page without text
    whose only image lies at the lower edge has an empty text, and the
    image it registers is in the table of the document. *)
Lemma C7_blank_page_adds_its_images :
  ~ (forall pages p,
       Forall (fun c => isWhiteSpace c = true)
         (fst (convertPage (S (length pages)) p)) ->
       convertPdfToMd (pages ++ [p]) = convertPdfToMd pages).
Proof.
  intros H.
  specialize (H [] (mkPageInput 800 []
                      [PaintImageXObject (Decoded 10 10 (lit "blob:1"%string))])).
  assert (W : Forall (fun c => isWhiteSpace c = true)
                (fst (convertPage 1
                        (mkPageInput 800 []
                           [PaintImageXObject
                              (Decoded 10 10 (lit "blob:1"%string))]))))
    by (vm_compute; constructor).
  specialize (H W). vm_compute in H. discriminate H.
Qed.

(** C8.  A paint operator whose image cannot be resolved or encoded
    does not stop the page: the page converts exactly as it does with a
    no-op at that index, and neither a placement nor a registered image
    carries the identifier of the failed operator. *)
Theorem C8_failed_image_is_skipped :
  forall (paintOp : ImgOutcome -> Op) pageNumber H texts pre post r,
    paintOp = PaintImageXObject \/ paintOp = PaintInlineImageXObject ->
    isFailure r = true ->
    let failing := mkPageInput H texts (pre ++ paintOp r :: post) in
    let skipping := mkPageInput H texts (pre ++ OtherOp :: post) in
    convertPage pageNumber failing = convertPage pageNumber skipping
    /\ (forall x, In x (imageInfos (replay pageNumber (ops failing))) ->
          info_id x <> (pageNumber, length pre))
    /\ (forall e, In e (snd (convertPage pageNumber failing)) ->
          id e <> (pageNumber, length pre)).
Proof.
  intros paintOp pageNumber H texts pre post r Hop Hr failing skipping.
  destruct (replay_around pageNumber pre post)
    as (c & st & dI1 & dP1 & c2 & st2 & dI2 & dP2 & E1 & E2 & HI & HP).
  assert (Hstep : forall s, step pageNumber (length pre) (paintOp r) s = s).
  { intro s. destruct (step_failed_paint pageNumber (length pre) r s Hr).
    destruct Hop; subst paintOp; assumption. }
  assert (Efail : replay pageNumber (pre ++ paintOp r :: post)
                  = mkState c2 st2 (dI1 ++ dI2) (dP1 ++ dP2)).
  { unfold replay. rewrite replay_from_app. simpl.
    rewrite Hstep, E1. apply E2. }
  assert (Eskip : replay pageNumber (pre ++ OtherOp :: post)
                  = mkState c2 st2 (dI1 ++ dI2) (dP1 ++ dP2)).
  { unfold replay. rewrite replay_from_app. simpl.
    rewrite E1. apply E2. }
  subst failing skipping.
  unfold convertPage, pageLines. cbn [ops items pageHeight snd].
  rewrite Efail, Eskip. cbn [imageInfos pageImages].
  split; [reflexivity|]. split; assumption.
Qed.

(** The theorem at a page with one text run and a failing image between
    two operators. *)
Lemma C8_failed_image_is_skipped_witness :
  let texts := [mkTextItem (lit "text"%string) (mkMatrix 12 0 0 12 72 400)
                  (Some 12) (Some 30)] in
  let failing := mkPageInput 800 texts [Save; PaintImageXObject Thrown; Restore] in
  let skipping := mkPageInput 800 texts [Save; OtherOp; Restore] in
  convertPage 1 failing = convertPage 1 skipping
  /\ (forall x, In x (imageInfos (replay 1 (ops failing))) ->
        info_id x <> (1%nat, 1%nat))
  /\ (forall e, In e (snd (convertPage 1 failing)) -> id e <> (1%nat, 1%nat)).
Proof.
  exact (C8_failed_image_is_skipped PaintImageXObject 1 800
           [mkTextItem (lit "text"%string) (mkMatrix 12 0 0 12 72 400)
              (Some 12) (Some 30)]
           [Save] [Restore] Thrown (or_introl eq_refl) eq_refl).
Defined.

Lemma ImgId_eqb_eq (a b : ImgId) : ImgId_eqb a b = true -> a = b.
Proof.
  destruct a as [a1 a2], b as [b1 b2]. unfold ImgId_eqb. simpl.
  intros H. apply andb_true_iff in H. destruct H as [H1 H2].
  apply Nat.eqb_eq in H1, H2. now subst.
Qed.

(** An entry with another identifier does not change what [find]
    returns. *)
Lemma findSrc_without (A B : list ExtractedImage) (e : ExtractedImage)
    (iid : ImgId) :
  id e <> iid -> findSrc ((A ++ [e]) ++ B) iid = findSrc (A ++ B) iid.
Proof.
  intros Hne. unfold findSrc. f_equal. rewrite <- app_assoc.
  induction A as [|a A IH]; simpl.
  - destruct (ImgId_eqb (id e) iid) eqn:E; [|reflexivity].
    apply ImgId_eqb_eq in E. contradiction.
  - destruct (ImgId_eqb (id a) iid); [reflexivity | exact IH].
Qed.

(** The assembler reads [pageImages] only at the image lines. *)
Lemma forEachFrom_images processedLines maxLineWidth P1 P2 rest :
  forall index o,
    (forall iid, In (PImage iid) rest -> findSrc P1 iid = findSrc P2 iid) ->
    forEachFrom processedLines maxLineWidth P1 index rest o
    = forEachFrom processedLines maxLineWidth P2 index rest o.
Proof.
  induction rest as [|line rest IH]; intros index o H; simpl; [reflexivity|].
  assert (E : emit processedLines maxLineWidth P1 o index line
              = emit processedLines maxLineWidth P2 o index line).
  { destruct line as [iid|text prefix lineWidth]; [|reflexivity].
    simpl. rewrite (H iid); [reflexivity | now left]. }
  rewrite E. apply IH. intros iid Hi. apply H. now right.
Qed.

Lemma pushItem_noImageLine iid y item lines :
  noImageLine iid lines -> noImageLine iid (pushItem y item lines).
Proof.
  unfold noImageLine. induction lines as [|l rest IH]; intros H ly; simpl.
  - intros [E|[]]. discriminate.
  - assert (Hrest : forall ly', ~ In (ImageLine ly' iid) rest).
    { intros ly' Hin. apply (H ly'). now right. }
    destruct l as [ly0 its|ly0 iid0].
    + destruct (JS.lt (JS.abs (JS.sub ly0 y)) Y_TOLERANCE).
      * intros [E|Hin]; [discriminate | now apply (Hrest ly)].
      * intros [E|Hin]; [discriminate | now apply (IH Hrest ly)].
    + intros [E|Hin].
      * apply (H ly). left. exact E.
      * now apply (IH Hrest ly).
Qed.

(** The image lines of a page carry identifiers of its placements. *)
Lemma buildLines_noImageLine iid pageHeight baseFontSize texts infos :
  (forall x, In x infos -> info_id x <> iid) ->
  noImageLine iid (buildLines pageHeight baseFontSize texts infos).
Proof.
  intros Hinfos. unfold buildLines.
  assert (T : forall lines, noImageLine iid lines ->
                noImageLine iid
                  (fold_left (addText pageHeight baseFontSize) texts lines)).
  { induction texts as [|t r IH]; intros lines Hl; simpl; [exact Hl|].
    apply IH. unfold addText.
    destruct (dropped pageHeight baseFontSize t); [exact Hl|].
    now apply pushItem_noImageLine. }
  assert (I : forall lines, noImageLine iid lines ->
                noImageLine iid (fold_left (addImage pageHeight) infos lines)).
  { clear T. induction infos as [|x r IH]; intros lines Hl; simpl; [exact Hl|].
    apply IH.
    - intros x' Hx'. apply Hinfos. now right.
    - unfold addImage. destruct (imageAtEdge pageHeight x); [exact Hl|].
      intros ly Hin. apply in_app_or in Hin. destruct Hin as [Hin|[E|[]]].
      + now apply (Hl ly).
      + injection E as _ E. apply (Hinfos x); [now left | exact E]. }
  apply I, T. intros ly [].
Qed.

(** A placement at the edge adds no line. *)
Lemma buildLines_edge pageHeight baseFontSize texts A B x :
  imageAtEdge pageHeight x = true ->
  buildLines pageHeight baseFontSize texts ((A ++ [x]) ++ B)
  = buildLines pageHeight baseFontSize texts (A ++ B).
Proof.
  intros He. unfold buildLines. rewrite !fold_left_app. simpl.
  unfold addImage at 2. now rewrite He.
Qed.

Lemma imageAtEdge_spec pageHeight x :
  info_y x < 20 \/ pageHeight - 20 < info_y x -> imageAtEdge pageHeight x = true.
Proof.
  unfold imageAtEdge. intros [H|H]; apply orb_true_iff.
  - left. now apply lt_spec.
  - right. now apply gt_spec.
Qed.

(** The images of every page are in the table of the document. *)
Lemma pagesFrom_keeps pages : forall n a e,
  In e (allExtractedImages a) -> In e (allExtractedImages (pagesFrom n pages a)).
Proof.
  induction pages as [|p rest IH]; intros n a e H; simpl; [exact H|].
  apply IH. unfold pageStep. destruct (convertPage n p) as [text images].
  simpl. apply in_or_app. now left.
Qed.

Lemma convertPdfToMd_inventory before p after e :
  In e (snd (convertPage (S (length before)) p)) ->
  In e (snd (convertPdfToMd (before ++ p :: after))).
Proof.
  intros H. unfold convertPdfToMd. cbn [snd]. rewrite pagesFrom_app.
  change (1 + length before)%nat with (S (length before)). cbn [pagesFrom].
  apply pagesFrom_keeps. unfold pageStep.
  destruct (convertPage (S (length before)) p) as [text images].
  simpl in *. apply in_or_app. now right.
Qed.

(** C10.  An image that is decoded while its visual top is less than
    20 from the bottom of the page or less than 20 from its top gets no
    line: the text of the page is the one obtained with a no-op in its
    place, yet its identifier and handle are in the image table that
    the conversion of the document returns.  On the one-page document
    of the last part the Markdown is empty and the table is not. *)
Theorem C10_edge_image_registered_not_referenced :
  (forall (paintOp : ImgOutcome -> Op) pageNumber H texts pre post w h url,
      paintOp = PaintImageXObject \/ paintOp = PaintInlineImageXObject ->
      let p := mkPageInput H texts (pre ++ paintOp (Decoded w h url) :: post) in
      let without := mkPageInput H texts (pre ++ OtherOp :: post) in
      let y := visualTopY (ctm (replay_from pageNumber 0 pre init)) in
      y < 20 \/ H - 20 < y ->
      noImageLine (pageNumber, length pre) (pageLines pageNumber p)
      /\ fst (convertPage pageNumber p) = fst (convertPage pageNumber without)
      /\ In (mkExtractedImage url (pageNumber, length pre))
           (snd (convertPage pageNumber p))
      /\ (forall before after,
            pageNumber = S (length before) ->
            In (mkExtractedImage url (pageNumber, length pre))
              (snd (convertPdfToMd (before ++ p :: after)))))
  /\ (let banner := mkPageInput 800 []
                      [TransformOp (mkMatrix 200 0 0 10 0 0);
                       PaintImageXObject (Decoded 200 10 (lit "blob:1"%string))] in
      convertPdfToMd [banner]
      = ([], [mkExtractedImage (lit "blob:1"%string) (1%nat, 1%nat)])).
Proof.
  split; [|reflexivity].
  intros paintOp pageNumber H texts pre post w h url Hop p without y Hy.
  destruct (replay_around pageNumber pre post)
    as (c & st & dI1 & dP1 & c2 & st2 & dI2 & dP2 & E1 & E2 & HI & HP).
  set (iid := (pageNumber, length pre)) in *.
  set (x := mkImageInfo (visualTopY c) iid w h).
  set (e := mkExtractedImage url iid).
  assert (Ey : y = visualTopY c) by (subst y; now rewrite E1).
  assert (Ep : replay pageNumber (pre ++ paintOp (Decoded w h url) :: post)
               = mkState c2 st2 ((dI1 ++ [x]) ++ dI2) ((dP1 ++ [e]) ++ dP2)).
  { unfold replay. rewrite replay_from_app. simpl. rewrite E1.
    destruct Hop; subst paintOp; simpl; apply E2. }
  assert (Ew : replay pageNumber (pre ++ OtherOp :: post)
               = mkState c2 st2 (dI1 ++ dI2) (dP1 ++ dP2)).
  { unfold replay. rewrite replay_from_app. simpl. rewrite E1. apply E2. }
  assert (Hedge : imageAtEdge H x = true).
  { apply imageAtEdge_spec. simpl. now rewrite <- Ey. }
  assert (El : pageLines pageNumber p = pageLines pageNumber without).
  { subst p without. unfold pageLines. cbn [ops items pageHeight].
    rewrite Ep, Ew. cbn [imageInfos]. now rewrite buildLines_edge. }
  assert (Hno : noImageLine iid (pageLines pageNumber without)).
  { subst without. unfold pageLines. cbn [ops items pageHeight].
    rewrite Ew. cbn [imageInfos]. unfold sortLines.
    intros ly Hin. apply sort_In in Hin. revert ly Hin.
    now apply buildLines_noImageLine. }
  split; [now rewrite El|]. split; [|split].
  - unfold convertPage. rewrite El. subst p without.
    cbn [ops items pageHeight fst]. rewrite Ep, Ew. cbn [pageImages].
    unfold assemble. f_equal. f_equal. apply forEachFrom_images.
    intros iid' Hin. apply findSrc_without. simpl. intros <-.
    apply in_map_iff in Hin. destruct Hin as (l & El' & Hl).
    destruct l as [ly its|ly iid0]; [discriminate|].
    simpl in El'. injection El' as ->. now apply (Hno ly).
  - subst p. unfold convertPage. cbn [ops snd]. rewrite Ep. cbn [pageImages].
    apply in_or_app. left. apply in_or_app. right. now left.
  - intros before after ->. apply convertPdfToMd_inventory.
    subst p. unfold convertPage. cbn [ops snd]. rewrite Ep. cbn [pageImages].
    apply in_or_app. left. apply in_or_app. right. now left.
Qed.

(** The theorem on a page of height 800 whose only image is 10 high at
    the bottom of the page. *)
Lemma C10_edge_image_registered_not_referenced_witness :
  let url := lit "blob:1"%string in
  let scale := TransformOp (mkMatrix 200 0 0 10 0 0) in
  let p := mkPageInput 800 [] [scale; PaintImageXObject (Decoded 200 10 url)] in
  noImageLine (1%nat, 1%nat) (pageLines 1 p)
  /\ fst (convertPage 1 p) = fst (convertPage 1 (mkPageInput 800 [] [scale; OtherOp]))
  /\ In (mkExtractedImage url (1%nat, 1%nat)) (snd (convertPage 1 p))
  /\ In (mkExtractedImage url (1%nat, 1%nat)) (snd (convertPdfToMd [p])).
Proof.
  destruct (proj1 C10_edge_image_registered_not_referenced
              PaintImageXObject 1%nat 800 []
              [TransformOp (mkMatrix 200 0 0 10 0 0)] [] 200 10
              (lit "blob:1"%string) (or_introl eq_refl))
    as (H1 & H2 & H3 & H4).
  - left. vm_compute. reflexivity.
  - split; [exact H1|]. split; [exact H2|]. split; [exact H3|].
    exact (H4 [] [] eq_refl).
Defined.

End PageFacts.

(** ** Further properties of the transform tracker *)

Module TrackerFacts.
Import Str Transform Text Page Document Describe.
Import JSFacts SortFacts TransformFacts PageFacts.

Lemma step_lists pageNumber i op s :
  pageImages (step pageNumber i op s)
  = pageImages s
    ++ match decodedBy op with
       | Some (_, _, url) => [mkExtractedImage url (pageNumber, i)]
       | None => []
       end
  /\ map info_id (imageInfos (step pageNumber i op s))
     = map info_id (imageInfos s)
       ++ match decodedBy op with
          | Some _ => [(pageNumber, i)]
          | None => []
          end.
Proof.
  destruct op as [| |args|r|r|]; simpl;
    try (rewrite !app_nil_r; now split).
  - destruct (transformStack s); simpl; rewrite !app_nil_r; now split.
  - destruct r; simpl; try (rewrite !app_nil_r; now split).
    rewrite map_app. now split.
  - destruct r; simpl; try (rewrite !app_nil_r; now split).
    rewrite map_app. now split.
Qed.

(** The loop registers exactly the images of [registered]. *)
Lemma replay_from_registered pageNumber ops : forall i s,
  pageImages (replay_from pageNumber i ops s)
  = pageImages s ++ registered pageNumber i ops
  /\ map info_id (imageInfos (replay_from pageNumber i ops s))
     = map info_id (imageInfos s) ++ map id (registered pageNumber i ops).
Proof.
  induction ops as [|op rest IH]; intros i s; simpl.
  - rewrite !app_nil_r. now split.
  - destruct (IH (S i) (step pageNumber i op s)) as [E1 E2].
    destruct (step_lists pageNumber i op s) as [S1 S2].
    rewrite E1, E2, S1, S2, map_app, <- !app_assoc. split; [reflexivity|].
    f_equal. f_equal. now destruct (decodedBy op) as [[[w h] url]|].
Qed.

Lemma registered_ids pageNumber ops : forall i e,
  In e (registered pageNumber i ops) ->
  exists j, id e = (pageNumber, j) /\ (i <= j)%nat.
Proof.
  induction ops as [|op rest IH]; intros i e H; simpl in H; [contradiction|].
  apply in_app_or in H. destruct H as [H|H].
  - destruct (decodedBy op) as [[[w h] url]|]; [|contradiction].
    destruct H as [<-|[]]. exists i. now split.
  - destruct (IH (S i) e H) as (j & E & L). exists j. split; [exact E | lia].
Qed.

Lemma registered_NoDup pageNumber ops : forall i,
  NoDup (map id (registered pageNumber i ops)).
Proof.
  induction ops as [|op rest IH]; intros i; simpl; [constructor|].
  rewrite map_app. destruct (decodedBy op) as [[[w h] url]|]; simpl.
  - constructor; [|apply IH]. intros H. apply in_map_iff in H.
    destruct H as (e & E & He).
    destruct (registered_ids pageNumber rest (S i) e He) as (j & Ej & L).
    rewrite Ej in E. injection E as E. lia.
  - apply IH.
Qed.

Lemma pageImages_replay pageNumber ops :
  pageImages (replay pageNumber ops) = registered pageNumber 0 ops.
Proof.
  unfold replay. now rewrite (proj1 (replay_from_registered pageNumber ops 0 init)).
Qed.

Lemma pageImageTables_ids pages : forall n e,
  In e (pageImageTables n pages) ->
  exists pn j, id e = (pn, j) /\ (n <= pn)%nat.
Proof.
  induction pages as [|p rest IH]; intros n e H; simpl in H; [contradiction|].
  apply in_app_or in H. destruct H as [H|H].
  - unfold convertPage in H. simpl in H. rewrite pageImages_replay in H.
    destruct (registered_ids n (ops p) 0 e H) as (j & E & _).
    exists n, j. now split.
  - destruct (IH (S n) e H) as (pn & j & E & L). exists pn, j.
    split; [exact E | lia].
Qed.

Lemma document_ids_NoDup pages :
  forall n, NoDup (map id (pageImageTables n pages)).
Proof.
  induction pages as [|q rest IH]; intros n; cbn [pageImageTables].
  - constructor.
  - rewrite map_app. apply NoDup_app.
    + unfold convertPage. simpl. rewrite pageImages_replay.
      apply registered_NoDup.
    + apply IH.
    + intros x H1 H2. apply in_map_iff in H1, H2.
      destruct H1 as (e1 & E1 & H1). destruct H2 as (e2 & E2 & H2).
      unfold convertPage in H1. simpl in H1. rewrite pageImages_replay in H1.
      destruct (registered_ids n (ops q) 0 e1 H1) as (j1 & Ej1 & _).
      destruct (pageImageTables_ids rest (S n) e2 H2) as (pn & j2 & Ej2 & L).
      rewrite <- E2, Ej2 in E1. rewrite Ej1 in E1. injection E1 as E1 _. lia.
Qed.

(** X1.  The image table of a page holds one entry per paint operator
    that decodes, in operator order, under the identifier made of the
    page number and the operator index; the placements carry the same
    identifiers in the same order; and in the table returned for a
    document no identifier occurs twice. *)
Theorem X1_image_identifiers_unique :
  forall pages pageNumber p,
    snd (convertPage pageNumber p) = registered pageNumber 0 (ops p)
    /\ map info_id (imageInfos (replay pageNumber (ops p)))
       = map id (snd (convertPage pageNumber p))
    /\ NoDup (map id (snd (convertPage pageNumber p)))
    /\ NoDup (map id (snd (convertPdfToMd pages))).
Proof.
  intros pages pageNumber p.
  assert (E : snd (convertPage pageNumber p) = registered pageNumber 0 (ops p)).
  { unfold convertPage. simpl. apply pageImages_replay. }
  split; [exact E|]. split; [|split].
  - rewrite E. unfold replay.
    now rewrite (proj2 (replay_from_registered pageNumber (ops p) 0 init)).
  - rewrite E. apply registered_NoDup.
  - unfold convertPdfToMd. simpl.
    rewrite (proj1 (pagesFrom_tables pages 1 (mkAcc [] []))). simpl.
    apply document_ids_NoDup.
Qed.

Lemma registered_inv pageNumber ops : forall i e,
  In e (registered pageNumber i ops) ->
  exists j op w h,
    nth_error ops j = Some op /\ decodedBy op = Some (w, h, src e)
    /\ id e = (pageNumber, (i + j)%nat).
Proof.
  induction ops as [|op rest IH]; intros i e H; simpl in H; [contradiction|].
  apply in_app_or in H. destruct H as [H|H].
  - destruct (decodedBy op) as [[[w h] url]|] eqn:D; [|contradiction].
    destruct H as [<-|[]]. exists 0%nat, op, w, h. simpl.
    rewrite Nat.add_0_r. now repeat split.
  - destruct (IH (S i) e H) as (j & op' & w & h & N & D & E).
    exists (S j), op', w, h. simpl. rewrite E. repeat split; try assumption.
    f_equal. lia.
Qed.

Lemma findSrc_registered pageNumber ops : forall i j op w h url,
  nth_error ops j = Some op -> decodedBy op = Some (w, h, url) ->
  findSrc (registered pageNumber i ops) (pageNumber, (i + j)%nat) = Some url.
Proof.
  unfold findSrc.
  induction ops as [|op0 rest IH]; intros i j op w h url N D.
  - destruct j; discriminate.
  - destruct j as [|j]; simpl in N.
    + injection N as ->. simpl. rewrite D. simpl. unfold ImgId_eqb. simpl.
      rewrite Nat.add_0_r, !Nat.eqb_refl. reflexivity.
    + simpl. destruct (decodedBy op0) as [[[w0 h0] url0]|]; simpl.
      * unfold ImgId_eqb at 1. simpl.
        replace (i =? i + S j)%nat with false
          by (symmetry; apply Nat.eqb_neq; lia).
        rewrite andb_false_r. replace (i + S j)%nat with (S i + j)%nat by lia.
        now apply (IH (S i) j op w h url).
      * replace (i + S j)%nat with (S i + j)%nat by lia.
        now apply (IH (S i) j op w h url).
Qed.

Lemma fold_addImage_inv pageHeight infos : forall lines y iid,
  In (ImageLine y iid) (fold_left (addImage pageHeight) infos lines) ->
  In (ImageLine y iid) lines
  \/ exists x, In x infos /\ info_id x = iid /\ info_y x = y
               /\ imageAtEdge pageHeight x = false.
Proof.
  induction infos as [|x0 r IH]; intros lines y iid H; simpl in H.
  - now left.
  - destruct (IH _ _ _ H) as [Hin|(x & Hx & E)].
    + unfold addImage in Hin.
      destruct (imageAtEdge pageHeight x0) eqn:Edge; [now left|].
      apply in_app_or in Hin. destruct Hin as [Hin|[Hin|[]]]; [now left|].
      injection Hin as <- <-. right. exists x0. repeat split; [now left | exact Edge].
    + right. exists x. split; [now right | exact E].
Qed.

(** An image line stems from a placement that is not at the edge. *)
Lemma buildLines_imageLine_inv pageHeight baseFontSize texts infos y iid :
  In (ImageLine y iid) (buildLines pageHeight baseFontSize texts infos) ->
  exists x, In x infos /\ info_id x = iid /\ info_y x = y
            /\ imageAtEdge pageHeight x = false.
Proof.
  unfold buildLines. intros H.
  destruct (fold_addImage_inv _ _ _ _ _ H) as [Hin|Hx]; [|exact Hx].
  exfalso. revert Hin.
  apply (PageFacts.buildLines_noImageLine iid pageHeight baseFontSize texts []).
  intros x [].
Qed.

(** X2.  Every image line of a page stems from a paint operator of the
    page that decodes, and looking up the identifier of such an
    operator in the images of the page yields the handle registered by
    that very operator; the reference that the assembler then writes is
    the one of that handle. *)
Theorem X2_image_line_resolves_to_own_handle :
  forall pageNumber p,
    (forall y iid,
        In (ImageLine y iid) (pageLines pageNumber p) ->
        exists j op w h url,
          iid = (pageNumber, j) /\ nth_error (ops p) j = Some op
          /\ decodedBy op = Some (w, h, url))
    /\ (forall j op w h url,
          nth_error (ops p) j = Some op ->
          decodedBy op = Some (w, h, url) ->
          findSrc (snd (convertPage pageNumber p)) (pageNumber, j) = Some url
          /\ forall processedLines maxLineWidth o index,
               Str.truthy url = true ->
               emit processedLines maxLineWidth (snd (convertPage pageNumber p))
                 o index (PImage (pageNumber, j))
               = mkOut (pageText (flush o) ++ imageRef url) []).
Proof.
  intros pageNumber p. split.
  - intros y iid H. unfold pageLines, sortLines in H. apply sort_In in H.
    destruct (buildLines_imageLine_inv _ _ _ _ _ _ H) as (x & Hx & Eid & _).
    assert (Hid : In iid (map info_id (imageInfos (replay pageNumber (ops p))))).
    { rewrite <- Eid. now apply in_map. }
    unfold replay in Hid.
    rewrite (proj2 (replay_from_registered pageNumber (ops p) 0 init)) in Hid.
    simpl in Hid. apply in_map_iff in Hid. destruct Hid as (e & Ee & He).
    destruct (registered_inv _ _ _ _ He) as (j & op & w & h & N & D & E).
    exists j, op, w, h, (src e). rewrite <- Ee, E. now repeat split.
  - intros j op w h url N D.
    assert (F : findSrc (snd (convertPage pageNumber p)) (pageNumber, j)
                = Some url).
    { unfold convertPage. cbn [snd]. rewrite pageImages_replay.
      apply (findSrc_registered pageNumber (ops p) 0 j op w h url N D). }
    split; [exact F|]. intros processedLines maxLineWidth o index Hu.
    unfold emit. rewrite F, Hu. now rewrite PageFacts.flush_paragraph.
Qed.

Lemma X2_image_line_resolves_to_own_handle_witness :
  let p := mkPageInput 800 []
             [TransformOp (mkMatrix 200 0 0 300 0 0);
              PaintImageXObject (Decoded 200 100 (lit "blob:a"%string))] in
  findSrc (snd (convertPage 1 p)) (1%nat, 1%nat) = Some (lit "blob:a"%string)
  /\ emit [] 0 (snd (convertPage 1 p)) (mkOut [] []) 0 (PImage (1%nat, 1%nat))
     = mkOut (imageRef (lit "blob:a"%string)) [].
Proof.
  destruct (proj2 (X2_image_line_resolves_to_own_handle 1
              (mkPageInput 800 []
                 [TransformOp (mkMatrix 200 0 0 300 0 0);
                  PaintImageXObject (Decoded 200 100 (lit "blob:a"%string))]))
              1%nat (PaintImageXObject (Decoded 200 100 (lit "blob:a"%string)))
              200 100 (lit "blob:a"%string) eq_refl eq_refl) as [F E].
  split; [exact F|]. exact (E [] 0 (mkOut [] []) 0%nat eq_refl).
Defined.

(** The stack below the entries pushed by a list of operators is left
    alone, and the depth of what is above it is the nesting depth. *)
Lemma replay_from_nesting pageNumber body : forall d d' i s pre base,
  nesting d body = Some d' ->
  transformStack s = pre ++ base -> length pre = d ->
  exists pre',
    transformStack (replay_from pageNumber i body s) = pre' ++ base
    /\ length pre' = d'.
Proof.
  induction body as [|op rest IH]; intros d d' i s pre base N E L; simpl in *.
  - injection N as <-. now exists pre.
  - destruct op as [| |args|r|r|]; simpl.
    + apply (IH (S d) d' (S i) _ (ctm s :: pre) base N).
      * simpl. now rewrite E.
      * simpl. now rewrite L.
    + destruct d as [|d0]; [discriminate|].
      destruct pre as [|top pre0]; [discriminate|].
      rewrite E. simpl.
      apply (IH d0 d' (S i) _ pre0 base N); [reflexivity|].
      simpl in L. lia.
    + now apply (IH d d' (S i) _ pre base N).
    + apply (IH d d' (S i) _ pre base N); [|exact L]. now destruct r.
    + apply (IH d d' (S i) _ pre base N); [|exact L]. now destruct r.
    + now apply (IH d d' (S i) _ pre base N).
Qed.

(** X3.  A save, a body whose own saves and restores are nested, and a
    restore: the current transform and the stack are again those before
    the save, whatever the body concatenates and paints. *)
Theorem X3_save_restore_round_trip :
  forall pageNumber i body s,
    nesting 0 body = Some 0%nat ->
    let s' := replay_from pageNumber i (Save :: body ++ [Restore]) s in
    ctm s' = ctm s /\ transformStack s' = transformStack s.
Proof.
  intros pageNumber i body s N s'. subst s'.
  cbn [replay_from]. rewrite replay_from_app. cbn [replay_from].
  set (s1 := step pageNumber i Save s).
  destruct (replay_from_nesting pageNumber body 0 0 (S i) s1 []
              (ctm s :: transformStack s) N eq_refl eq_refl)
    as (pre' & E & L).
  destruct pre'; [|discriminate]. simpl in E.
  unfold step. rewrite E. split; reflexivity.
Qed.

Lemma X3_save_restore_round_trip_witness :
  let body := [TransformOp (mkMatrix (1 # 2) 0 0 (1 # 2) 0 0); Save;
               TransformOp (mkMatrix 3 0 0 3 0 0); Restore;
               PaintImageXObject (Decoded 10 10 (lit "blob:a"%string))] in
  let s := mkState (mkMatrix 2 0 0 2 0 0) [identity] [] [] in
  ctm (replay_from 1 0 (Save :: body ++ [Restore]) s) = ctm s
  /\ transformStack (replay_from 1 0 (Save :: body ++ [Restore]) s)
     = transformStack s.
Proof.
  exact (X3_save_restore_round_trip 1 0
           [TransformOp (mkMatrix (1 # 2) 0 0 (1 # 2) 0 0); Save;
            TransformOp (mkMatrix 3 0 0 3 0 0); Restore;
            PaintImageXObject (Decoded 10 10 (lit "blob:a"%string))]
           (mkState (mkMatrix 2 0 0 2 0 0) [identity] [] []) eq_refl).
Defined.

(** X4.  The Markdown of a document is the join, by a blank line, of
    the texts of its non-blank pages in page order, and the image table
    is the concatenation of the image tables of all its pages, blank or
    not, in page order. *)
Theorem X4_document_is_pages_in_order :
  forall pages,
    fst (convertPdfToMd pages) = join nl2 (pageTexts 1 pages)
    /\ snd (convertPdfToMd pages) = pageImageTables 1 pages.
Proof.
  intros pages. unfold convertPdfToMd. cbn [fst snd].
  destruct (pagesFrom_tables pages 1 (mkAcc [] [])) as [E1 E2].
  rewrite E1, E2. now split.
Qed.

End TrackerFacts.

(** ** Further properties of the lines of a page *)

Module LineFacts.
Import Str Transform Text Patterns Page Document Describe.
Import JSFacts SortFacts.

Lemma Permutation_filter_compat {A : Type} (keep : A -> bool) :
  forall xs ys : list A,
    Permutation xs ys -> Permutation (filter keep xs) (filter keep ys).
Proof.
  intros xs ys P.
  induction P as [|x xs ys _ IH|x y xs|xs ys zs _ IH1 _ IH2]; simpl.
  - constructor.
  - destruct (keep x); [now constructor | exact IH].
  - destruct (keep x), (keep y); try apply Permutation_refl. apply perm_swap.
  - now apply perm_trans with (filter keep ys).
Qed.

Lemma pushItem_items (y : Q) (item : TextItem) (lines : list Line) :
  Permutation (flat_map lineItems (pushItem y item lines))
    (item :: flat_map lineItems lines).
Proof.
  induction lines as [|l rest IH]; simpl.
  - apply Permutation_refl.
  - destruct l as [ly its|ly iid]; simpl.
    + destruct (JS.lt (JS.abs (JS.sub ly y)) Y_TOLERANCE); simpl.
      * rewrite <- app_assoc. simpl.
        apply Permutation_sym, Permutation_middle.
      * eapply perm_trans; [apply Permutation_app_head, IH|].
        apply Permutation_sym, Permutation_middle.
    + exact IH.
Qed.

Lemma pushItem_images (y : Q) (item : TextItem) (lines : list Line) :
  filter (fun l => negb (isTextLine l)) (pushItem y item lines)
  = filter (fun l => negb (isTextLine l)) lines.
Proof.
  induction lines as [|l rest IH]; simpl; [reflexivity|].
  destruct l as [ly its|ly iid]; simpl.
  - destruct (JS.lt (JS.abs (JS.sub ly y)) Y_TOLERANCE); simpl; [reflexivity | exact IH].
  - now rewrite IH.
Qed.

Lemma fold_addText_items pageHeight baseFontSize texts : forall lines,
  Permutation
    (flat_map lineItems (fold_left (addText pageHeight baseFontSize) texts lines))
    (flat_map lineItems lines
     ++ filter (fun i => negb (dropped pageHeight baseFontSize i)) texts)
  /\ filter (fun l => negb (isTextLine l))
       (fold_left (addText pageHeight baseFontSize) texts lines)
     = filter (fun l => negb (isTextLine l)) lines.
Proof.
  induction texts as [|t r IH]; intros lines; simpl.
  - rewrite app_nil_r. split; [apply Permutation_refl | reflexivity].
  - destruct (IH (addText pageHeight baseFontSize lines t)) as [P E].
    unfold addText in *.
    destruct (dropped pageHeight baseFontSize t); simpl.
    + now split.
    + split.
      * eapply perm_trans; [exact P|].
        eapply perm_trans;
          [apply Permutation_app_tail, pushItem_items|].
        simpl. apply Permutation_middle.
      * rewrite E. apply pushItem_images.
Qed.

Lemma fold_addImage_lines pageHeight infos : forall lines,
  fold_left (addImage pageHeight) infos lines
  = lines ++ map (fun x => ImageLine (info_y x) (info_id x))
               (filter (fun x => negb (imageAtEdge pageHeight x)) infos).
Proof.
  induction infos as [|x r IH]; intros lines; simpl.
  - now rewrite app_nil_r.
  - rewrite IH. unfold addImage. destruct (imageAtEdge pageHeight x); simpl.
    + reflexivity.
    + now rewrite <- app_assoc.
Qed.

Lemma flat_map_images (l : list ImageInfo) :
  flat_map lineItems (map (fun x => ImageLine (info_y x) (info_id x)) l) = [].
Proof. induction l; simpl; auto. Qed.

Lemma filter_images (l : list ImageInfo) :
  filter (fun l => negb (isTextLine l))
    (map (fun x => ImageLine (info_y x) (info_id x)) l)
  = map (fun x => ImageLine (info_y x) (info_id x)) l.
Proof. induction l; simpl; [reflexivity | now f_equal]. Qed.

(** The runs on the lines, and the image lines, of a page. *)
Lemma pageLines_content pageNumber p :
  let baseFontSize := FontStats.baseFontSize (items p) in
  let infos := imageInfos (replay pageNumber (ops p)) in
  Permutation
    (flat_map lineItems (pageLines pageNumber p))
    (filter (fun i => negb (dropped (pageHeight p) baseFontSize i)) (items p))
  /\ Permutation
       (filter (fun l => negb (isTextLine l)) (pageLines pageNumber p))
       (map (fun x => ImageLine (info_y x) (info_id x))
          (filter (fun x => negb (imageAtEdge (pageHeight p) x)) infos)).
Proof.
  intros baseFontSize infos.
  assert (B : Permutation
                (buildLines (pageHeight p) baseFontSize (items p) infos)
                (pageLines pageNumber p)).
  { unfold pageLines, sortLines. apply sort_perm. }
  destruct (fold_addText_items (pageHeight p) baseFontSize (items p) [])
    as [P E]. simpl in P, E.
  split.
  - eapply perm_trans; [apply Permutation_flat_map, Permutation_sym, B|].
    unfold buildLines. rewrite fold_addImage_lines, flat_map_app.
    rewrite flat_map_images, app_nil_r. exact P.
  - eapply perm_trans; [apply Permutation_filter_compat, Permutation_sym, B|].
    unfold buildLines. rewrite fold_addImage_lines, filter_app, E.
    rewrite filter_images. apply Permutation_refl.
Qed.

(** X5.  Clustering and sorting lose nothing and invent nothing: the
    runs on the lines of a page are, up to order, the runs that the
    filter keeps, each as often as it occurs; and the image lines are,
    up to order, the placements that are not at the edge.  So a run on
    a line is a run of the page that is neither blank nor a match of
    [about:blank]. *)
Theorem X5_lines_hold_exactly_what_is_kept :
  forall pageNumber p,
    let baseFontSize := FontStats.baseFontSize (items p) in
    let infos := imageInfos (replay pageNumber (ops p)) in
    Permutation
      (flat_map lineItems (pageLines pageNumber p))
      (filter (fun i => negb (dropped (pageHeight p) baseFontSize i)) (items p))
    /\ Permutation
         (filter (fun l => negb (isTextLine l)) (pageLines pageNumber p))
         (map (fun x => ImageLine (info_y x) (info_id x))
            (filter (fun x => negb (imageAtEdge (pageHeight p) x)) infos))
    /\ (forall l item,
          In l (pageLines pageNumber p) -> In item (lineItems l) ->
          In item (items p) /\ isBlank item = false
          /\ re_about_blank (str item) = false).
Proof.
  intros pageNumber p baseFontSize infos.
  destruct (pageLines_content pageNumber p) as [P1 P2].
  split; [exact P1|]. split; [exact P2|].
  intros l item Hl Hi.
  assert (Hin : In item (flat_map lineItems (pageLines pageNumber p))).
  { apply in_flat_map. now exists l. }
  apply (Permutation_in _ P1) in Hin. apply filter_In in Hin.
  destruct Hin as [Hin Hk]. apply negb_true_iff in Hk.
  split; [exact Hin|]. unfold dropped in Hk.
  destruct (isBlank item); [discriminate|]. split; [reflexivity|].
  destruct (isEdge (pageHeight p) (itemY item)); [|exact Hk].
  destruct (matchesIgnore (trim (str item))); [discriminate|].
  destruct (JS.lt _ _); [discriminate | exact Hk].
Qed.

Lemma X5_lines_hold_exactly_what_is_kept_witness :
  let run s y := mkTextItem (lit s) (mkMatrix 12 0 0 12 72 y) (Some 12) (Some 30) in
  let p := mkPageInput 800 [run "a"%string 400; run " "%string 380] [] in
  In (run "a"%string 400) (items p) /\ isBlank (run "a"%string 400) = false
  /\ re_about_blank (str (run "a"%string 400)) = false.
Proof.
  apply (proj2 (proj2 (X5_lines_hold_exactly_what_is_kept 1
           (mkPageInput 800
              [mkTextItem (lit "a"%string) (mkMatrix 12 0 0 12 72 400)
                 (Some 12) (Some 30);
               mkTextItem (lit " "%string) (mkMatrix 12 0 0 12 72 380)
                 (Some 12) (Some 30)] [])))
         (TextLine
            (itemY (mkTextItem (lit "a"%string) (mkMatrix 12 0 0 12 72 400)
                      (Some 12) (Some 30)))
            [mkTextItem (lit "a"%string) (mkMatrix 12 0 0 12 72 400)
               (Some 12) (Some 30)])).
  - vm_compute. left. reflexivity.
  - left. reflexivity.
Defined.

End LineFacts.

(** ** Clusters *)

Module ClusterFacts.
Import Str Transform Text Patterns Page Document Describe.
Import JS JSFacts RoundingFacts SortFacts.

(** The test of the clustering does not depend on the order of its
    arguments, and a number passes it against itself. *)
Lemma near_sym (a b : Q) : near a b = near b a.
Proof.
  unfold near. apply lt_compat; [|reflexivity].
  rewrite !abs_Qabs. unfold JS.sub.
  assert (E : fl (b - a) == - fl (a - b)).
  { rewrite <- fl_opp. apply fl_compat. ring. }
  rewrite E. now rewrite Qabs_opp.
Qed.

Lemma near_refl (a : Q) : near a a = true.
Proof.
  unfold near, JS.sub. rewrite (fl_zero (a - a)) by ring. reflexivity.
Qed.

(** What the test says of the numbers themselves: the numbers that
    pass are less than 4 apart, and those that fail are more than
    [4 - 2^-51] apart, the largest double below 4. *)
Lemma near_true (a b : Q) : near a b = true -> Qabs (a - b) < 4.
Proof.
  unfold near, Y_TOLERANCE. intros H. apply lt_spec in H.
  rewrite abs_Qabs in H. unfold JS.sub in H.
  apply Qnot_le_lt. intros C.
  assert (F4 : fl 4 == 4) by (vm_compute; reflexivity).
  assert (F4' : fl (- (4)) == - (4)) by (vm_compute; reflexivity).
  destruct (Qlt_le_dec (a - b) 0) as [N|P].
  - rewrite Qabs_neg in C by lra.
    assert (M : fl (a - b) <= fl (- (4))) by (apply fl_mono; lra).
    rewrite Qabs_neg in H by lra. lra.
  - rewrite Qabs_pos in C by lra.
    assert (M : fl 4 <= fl (a - b)) by (apply fl_mono; lra).
    rewrite Qabs_pos in H by lra. lra.
Qed.

Lemma near_false (a b : Q) :
  near a b = false -> 4 - (1 # 2251799813685248) < Qabs (a - b).
Proof.
  unfold near, Y_TOLERANCE. intros H. apply lt_false in H.
  rewrite abs_Qabs in H. unfold JS.sub in H.
  apply Qnot_le_lt. intros C.
  set (p := 4 - (1 # 2251799813685248)) in *.
  assert (Fp : fl p == p) by (vm_compute; reflexivity).
  assert (Fp' : fl (- p) == - p) by (vm_compute; reflexivity).
  assert (P4 : p < 4) by (vm_compute; reflexivity).
  assert (P0 : 0 < p) by (vm_compute; reflexivity).
  clearbody p.
  assert (B : - p <= a - b /\ a - b <= p).
  { destruct (Qlt_le_dec (a - b) 0) as [N|P].
    - rewrite Qabs_neg in C by lra. lra.
    - rewrite Qabs_pos in C by lra. lra. }
  destruct B as [B1 B2].
  assert (M1 : fl (- p) <= fl (a - b)) by now apply fl_mono.
  assert (M2 : fl (a - b) <= fl p) by now apply fl_mono.
  destruct (Qlt_le_dec (fl (a - b)) 0) as [N|P].
  - rewrite Qabs_neg in H by lra. lra.
  - rewrite Qabs_pos in H by lra. lra.
Qed.

Lemma apart_sym (a b : Line) : apart a b -> apart b a.
Proof.
  unfold apart. intros H Hb Ha. specialize (H Ha Hb).
  now rewrite near_sym.
Qed.

Lemma FOP_snoc {A : Type} (R : A -> A -> Prop) (l : list A) (x : A) :
  ForallOrdPairs R l -> Forall (fun a => R a x) l ->
  ForallOrdPairs R (l ++ [x]).
Proof.
  induction 1 as [|a l Ha Hl IH]; intros F; simpl.
  - repeat constructor.
  - inversion F; subst. constructor.
    + apply Forall_app. split; [exact Ha | now constructor].
    + now apply IH.
Qed.

Lemma FOP_perm {A : Type} (R : A -> A -> Prop) (l l' : list A) :
  (forall a b, R a b -> R b a) ->
  Permutation l l' -> ForallOrdPairs R l -> ForallOrdPairs R l'.
Proof.
  intros Hsym. induction 1 as [|x l l' P IH|x y l|l l' l'' _ IH1 _ IH2];
    intros H.
  - exact H.
  - inversion H; subst. constructor; [|now apply IH].
    eapply Permutation_Forall; eassumption.
  - inversion H as [|? ? Hy Hr]; subst. inversion Hr as [|? ? Hx Hl]; subst.
    inversion Hy; subst. constructor.
    + constructor; [now apply Hsym | assumption].
    + now constructor.
  - auto.
Qed.

Lemma FOP_pair {A : Type} (R : A -> A -> Prop) (pre mid post : list A) (a b : A) :
  ForallOrdPairs R (pre ++ a :: mid ++ b :: post) -> R a b.
Proof.
  induction pre as [|x pre IH]; simpl; intros H; inversion H; subst.
  - rewrite Forall_forall in H2. apply H2. apply in_or_app. right. now left.
  - now apply IH.
Qed.

Lemma StronglySorted_pair {A : Type} (R : A -> A -> Prop)
    (pre mid post : list A) (a b : A) :
  StronglySorted R (pre ++ a :: mid ++ b :: post) -> R a b.
Proof.
  induction pre as [|x pre IH]; simpl; intros H; inversion H; subst.
  - rewrite Forall_forall in H3. apply H3. apply in_or_app. right. now left.
  - now apply IH.
Qed.

(** A line that fails the test of [find] is apart from the new line. *)
Lemma pushItem_apart_one (a : Line) (y : Q) (item : TextItem) (lines : list Line) :
  (isTextLine a = true -> near (line_y a) y = false) ->
  Forall (apart a) lines -> Forall (apart a) (pushItem y item lines).
Proof.
  intros Ha. induction 1 as [|l rest Hl Hrest IH]; simpl.
  - constructor; [|constructor]. intros Ta _. simpl. now apply Ha.
  - destruct l as [ly its|ly iid].
    + destruct (JS.lt (JS.abs (JS.sub ly y)) Y_TOLERANCE).
      * constructor; [exact Hl | exact Hrest].
      * now constructor.
    + now constructor.
Qed.

Lemma pushItem_apart (y : Q) (item : TextItem) (lines : list Line) :
  ForallOrdPairs apart lines -> ForallOrdPairs apart (pushItem y item lines).
Proof.
  induction 1 as [|l rest Hl Hrest IH]; simpl.
  - repeat constructor.
  - destruct l as [ly its|ly iid].
    + destruct (JS.lt (JS.abs (JS.sub ly y)) Y_TOLERANCE) eqn:T.
      * constructor; [exact Hl | exact Hrest].
      * constructor; [|exact IH]. apply pushItem_apart_one; [|exact Hl].
        intros _. exact T.
    + constructor; [|exact IH]. apply pushItem_apart_one; [|exact Hl].
      discriminate.
Qed.

Lemma pushItem_clustered (item : TextItem) (lines : list Line) :
  Forall clustered lines -> Forall clustered (pushItem (itemY item) item lines).
Proof.
  induction 1 as [|l rest Hl Hrest IH]; simpl.
  - constructor; [|constructor]. split.
    + now exists item, [].
    + constructor; [|constructor]. apply near_refl.
  - destruct l as [ly its|ly iid].
    + destruct (JS.lt (JS.abs (JS.sub ly (itemY item))) Y_TOLERANCE) eqn:T.
      * constructor; [|exact Hrest]. destruct Hl as [(first & r & -> & Ey) Hf].
        split.
        -- now exists first, (r ++ [item]).
        -- apply Forall_app. split; [exact Hf|]. constructor; [|constructor].
           exact T.
      * now constructor.
    + now constructor.
Qed.

Lemma buildLines_clusters pageHeight baseFontSize texts infos :
  Forall clustered (buildLines pageHeight baseFontSize texts infos)
  /\ ForallOrdPairs apart (buildLines pageHeight baseFontSize texts infos).
Proof.
  unfold buildLines.
  assert (T : forall lines,
             Forall clustered lines /\ ForallOrdPairs apart lines ->
             Forall clustered
               (fold_left (addText pageHeight baseFontSize) texts lines)
             /\ ForallOrdPairs apart
                  (fold_left (addText pageHeight baseFontSize) texts lines)).
  { induction texts as [|t r IH]; intros lines [Hc Ha]; simpl; [now split|].
    apply IH. unfold addText.
    destruct (dropped pageHeight baseFontSize t); [now split|]. split.
    - now apply pushItem_clustered.
    - now apply pushItem_apart. }
  assert (I : forall lines,
             Forall clustered lines /\ ForallOrdPairs apart lines ->
             Forall clustered (fold_left (addImage pageHeight) infos lines)
             /\ ForallOrdPairs apart
                  (fold_left (addImage pageHeight) infos lines)).
  { clear T. induction infos as [|x r IH]; intros lines [Hc Ha]; simpl;
      [now split|].
    apply IH. unfold addImage.
    destruct (imageAtEdge pageHeight x); [now split|]. split.
    - apply Forall_app. split; [exact Hc | now repeat constructor].
    - apply FOP_snoc; [exact Ha|]. apply Forall_forall.
      intros a _ _ Hx. discriminate Hx. }
  apply I, T. split; constructor.
Qed.

(** X6.  Every text line of a page starts with the run that opened it,
    has the visual top of that run as its y, and holds only runs that
    pass the test of the clustering against it, which are runs whose
    visual top is less than 4 away from it.  Two text lines of a page
    fail the test against each other: of two of them the one processed
    later lies lower, by more than [4 - 2^-51].  Two runs of size 11 on
    the baselines 504 and 500 share a line: the difference of their
    visual tops, computed in double precision, is below 4. *)
Theorem X6_text_lines_are_clusters :
  forall pageNumber p,
    Forall clustered (pageLines pageNumber p)
    /\ (forall y its i,
          In (TextLine y its) (pageLines pageNumber p) -> In i its ->
          Qabs (y - itemY i) < 4)
    /\ (forall pre a mid b post,
          pageLines pageNumber p = pre ++ a :: mid ++ b :: post ->
          isTextLine a = true -> isTextLine b = true ->
          near (line_y a) (line_y b) = false
          /\ near (line_y b) (line_y a) = false
          /\ line_y b + (4 - (1 # 2251799813685248)) < line_y a)
    /\ (let run y := mkTextItem (lit "a"%string) (mkMatrix 11 0 0 11 72 y)
                       (Some 11) (Some 30) in
        pageLines 1 (mkPageInput 800 [run 504; run 500] [])
        = [TextLine (itemY (run 504)) [run 504; run 500]]).
Proof.
  intros pageNumber p.
  destruct (buildLines_clusters (pageHeight p)
              (FontStats.baseFontSize (items p)) (items p)
              (imageInfos (replay pageNumber (ops p)))) as [Hc Ha].
  assert (P : Permutation
                (buildLines (pageHeight p) (FontStats.baseFontSize (items p))
                   (items p) (imageInfos (replay pageNumber (ops p))))
                (pageLines pageNumber p)).
  { unfold pageLines, sortLines. apply sort_perm. }
  assert (C : Forall clustered (pageLines pageNumber p)).
  { eapply Permutation_Forall; eassumption. }
  split; [exact C|]. split; [|split].
  - intros y its i Hl Hi. rewrite Forall_forall in C.
    destruct (C _ Hl) as [_ F]. rewrite Forall_forall in F.
    now apply near_true, F.
  - intros pre a mid b post E Ta Tb.
    assert (Hap : apart a b).
    { apply (FOP_pair apart pre mid post). rewrite <- E.
      apply (FOP_perm apart _ _ apart_sym P Ha). }
    assert (Hs : notBelow a b).
    { apply (StronglySorted_pair notBelow pre mid post). rewrite <- E.
      unfold pageLines, sortLines. apply sort_sorted; unfold notBelow.
      - intros x y H. apply le_spec in H. lra.
      - intros x y H. apply le_false in H. lra.
      - intros x y z H1 H2. lra. }
    specialize (Hap Ta Tb). unfold notBelow in Hs.
    split; [exact Hap|]. split; [now rewrite near_sym|].
    apply near_false in Hap. rewrite Qabs_pos in Hap; lra.
  - vm_compute. reflexivity.
Qed.

Lemma X6_text_lines_are_clusters_witness :
  let run s y := mkTextItem (lit s) (mkMatrix 12 0 0 12 72 y) (Some 12) (Some 30) in
  itemY (run "b"%string 380) + (4 - (1 # 2251799813685248))
  < itemY (run "a"%string 400).
Proof.
  apply (proj1 (proj2 (proj2 (X6_text_lines_are_clusters 1
           (mkPageInput 800
              [mkTextItem (lit "b"%string) (mkMatrix 12 0 0 12 72 380)
                 (Some 12) (Some 30);
               mkTextItem (lit "a"%string) (mkMatrix 12 0 0 12 72 400)
                 (Some 12) (Some 30)] []))))
         []
         (TextLine
            (itemY (mkTextItem (lit "a"%string) (mkMatrix 12 0 0 12 72 400)
                      (Some 12) (Some 30)))
            [mkTextItem (lit "a"%string) (mkMatrix 12 0 0 12 72 400)
               (Some 12) (Some 30)])
         []
         (TextLine
            (itemY (mkTextItem (lit "b"%string) (mkMatrix 12 0 0 12 72 380)
                      (Some 12) (Some 30)))
            [mkTextItem (lit "b"%string) (mkMatrix 12 0 0 12 72 380)
               (Some 12) (Some 30)])
         []).
  - vm_compute. reflexivity.
  - reflexivity.
  - reflexivity.
Defined.

End ClusterFacts.

(** ** Sorting twice, and the order of the runs of a page *)

Module OrderFacts.
Import Str Transform Text JSObject FontStats Page Document Describe.
Import JSFacts SortFacts FontStatsFacts.

(** A list that is in order is left as it is. *)
Lemma sort_of_sorted {A : Type} (before : A -> A -> bool) (l : list A) :
  StronglySorted (fun a b => before a b = true) l -> sort before l = l.
Proof.
  induction 1 as [|x l Hl IH Hx]; simpl; [reflexivity|].
  rewrite IH. destruct l as [|e r]; [reflexivity|]. simpl.
  inversion Hx as [|? ? He _]; subst. now rewrite He.
Qed.

Lemma sort_idempotent {A : Type} (before : A -> A -> bool) (l : list A) :
  (forall a b, before a b = false -> before b a = true) ->
  (forall a b c, before a b = true -> before b c = true -> before a c = true) ->
  sort before (sort before l) = sort before l.
Proof.
  intros Htotal Htrans. apply sort_of_sorted.
  apply (sort_sorted before (fun a b => before a b = true)); auto.
Qed.

Lemma le_diff_total (a b : Q) : JS.le (a - b) 0 = false -> JS.le (b - a) 0 = true.
Proof.
  intros H. apply le_false in H. apply le_spec. lra.
Qed.

Lemma le_diff_trans (a b c : Q) :
  JS.le (a - b) 0 = true -> JS.le (b - c) 0 = true -> JS.le (a - c) 0 = true.
Proof.
  intros H1 H2. apply le_spec in H1, H2. apply le_spec. lra.
Qed.

(** X7.  Sorting is idempotent: the runs of a line sorted by x, sorted
    again, are unchanged, and so are the lines of a page sorted by y;
    hence a line whose runs are given in the order of the sort is
    processed into the same text, prefix and width. *)
Theorem X7_sorting_is_idempotent :
  forall baseFontSize y (its : list TextItem) (lines : list Line),
    sortItems (sortItems its) = sortItems its
    /\ sortLines (sortLines lines) = sortLines lines
    /\ processLine baseFontSize (TextLine y (sortItems its))
       = processLine baseFontSize (TextLine y its).
Proof.
  intros baseFontSize y its lines.
  assert (E : sortItems (sortItems its) = sortItems its).
  { unfold sortItems. apply sort_idempotent.
    - intros a b. apply le_diff_total.
    - intros a b c. apply le_diff_trans. }
  split; [exact E|]. split.
  - unfold sortLines. apply sort_idempotent.
    + intros a b. apply le_diff_total.
    + intros a b c H1 H2. apply (le_diff_trans _ (line_y b)); assumption.
  - unfold processLine. now rewrite E.
Qed.

Lemma countAt_perm (k : Z) (l l' : list TextItem) :
  Permutation l l' -> countAt k l = countAt k l'.
Proof.
  induction 1; simpl; lia.
Qed.

Lemma sorted_after (s1 s2 : list Z) (k : Z) :
  StronglySorted Z.le (s1 ++ k :: s2) -> forall k', In k' s2 -> (k <= k')%Z.
Proof.
  induction s1 as [|a s1 IH]; simpl; intros H k' Hk'.
  - inversion H as [|? ? _ Ha]; subst. rewrite Forall_forall in Ha. now apply Ha.
  - inversion H; subst. now apply IH.
Qed.

Lemma filter_none {A : Type} (f : A -> bool) (l : list A) :
  (forall x, In x l -> f x = false) -> filter f l = [].
Proof.
  induction l as [|a l IH]; intros H; simpl; [reflexivity|].
  rewrite (H a (or_introl eq_refl)). apply IH. intros x Hx. apply H. now right.
Qed.

(** When every size is an array index the visit is in ascending order. *)
Lemma visitOrder_sorted (items : list TextItem) :
  Forall (fun i => isArrayIndex (sizeOf i) = true) items ->
  StronglySorted Z.le (visitOrder items).
Proof.
  intros H. unfold visitOrder.
  rewrite (filter_none (fun k => negb (isArrayIndex k))).
  - rewrite app_nil_r. apply sortAsc_sorted.
  - intros k Hk. apply firstSeen_In, in_map_iff in Hk.
    destruct Hk as (i & <- & Hi). rewrite Forall_forall in H.
    now rewrite (H i Hi).
Qed.

(** X8.  The base font size does not depend on the order of the runs
    when the rounded size of every run is an array index (an integer
    from 0 to 2^32 - 2), as the sizes of ordinary pages are. *)
Theorem X8_base_font_size_ignores_run_order :
  forall items items',
    Permutation items items' ->
    Forall (fun i => isArrayIndex (sizeOf i) = true) items ->
    baseFontSizeZ items' = baseFontSizeZ items.
Proof.
  intros items items' P Hidx.
  destruct (first_max_exists (fun k => countAt k items) (visitOrder items))
    as [Hz|(l1 & k & l2 & E & Hpos & H1 & H2)].
  - assert (Z0 : forall k, countAt k items = 0%nat).
    { intros k. destruct (Nat.eq_dec (countAt k items) 0) as [E|E]; [exact E|].
      rewrite Forall_forall in Hz. apply Hz.
      apply visitOrder_In, countAt_positive. lia. }
    rewrite (baseFontSize_none items Z0). apply baseFontSize_none.
    intros k. rewrite <- (countAt_perm k _ _ P). apply Z0.
  - assert (Hk : isArrayIndex k = true).
    { assert (Hin : In k (map sizeOf items)) by now apply countAt_positive.
      apply in_map_iff in Hin. destruct Hin as (i & <- & Hi).
      rewrite Forall_forall in Hidx. now apply Hidx. }
    assert (Hmax : forall k', (countAt k' items <= countAt k items)%nat).
    { intros k'. destruct (Nat.eq_dec (countAt k' items) 0) as [Z0|Z0]; [lia|].
      assert (Hin : In k' (visitOrder items)).
      { apply visitOrder_In, countAt_positive. lia. }
      rewrite E in Hin. apply in_app_or in Hin.
      destruct Hin as [Hin|[<-|Hin]].
      - specialize (H1 k' Hin). lia.
      - lia.
      - now apply H2. }
    assert (Hmin : forall k', countAt k' items = countAt k items ->
                              isArrayIndex k' = true -> (k <= k')%Z).
    { intros k' Ek _.
      assert (Hin : In k' (visitOrder items)).
      { apply visitOrder_In, countAt_positive. lia. }
      rewrite E in Hin. apply in_app_or in Hin.
      destruct Hin as [Hin|[<-|Hin]].
      - specialize (H1 k' Hin). lia.
      - lia.
      - pose proof (visitOrder_sorted items Hidx) as Hs. rewrite E in Hs.
        now apply (sorted_after l1 l2 k Hs). }
    rewrite (baseFontSize_smallest_index items k Hk Hpos Hmax Hmin).
    apply baseFontSize_smallest_index; [exact Hk| | |].
    + now rewrite <- (countAt_perm k _ _ P).
    + intros k'. rewrite <- !(countAt_perm _ _ _ P). apply Hmax.
    + intros k'. rewrite <- !(countAt_perm _ _ _ P). apply Hmin.
Qed.

Lemma X8_base_font_size_ignores_run_order_witness :
  let run s size := mkTextItem (lit s) (mkMatrix size 0 0 size 72 400)
                      (Some size) (Some 30) in
  baseFontSizeZ [run "cd"%string 10; run "ab"%string 12]
  = baseFontSizeZ [run "ab"%string 12; run "cd"%string 10].
Proof.
  apply (X8_base_font_size_ignores_run_order
           [mkTextItem (lit "ab"%string) (mkMatrix 12 0 0 12 72 400)
              (Some 12) (Some 30);
            mkTextItem (lit "cd"%string) (mkMatrix 10 0 0 10 72 400)
              (Some 10) (Some 30)]).
  - apply perm_swap.
  - repeat constructor.
Defined.

Lemma pick_fst (o : Obj) (l : list Z) : forall st,
  fst (fold_left (pick o) l st) = fst st
  \/ In (fst (fold_left (pick o) l st)) l.
Proof.
  induction l as [|k r IH]; intros st; simpl; [now left|].
  destruct (IH (pick o st k)) as [E|Hin].
  - rewrite E. unfold pick. destruct (_ <? _)%nat; [right; now left | now left].
  - right. now right.
Qed.

(** X9.  The base font size is never 0: it is 10 or the rounded size
    of one of the runs of the page. *)
Theorem X9_base_font_size_is_usable :
  forall items,
    baseFontSizeZ items <> 0%Z
    /\ ~ baseFontSize items == 0
    /\ (baseFontSizeZ items = 10%Z
        \/ exists i, In i items /\ sizeOf i = baseFontSizeZ items).
Proof.
  intros items.
  assert (N : baseFontSizeZ items <> 0%Z).
  { unfold baseFontSizeZ. destruct (Z.eqb_spec (fst (fold_left
      (pick (fontSizes items)) (ownKeys (fontSizes items)) (0%Z, 0%nat))) 0);
      [discriminate | assumption]. }
  split; [exact N|]. split.
  - unfold baseFontSize. intros H. apply N.
    unfold Qeq in H. simpl in H. lia.
  - unfold baseFontSizeZ in *.
    destruct (pick_fst (fontSizes items) (ownKeys (fontSizes items))
                (0%Z, 0%nat)) as [E|Hin].
    + simpl in E. rewrite E. now left.
    + destruct (Z.eqb_spec (fst (fold_left (pick (fontSizes items))
        (ownKeys (fontSizes items)) (0%Z, 0%nat))) 0); [now left|].
      right. rewrite ownKeys_fontSizes in Hin.
      apply visitOrder_In, in_map_iff in Hin.
      destruct Hin as (i & E & Hi). exists i. split; [exact Hi|].
      rewrite E. now rewrite ownKeys_fontSizes.
Qed.

End OrderFacts.

(** ** The shape of the text of a page *)

Module BlockFacts.
Import Str Transform Text Page Document Describe.

Lemma closed_app (s t : jsstring) : closed (s ++ t ++ nl2).
Proof. right. exists (s ++ t). now rewrite app_assoc. Qed.

Lemma flush_closed (o : Out) : closed (pageText o) -> closed (pageText (flush o)).
Proof.
  intros H. unfold flush. destruct (Str.truthy (currentParagraph o)); [|exact H].
  simpl. apply closed_app.
Qed.

Lemma emit_closed processedLines maxLineWidth pageImages o index line :
  closed (pageText o) ->
  closed (pageText (emit processedLines maxLineWidth pageImages o index line)).
Proof.
  intros H. destruct line as [iid|text prefix lineWidth]; simpl.
  - destruct (findSrc pageImages iid) as [src|]; [|now apply flush_closed].
    destruct (Str.truthy src); [|now apply flush_closed].
    simpl. unfold imageRef. right.
    exists (pageText (flush o) ++ lit "![Image]("%string ++ src ++ lit ")"%string).
    now rewrite <- !app_assoc.
  - destruct (Str.truthy prefix).
    + simpl. rewrite (app_assoc prefix). apply closed_app.
    + destruct (Str.eqb (currentParagraph o) []); [exact H|].
      destruct (JS.lt _ _); simpl; [apply closed_app | exact H].
Qed.

Lemma forEachFrom_closed processedLines maxLineWidth pageImages rest :
  forall index o,
    closed (pageText o) ->
    closed (pageText (forEachFrom processedLines maxLineWidth pageImages
                        index rest o)).
Proof.
  induction rest as [|line rest IH]; intros index o H; simpl; [exact H|].
  apply IH. now apply emit_closed.
Qed.

(** X10.  The text of a page is empty or ends with a blank line
    (["\n\n"]): every heading, paragraph and image reference is closed
    by one, also the last.  The same holds for each part that enters
    the join of the document. *)
Theorem X10_page_text_ends_with_blank_line :
  forall pageNumber p pages,
    closed (fst (convertPage pageNumber p))
    /\ Forall (fun part => exists t, part = t ++ nl2) (pageTexts 1 pages).
Proof.
  assert (C : forall pageNumber p, closed (fst (convertPage pageNumber p))).
  { intros pageNumber p. unfold convertPage, assemble. cbn [fst].
    apply flush_closed, forEachFrom_closed. now left. }
  intros pageNumber p pages. split; [apply C|].
  generalize 1%nat. induction pages as [|q rest IH]; intros n;
    cbn [pageTexts]; [constructor|].
  apply Forall_app. split; [|apply IH].
  destruct (C n q) as [E|E].
  - rewrite E. simpl. constructor.
  - destruct (Str.truthy (trim (fst (convertPage n q)))); repeat constructor.
    exact E.
Qed.

End BlockFacts.

(** ** Raw image samples *)

Module RasterFacts.
Import Raster JSFacts.

Lemma store_length (d : nat) (v : option Q) (arr : list Z) :
  length (store d v arr) = length arr.
Proof.
  revert d. induction arr as [|a r IH]; intros d; simpl.
  - now destruct d.
  - destruct d; simpl; [reflexivity | now rewrite IH].
Qed.

Lemma store_app (A L : list Z) (d k : nat) (v : option Q) :
  d = (length A + k)%nat -> store d v (A ++ L) = A ++ store k v L.
Proof.
  intros ->. induction A as [|a A IH]; simpl; [reflexivity | now rewrite IH].
Qed.

Lemma storePixel_length d r g b a arr :
  length (storePixel d r g b a arr) = length arr.
Proof. unfold storePixel. now rewrite !store_length. Qed.

Lemma storePixel_at (A B : list Z) (x0 x1 x2 x3 : Z) (d : nat) r g b a :
  d = length A ->
  storePixel d r g b a (A ++ x0 :: x1 :: x2 :: x3 :: B)
  = A ++ toUint8Clamp r :: toUint8Clamp g :: toUint8Clamp b
      :: toUint8Clamp a :: B.
Proof.
  intros ->. unfold storePixel.
  rewrite (store_app A _ _ 0) by lia. simpl.
  rewrite (store_app A _ _ 1) by lia. simpl.
  rewrite (store_app A _ _ 2) by lia. simpl.
  rewrite (store_app A _ _ 3) by lia. reflexivity.
Qed.

Lemma skipn_four (l : list Z) :
  (4 <= length l)%nat ->
  exists x0 x1 x2 x3, l = x0 :: x1 :: x2 :: x3 :: skipn 4 l.
Proof.
  destruct l as [|x0 [|x1 [|x2 [|x3 r]]]]; simpl; try lia.
  intros _. now exists x0, x1, x2, x3.
Qed.

Lemma flat_map_four_length {A : Type} (f : A -> list Z) (l : list A) :
  (forall x, length (f x) = 4%nat) -> length (flat_map f l) = (4 * length l)%nat.
Proof.
  intros H. induction l as [|x l IH]; simpl; [reflexivity|].
  rewrite length_app, H, IH. lia.
Qed.

(** A loop that stores pixel [i] at offset [4 * i] for [i < n] leaves
    the first [n] pixels written and the rest untouched. *)
Lemma pixel_loop (r g b a : nat -> option Q) (arr : list Z) : forall n,
  (4 * n <= length arr)%nat ->
  fold_left (fun imageData i => storePixel (4 * i) (r i) (g i) (b i) (a i) imageData)
    (seq 0 n) arr
  = flat_map (fun i => [toUint8Clamp (r i); toUint8Clamp (g i);
                        toUint8Clamp (b i); toUint8Clamp (a i)]) (seq 0 n)
    ++ skipn (4 * n) arr.
Proof.
  induction n as [|n IH]; intros Hn.
  - reflexivity.
  - rewrite seq_S, fold_left_app, flat_map_app.
    change (0 + n)%nat with n. cbn [fold_left flat_map].
    rewrite IH by lia.
    destruct (skipn_four (skipn (4 * n) arr)) as (x0 & x1 & x2 & x3 & E).
    { rewrite length_skipn. lia. }
    rewrite E, skipn_skipn.
    rewrite storePixel_at.
    + replace (4 * S n)%nat with (4 + 4 * n)%nat by lia.
      rewrite app_nil_r, <- app_assoc. reflexivity.
    + rewrite flat_map_four_length by reflexivity. now rewrite length_seq.
Qed.

Lemma pixel_loop_length (r g b a : nat -> option Q) (l : list nat) :
  forall arr,
    length (fold_left (fun imageData i =>
                         storePixel (4 * i) (r i) (g i) (b i) (a i) imageData)
              l arr)
    = length arr.
Proof.
  induction l as [|i l IH]; intros arr; simpl; [reflexivity|].
  now rewrite IH, storePixel_length.
Qed.

Lemma toUint8Clamp_byte (v : Z) :
  (0 <= v <= 255)%Z -> toUint8Clamp (Some (inject_Z v)) = v.
Proof.
  intros Hv. unfold toUint8Clamp.
  destruct (JS.le (inject_Z v) 0) eqn:E0.
  { apply le_spec in E0. unfold Qle in E0. simpl in E0. lia. }
  destruct (JS.ge (inject_Z v) 255) eqn:E1.
  { apply ge_spec in E1. unfold Qle in E1. simpl in E1. lia. }
  rewrite Qfloor_Z.
  destruct (JS.lt (inject_Z v + (1 # 2)) (inject_Z v)) eqn:E2.
  { apply lt_spec in E2. exfalso. lra. }
  destruct (JS.lt (inject_Z v) (inject_Z v + (1 # 2))) eqn:E3; [reflexivity|].
  apply lt_false in E3. exfalso. lra.
Qed.

Lemma toUint8Clamp_range (v : option Q) : (0 <= toUint8Clamp v <= 255)%Z.
Proof.
  destruct v as [q|]; simpl; [|lia].
  destruct (JS.le q 0) eqn:E0; [lia|].
  destruct (JS.ge q 255) eqn:E1; [lia|].
  apply le_false in E0. unfold JS.ge in E1. apply le_false in E1.
  assert (F0 : (0 <= Qfloor q)%Z).
  { change 0%Z with (Qfloor 0). apply Qfloor_resp_le. now apply Qlt_le_weak. }
  assert (F1 : (Qfloor q <= 254)%Z).
  { assert (H : (Qfloor q < 255)%Z); [|lia].
    apply Z.lt_nge. intros H. rewrite Zle_Qle in H.
    pose proof (Qfloor_le q) as L. change (inject_Z 255) with 255 in H. lra. }
  destruct (JS.lt _ _); [lia|]. destruct (JS.lt _ _); [lia|].
  destruct (Z.even _); lia.
Qed.

Lemma sample_byte (data : list Z) (p : nat) :
  bytes data -> toUint8Clamp (sample data p) = byteAt data p.
Proof.
  intros H. unfold sample, byteAt.
  destruct (nth_error data p) as [v|] eqn:E; simpl.
  - rewrite (nth_error_nth _ _ _ E). apply toUint8Clamp_byte.
    unfold bytes in H. rewrite Forall_forall in H. apply H.
    now apply nth_error_In with p.
  - apply nth_error_None in E. now rewrite nth_overflow.
Qed.

Lemma sampleOr0_byte (data : list Z) (p : nat) :
  bytes data -> toUint8Clamp (sampleOr0 data p) = byteAt data p.
Proof.
  intros H. pose proof (sample_byte data p H) as S. unfold sampleOr0.
  unfold sample in *. unfold byteAt in *.
  destruct (nth_error data p) as [v|] eqn:E; cbn [option_map] in *.
  - unfold JS.or_num. destruct (JS.truthy (inject_Z v)) eqn:T; [exact S|].
    unfold JS.truthy in T. apply negb_false_iff, Qeq_bool_iff in T.
    unfold Qeq in T. simpl in T. assert (v = 0%Z) by lia. subst v.
    now rewrite (nth_error_nth _ _ _ E).
  - apply nth_error_None in E. now rewrite nth_overflow.
Qed.

Lemma setAll_bytes (data : list Z) : bytes data -> setAll data = data.
Proof.
  unfold setAll. induction 1 as [|v r Hv _ IH]; cbn [map]; [reflexivity|].
  now rewrite toUint8Clamp_byte, IH.
Qed.

Lemma zeros_skip (n m : nat) : (m <= n)%nat -> skipn n (repeat 0%Z m) = [].
Proof.
  intros H. apply skipn_all2. now rewrite repeat_length.
Qed.

(** X11.  Whatever the kind and the samples, the array put on the
    canvas has exactly four bytes per pixel of the image. *)
Theorem X11_raster_has_four_bytes_per_pixel :
  forall kind data width height,
    length (rawToRgba kind data width height) = (4 * (width * height))%nat.
Proof.
  intros kind data width height. unfold rawToRgba, grayLoop, rgbLoop, cmykLoop.
  assert (S : forall d, length d = (width * height * 4)%nat ->
                        length (setAll d) = (4 * (width * height))%nat).
  { intros d Hd. unfold setAll. rewrite length_map. lia. }
  repeat match goal with
         | |- context [(?a =? ?b)%nat] => destruct (Nat.eqb_spec a b)
         | |- context [(?a =? ?b)%Z] => destruct (Z.eqb_spec a b)
         end;
    try (now apply S);
    try (rewrite pixel_loop_length); now rewrite repeat_length.
Qed.

(** X12.  Grayscale samples (kind 1) are replicated into red, green
    and blue with an opaque alpha, pixel by pixel; a pixel for which
    the data hold no sample is opaque black. *)
Theorem X12_grayscale_is_replicated :
  forall data width height,
    bytes data ->
    rawToRgba (Some 1%Z) data width height
    = flat_map (fun p => [byteAt data p; byteAt data p; byteAt data p; 255%Z])
        (seq 0 (width * height)).
Proof.
  intros data width height Hb. unfold rawToRgba. simpl kindOr2. cbv iota.
  change ((1 =? 1)%Z) with true. cbv iota. unfold grayLoop.
  rewrite (pixel_loop (sample data) (sample data) (sample data)
             (fun _ => Some 255)) by (rewrite repeat_length; lia).
  rewrite zeros_skip by lia. rewrite app_nil_r.
  apply flat_map_ext. intros p. now rewrite (sample_byte data p Hb).
Qed.

Lemma flat_map_ext_in {A B : Type} (f g : A -> list B) (l : list A) :
  (forall x, In x l -> f x = g x) -> flat_map f l = flat_map g l.
Proof.
  induction l as [|x l IH]; intros H; simpl; [reflexivity|].
  rewrite (H x (or_introl eq_refl)), IH; [reflexivity|].
  intros y Hy. apply H. now right.
Qed.

Lemma sample_some (data : list Z) (p : nat) :
  (p < length data)%nat -> sample data p = Some (inject_Z (byteAt data p)).
Proof.
  intros H. unfold sample, byteAt.
  destruct (nth_error data p) as [v|] eqn:E.
  - simpl. now rewrite (nth_error_nth _ _ _ E).
  - apply nth_error_None in E. lia.
Qed.

(** X13.  RGB samples (kind 2, also the default when the kind is
    missing or 0): four bytes per pixel are copied as they are, three
    bytes per pixel are expanded with an opaque alpha, and data of any
    other length leave the array as created, all zeros, which is a
    transparent black image. *)
Theorem X13_rgb_copy_expand_or_blank :
  forall kind data width height,
    bytes data -> kindOr2 kind = 2%Z ->
    let len := (width * height)%nat in
    (length data = (4 * len)%nat -> rawToRgba kind data width height = data)
    /\ (length data = (3 * len)%nat ->
        rawToRgba kind data width height
        = flat_map (fun p => [byteAt data (3 * p); byteAt data (3 * p + 1);
                              byteAt data (3 * p + 2); 255%Z]) (seq 0 len))
    /\ (length data <> (4 * len)%nat -> length data <> (3 * len)%nat ->
        rawToRgba kind data width height = repeat 0%Z (4 * len)).
Proof.
  intros kind data width height Hb Hk len. unfold rawToRgba. rewrite Hk.
  change ((2 =? 1)%Z) with false. change ((2 =? 2)%Z) with true. cbv iota.
  fold len. split; [|split].
  - intros E. destruct (Nat.eqb_spec (length data) (len * 4)); [|lia].
    now apply setAll_bytes.
  - intros E. destruct (Nat.eqb_spec (length data) (len * 4)) as [E4|E4].
    + assert (len = 0%nat) by lia. destruct data; [|simpl in E; lia].
      replace len with 0%nat. reflexivity.
    + destruct (Nat.eqb_spec (length data) (len * 3)); [|lia].
      unfold rgbLoop. replace ((length data + 2) / 3)%nat with len.
      2:{ rewrite E. apply Nat.div_unique with 2%nat; lia. }
      rewrite (pixel_loop (fun i => sample data (3 * i))
                 (fun i => sample data (3 * i + 1))
                 (fun i => sample data (3 * i + 2)) (fun _ => Some 255))
        by (rewrite repeat_length; lia).
      rewrite zeros_skip by lia. rewrite app_nil_r.
      apply flat_map_ext. intros p. now rewrite !(sample_byte data _ Hb).
  - intros E4 E3. destruct (Nat.eqb_spec (length data) (len * 4)); [lia|].
    destruct (Nat.eqb_spec (length data) (len * 3)); [lia | reflexivity].
Qed.

Lemma X13_rgb_copy_expand_or_blank_witness :
  rawToRgba None [10; 20; 30; 40; 50; 60]%Z 2 1
  = [10; 20; 30; 255; 40; 50; 60; 255]%Z
  /\ rawToRgba (Some 2%Z) [10; 20; 30; 40; 50]%Z 2 1 = repeat 0%Z 8.
Proof.
  split.
  - apply (proj1 (proj2 (X13_rgb_copy_expand_or_blank None
             [10; 20; 30; 40; 50; 60]%Z 2 1
             ltac:(repeat constructor; lia) eq_refl))). reflexivity.
  - apply (proj2 (proj2 (X13_rgb_copy_expand_or_blank (Some 2%Z)
             [10; 20; 30; 40; 50]%Z 2 1
             ltac:(repeat constructor; lia) eq_refl))); simpl; lia.
Defined.

Lemma cmykByte_black (c : Z) : cmykByte c 255 = 0%Z.
Proof.
  unfold cmykByte, cmykChannel, toUint8Clamp.
  assert (E : 255 * (1 - inject_Z c / 255) * (1 - inject_Z 255 / 255) == 0).
  { change (inject_Z 255) with 255. field. }
  destruct (JS.le _ 0) eqn:L; [reflexivity|].
  apply le_false in L. rewrite E in L. discriminate L.
Qed.

(** X14.  CMYK samples (kind 3), four bytes per pixel: every pixel is
    opaque and its red, green and blue bytes are
    [255 (1 - C/255)(1 - K/255)] and the like for M and Y, converted to
    a byte.  Whatever the inks, full black (K = 255) gives 0; and
    without ink and black the byte is 255. *)
Theorem X14_cmyk_is_converted_per_pixel :
  forall data width height,
    bytes data ->
    let len := (width * height)%nat in
    length data = (4 * len)%nat ->
    rawToRgba (Some 3%Z) data width height
    = flat_map (fun p =>
                  let k := byteAt data (4 * p + 3) in
                  [cmykByte (byteAt data (4 * p)) k;
                   cmykByte (byteAt data (4 * p + 1)) k;
                   cmykByte (byteAt data (4 * p + 2)) k; 255%Z])
        (seq 0 len)
    /\ (forall c k, (0 <= cmykByte c k <= 255)%Z)
    /\ (forall c, cmykByte c 255 = 0%Z)
    /\ cmykByte 0 0 = 255%Z.
Proof.
  intros data width height Hb len E.
  split; [|split; [|split]].
  - unfold rawToRgba. simpl kindOr2.
    change ((3 =? 1)%Z) with false. change ((3 =? 2)%Z) with false.
    change ((3 =? 3)%Z) with true. cbv iota. fold len.
    unfold cmykLoop. replace ((length data + 3) / 4)%nat with len.
    2:{ rewrite E. apply Nat.div_unique with 3%nat; lia. }
    rewrite (pixel_loop
               (fun i => cmykChannel (sample data (4 * i))
                           (sample data (4 * i + 3)))
               (fun i => cmykChannel (sample data (4 * i + 1))
                           (sample data (4 * i + 3)))
               (fun i => cmykChannel (sample data (4 * i + 2))
                           (sample data (4 * i + 3)))
               (fun _ => Some 255))
      by (rewrite repeat_length; lia).
    rewrite zeros_skip by lia. rewrite app_nil_r.
    apply flat_map_ext_in. intros p Hp. apply in_seq in Hp.
    unfold cmykByte.
    rewrite !sample_some by lia. reflexivity.
  - intros c k. apply toUint8Clamp_range.
  - apply cmykByte_black.
  - reflexivity.
Qed.

Lemma X14_cmyk_is_converted_per_pixel_witness :
  rawToRgba (Some 3%Z) [0; 0; 0; 0; 255; 0; 0; 0; 10; 20; 30; 255]%Z 3 1
  = [255; 255; 255; 255; 0; 255; 255; 255; 0; 0; 0; 255]%Z.
Proof.
  rewrite (proj1 (X14_cmyk_is_converted_per_pixel
             [0; 0; 0; 0; 255; 0; 0; 0; 10; 20; 30; 255]%Z 3 1
             ltac:(repeat constructor; lia) eq_refl)).
  reflexivity.
Defined.

(** X15.  Samples of an unknown kind: four bytes per pixel are copied
    as they are; any other data are read as grayscale, one sample per
    pixel, a missing sample being black, with an opaque alpha. *)
Theorem X15_unknown_kind_falls_back :
  forall kind data width height,
    bytes data ->
    kindOr2 kind <> 1%Z -> kindOr2 kind <> 2%Z -> kindOr2 kind <> 3%Z ->
    let len := (width * height)%nat in
    (length data = (4 * len)%nat -> rawToRgba kind data width height = data)
    /\ (length data <> (4 * len)%nat ->
        rawToRgba kind data width height
        = flat_map (fun p => [byteAt data p; byteAt data p; byteAt data p;
                              255%Z]) (seq 0 len)).
Proof.
  intros kind data width height Hb K1 K2 K3 len. unfold rawToRgba.
  destruct (Z.eqb_spec (kindOr2 kind) 1); [contradiction|].
  destruct (Z.eqb_spec (kindOr2 kind) 2); [contradiction|].
  destruct (Z.eqb_spec (kindOr2 kind) 3); [contradiction|].
  fold len. split; intros E.
  - destruct (Nat.eqb_spec (length data) (len * 4)); [|lia].
    now apply setAll_bytes.
  - destruct (Nat.eqb_spec (length data) (len * 4)); [lia|].
    unfold grayLoop.
    rewrite (pixel_loop (sampleOr0 data) (sampleOr0 data) (sampleOr0 data)
               (fun _ => Some 255)) by (rewrite repeat_length; lia).
    rewrite zeros_skip by lia. rewrite app_nil_r.
    apply flat_map_ext. intros p. now rewrite (sampleOr0_byte data p Hb).
Qed.

Lemma X15_unknown_kind_falls_back_witness :
  rawToRgba (Some 7%Z) [10; 20]%Z 3 1
  = [10; 10; 10; 255; 20; 20; 20; 255; 0; 0; 0; 255]%Z.
Proof.
  apply (proj2 (X15_unknown_kind_falls_back (Some 7%Z) [10; 20]%Z 3 1
           ltac:(repeat constructor; lia)
           ltac:(discriminate) ltac:(discriminate) ltac:(discriminate))).
  simpl. lia.
Defined.

Lemma X12_grayscale_is_replicated_witness :
  rawToRgba (Some 1%Z) [7; 200]%Z 3 1
  = [7; 7; 7; 255; 200; 200; 200; 255; 0; 0; 0; 255]%Z.
Proof.
  apply (X12_grayscale_is_replicated [7; 200]%Z 3 1).
  repeat constructor; lia.
Defined.

End RasterFacts.

(** ** Quoted-printable decoding *)

Module QuotedPrintableFacts.
Import Str Patterns QuotedPrintable.
Local Open Scope Z_scope.

Lemma softBreaks_plain (s : jsstring) :
  Forall (fun c => c <> 0x3D) s -> softBreaks false s = s.
Proof.
  induction 1 as [|c r Hc _ IH]; simpl; [reflexivity|].
  destruct (Z.eqb_spec c 61); [contradiction|]. simpl. now rewrite IH.
Qed.

Lemma hexPairs_plain (s : jsstring) :
  Forall (fun c => c <> 0x3D) s -> hexPairs s = s.
Proof.
  induction 1 as [|c r Hc _ IH]; simpl; [reflexivity|].
  destruct (Z.eqb_spec c 61); [contradiction|]. simpl.
  rewrite IH. now destruct r as [|h1 [|h2 r']].
Qed.

Lemma softBreaks_length (s : jsstring) : forall skipping,
  (length (softBreaks skipping s) <= length s)%nat.
Proof.
  induction s as [|c r IH]; intros skipping; simpl; [lia|].
  destruct (skipping && isCRLF c).
  - specialize (IH true). lia.
  - destruct ((c =? 61) && headIs isCRLF r).
    + specialize (IH true). lia.
    + specialize (IH false). simpl. lia.
Qed.

Lemma hexPairs_length_bounded (n : nat) : forall s,
  (length s <= n)%nat -> (length (hexPairs s) <= length s)%nat.
Proof.
  induction n as [|n IH]; intros s Hs.
  - destruct s; [simpl; lia | simpl in Hs; lia].
  - destruct s as [|c r]; [simpl; lia|].
    simpl in Hs. assert (Hr : (length r <= n)%nat) by lia.
    pose proof (IH r Hr) as Lr.
    destruct r as [|h1 [|h2 r']].
    + simpl. lia.
    + simpl in *. lia.
    + change (hexPairs (c :: h1 :: h2 :: r'))
        with (if (c =? 61) && isHex h1 && isHex h2
              then (16 * hexVal h1 + hexVal h2) :: hexPairs r'
              else c :: hexPairs (h1 :: h2 :: r')).
      destruct ((c =? 61) && isHex h1 && isHex h2).
      * assert (Hr' : (length r' <= n)%nat) by (simpl in Hr; lia).
        pose proof (IH r' Hr'). simpl. lia.
      * simpl length in *. lia.
Qed.

(** X16.  Decoding leaves a string without [=] as it is, and never
    makes a string longer. *)
Theorem X16_decode_plain_text_unchanged :
  (forall s, Forall (fun c => c <> 0x3D) s -> decodeQuotedPrintable s = s)
  /\ (forall s, (length (decodeQuotedPrintable s) <= length s)%nat).
Proof.
  split.
  - intros s H. unfold decodeQuotedPrintable.
    rewrite (softBreaks_plain s H). now apply hexPairs_plain.
  - intros s. unfold decodeQuotedPrintable.
    pose proof (softBreaks_length s false).
    pose proof (hexPairs_length_bounded _ (softBreaks false s) (Nat.le_refl _)).
    lia.
Qed.

Lemma X16_decode_plain_text_unchanged_witness :
  decodeQuotedPrintable (lit "plain text"%string) = lit "plain text"%string.
Proof.
  apply (proj1 X16_decode_plain_text_unchanged).
  repeat constructor; discriminate.
Defined.

Lemma hexDigit_facts (n : Z) :
  0 <= n < 16 ->
  isHex (hexDigit n) = true /\ hexVal (hexDigit n) = n
  /\ isCRLF (hexDigit n) = false /\ (hexDigit n =? 0x3D) = false.
Proof.
  intros H.
  assert (B : (Z.to_nat n < 16)%nat) by lia.
  rewrite <- (Z2Nat.id n) by lia.
  generalize dependent (Z.to_nat n). intros k B. clear H.
  do 16 (destruct k as [|k]; [now repeat split|]). lia.
Qed.

Lemma encodeByte_softBreaks (esc : Z -> bool) (c : Z) (rest : jsstring) :
  0 <= c < 256 ->
  softBreaks false (encodeByte esc c ++ rest)
  = encodeByte esc c ++ softBreaks false rest.
Proof.
  intros Hc. unfold encodeByte.
  destruct (hexDigit_facts (c / 16)) as (_ & _ & C1 & E1).
  { split; [apply Z.div_pos; lia | apply Z.div_lt_upper_bound; lia]. }
  destruct (hexDigit_facts (c mod 16)) as (_ & _ & C2 & E2).
  { apply Z.mod_pos_bound. lia. }
  destruct (esc c || (c =? 61)) eqn:E.
  - cbn [app softBreaks andb headIs]. rewrite C1. cbn [andb].
    rewrite E1. cbn [andb]. rewrite E2. reflexivity.
  - apply orb_false_iff in E. destruct E as [_ E].
    cbn [app softBreaks andb]. now rewrite E.
Qed.

Lemma encode_softBreaks (esc : Z -> bool) (s rest : jsstring) :
  Forall (fun c => 0 <= c < 256) s ->
  softBreaks false (encode esc s ++ rest) = encode esc s ++ softBreaks false rest.
Proof.
  unfold encode. induction 1 as [|c r Hc _ IH]; simpl; [reflexivity|].
  rewrite <- !app_assoc, encodeByte_softBreaks by exact Hc. now rewrite IH.
Qed.

Lemma encode_softBreaks_all (esc : Z -> bool) (s : jsstring) :
  Forall (fun c => 0 <= c < 256) s ->
  softBreaks false (encode esc s) = encode esc s.
Proof.
  intros H. rewrite <- (app_nil_r (encode esc s)) at 1.
  rewrite encode_softBreaks by exact H. simpl. now rewrite app_nil_r.
Qed.

Lemma encodeByte_hexPairs (esc : Z -> bool) (c : Z) (rest : jsstring) :
  0 <= c < 256 ->
  hexPairs (encodeByte esc c ++ rest) = c :: hexPairs rest.
Proof.
  intros Hc. unfold encodeByte.
  destruct (hexDigit_facts (c / 16)) as (H1 & V1 & _).
  { split; [apply Z.div_pos; lia | apply Z.div_lt_upper_bound; lia]. }
  destruct (hexDigit_facts (c mod 16)) as (H2 & V2 & _).
  { apply Z.mod_pos_bound. lia. }
  destruct (esc c || (c =? 61)) eqn:E.
  - cbn [app hexPairs]. change (61 =? 61) with true. rewrite H1, H2, V1, V2.
    cbn [andb]. f_equal. pose proof (Z.div_mod c 16). lia.
  - apply orb_false_iff in E. destruct E as [_ E].
    cbn [app hexPairs]. rewrite E. cbn [andb].
    now destruct rest as [|h1 [|h2 r']].
Qed.

Lemma encode_hexPairs (esc : Z -> bool) (s : jsstring) :
  Forall (fun c => 0 <= c < 256) s -> hexPairs (encode esc s) = s.
Proof.
  unfold encode. induction 1 as [|c r Hc _ IH]; simpl; [reflexivity|].
  rewrite encodeByte_hexPairs by exact Hc. now rewrite IH.
Qed.

Lemma softBreak_removed (s : jsstring) :
  headIs isCRLF s = false -> softBreaks false (softBreak ++ s) = softBreaks false s.
Proof.
  intros H.
  change (softBreaks false (softBreak ++ s)) with (softBreaks true s).
  destruct s as [|c r]; simpl in *; [reflexivity|]. now rewrite H.
Qed.

(** X17.  Decoding undoes the encoding: a string of bytes in which
    [=], and any other bytes one chooses, are written as [=HH] decodes
    to the string itself; and a soft line break [=\r\n] between two
    encoded strings disappears, provided the second does not begin
    with a literal line break character. *)
Theorem X17_decode_undoes_encoding :
  forall esc a b,
    Forall (fun c => 0 <= c < 256) a ->
    Forall (fun c => 0 <= c < 256) b ->
    decodeQuotedPrintable (encode esc a) = a
    /\ (headIs isCRLF (encode esc b) = false ->
        decodeQuotedPrintable (encode esc a ++ softBreak ++ encode esc b)
        = a ++ b).
Proof.
  intros esc a b Ha Hb. unfold decodeQuotedPrintable. split.
  - rewrite encode_softBreaks_all by exact Ha. now apply encode_hexPairs.
  - intros Hh. rewrite encode_softBreaks by exact Ha.
    rewrite softBreak_removed by exact Hh.
    rewrite encode_softBreaks_all by exact Hb.
    assert (E : encode esc a ++ encode esc b = encode esc (a ++ b)).
    { unfold encode. now rewrite flat_map_app. }
    rewrite E. apply encode_hexPairs. apply Forall_app. now split.
Qed.

Lemma X17_decode_undoes_encoding_witness :
  decodeQuotedPrintable
    (lit "a=3Db"%string ++ softBreak ++ lit "c=3Dd"%string)
  = lit "a=bc=d"%string.
Proof.
  exact (proj2 (X17_decode_undoes_encoding (fun _ => false)
                  (lit "a=b"%string) (lit "c=d"%string)
                  ltac:(repeat constructor; lia)
                  ltac:(repeat constructor; lia)) eq_refl).
Defined.

End QuotedPrintableFacts.

(** ** The image viewer *)

Module ViewerFacts.
Import Viewer JSFacts.

Lemma min2_cases (a b : Q) :
  (a <= b /\ min2 a b = a) \/ (b < a /\ min2 a b = b).
Proof.
  unfold min2. destruct (JS.le a b) eqn:E.
  - left. split; [now apply le_spec | reflexivity].
  - right. split; [now apply le_false | reflexivity].
Qed.

Lemma max2_cases (a b : Q) :
  (a <= b /\ JS.max2 a b = b) \/ (b < a /\ JS.max2 a b = a).
Proof.
  unfold JS.max2. destruct (JS.le a b) eqn:E.
  - left. split; [now apply le_spec | reflexivity].
  - right. split; [now apply le_false | reflexivity].
Qed.

Lemma handle_inRange (v : View) (e : Event) : inRange v -> inRange (handle v e).
Proof.
  intros (L & U & R).
  assert (Zin : inRange (handleZoomIn v)).
  { unfold inRange, handleZoomIn. simpl.
    destruct (min2_cases (scale v + (1 # 2)) 5) as [[H ->]|[H ->]];
      repeat split; try assumption; lra. }
  assert (Zout : inRange (handleZoomOut v)).
  { unfold inRange, handleZoomOut. simpl.
    destruct (max2_cases (scale v - (1 # 2)) (1 # 2)) as [[H ->]|[H ->]];
      repeat split; try assumption; lra. }
  destruct e as [| | |x y|x y| |ctrlKey deltaY]; simpl.
  - exact Zin.
  - exact Zout.
  - unfold inRange, handleRotate. simpl. repeat split; try assumption.
    destruct R as [->|[->|[->| ->]]]; simpl; auto.
  - now repeat split.
  - unfold handleMouseMove. destruct (negb (isDragging v)); now repeat split.
  - now repeat split.
  - unfold handleWheel. destruct ctrlKey; [|now repeat split].
    destruct (JS.lt deltaY 0); assumption.
Qed.

(** X18.  Whatever the user does in the viewer, the scale stays
    between 0.5 and 5 and the rotation is one of 0, 90, 180 and 270
    degrees. *)
Theorem X18_viewer_scale_and_rotation_stay_in_range :
  forall events, inRange (run events initial).
Proof.
  intros events. unfold run.
  assert (H : inRange initial).
  { unfold inRange, initial. simpl. repeat split; try lra. now left. }
  revert H. generalize initial.
  induction events as [|e rest IH]; intros v H; simpl; [exact H|].
  apply IH. now apply handle_inRange.
Qed.

(** X19.  Four rotations bring the image back to its rotation; and a
    zoom out undoes a zoom in as long as the zoom in was not cut by the
    upper bound of 5. *)
Theorem X19_viewer_rotation_cycles_and_zoom_undoes :
  forall v,
    inRange v ->
    rotation (run [Rotate; Rotate; Rotate; Rotate] v) = rotation v
    /\ (scale v + (1 # 2) <= 5 -> scale (run [ZoomIn; ZoomOut] v) == scale v).
Proof.
  intros v (L & U & R). split.
  - unfold run. simpl. destruct R as [->|[->|[->| ->]]]; reflexivity.
  - intros H. unfold run. simpl.
    destruct (min2_cases (scale v + (1 # 2)) 5) as [[H1 ->]|[H1 ->]]; [|lra].
    destruct (max2_cases (scale v + (1 # 2) - (1 # 2)) (1 # 2))
      as [[H2 ->]|[H2 ->]]; lra.
Qed.

Lemma X19_viewer_rotation_cycles_and_zoom_undoes_witness :
  rotation (run [Rotate; Rotate; Rotate; Rotate] initial) = rotation initial
  /\ scale (run [ZoomIn; ZoomOut] initial) == scale initial.
Proof.
  assert (H : inRange initial).
  { unfold inRange, initial. simpl. repeat split; try lra. now left. }
  destruct (X19_viewer_rotation_cycles_and_zoom_undoes initial H) as [R Z].
  split; [exact R|]. apply Z. simpl. lra.
Defined.

Lemma moves_keep_dragStart (moves : list (Q * Q)) : forall v,
  isDragging v = true ->
  let v' := run (map (fun m => MouseMove (fst m) (snd m)) moves) v in
  dragStart v' = dragStart v /\ isDragging v' = true
  /\ scale v' = scale v /\ rotation v' = rotation v.
Proof.
  induction moves as [|m rest IH]; intros v H; simpl.
  - now repeat split.
  - unfold run in *. simpl.
    assert (E : handleMouseMove (fst m) (snd m) v
                = mkView (scale v) (rotation v) (isDragging v)
                    (fst m - fst (dragStart v), snd m - snd (dragStart v))
                    (dragStart v)).
    { unfold handleMouseMove. now rewrite H. }
    rewrite E. destruct (IH (mkView (scale v) (rotation v) (isDragging v)
                               (fst m - fst (dragStart v),
                                snd m - snd (dragStart v)) (dragStart v)) H)
      as (D & G & S & R).
    now repeat split.
Qed.

(** X20.  While the button is held the image follows the pointer:
    after a press at [(x0, y0)] and any moves ending at [(x1, y1)] the
    position is the one at the press displaced by
    [(x1 - x0, y1 - y0)]; moves without a press change nothing. *)
Theorem X20_viewer_drag_follows_pointer :
  forall v x0 y0 moves x1 y1,
    let v' := run (MouseDown x0 y0
                     :: map (fun m => MouseMove (fst m) (snd m)) moves
                     ++ [MouseMove x1 y1]) v in
    fst (position v') == fst (position v) + (x1 - x0)
    /\ snd (position v') == snd (position v) + (y1 - y0)
    /\ (isDragging v = false -> run [MouseMove x1 y1] v = v).
Proof.
  intros v x0 y0 moves x1 y1 v'. subst v'.
  assert (Hlast : isDragging v = false -> run [MouseMove x1 y1] v = v).
  { intros H. unfold run. simpl. unfold handleMouseMove. now rewrite H. }
  unfold run in *. cbn [fold_left handle]. rewrite fold_left_app.
  destruct (moves_keep_dragStart moves (handleMouseDown x0 y0 v) eq_refl)
    as (D & G & _). unfold run in D, G.
  cbn [fold_left handle].
  set (w := fold_left handle
              (map (fun m => MouseMove (fst m) (snd m)) moves)
              (handleMouseDown x0 y0 v)) in *.
  assert (E : position (handleMouseMove x1 y1 w)
              = (x1 - (x0 - fst (position v)), y1 - (y0 - snd (position v)))).
  { unfold handleMouseMove. rewrite G. cbn [negb position]. now rewrite D. }
  rewrite E. cbn [fst snd].
  split; [ring|]. split; [ring | exact Hlast].
Qed.

Lemma X20_viewer_drag_follows_pointer_witness :
  fst (position (run [MouseDown 10 10; MouseMove 12 11; MouseMove 30 5] initial))
  == 20
  /\ run [MouseMove 30 5] initial = initial.
Proof.
  destruct (X20_viewer_drag_follows_pointer initial 10 10 [(12, 11)] 30 5)
    as (X & _ & N).
  split; [|exact (N eq_refl)].
  simpl in X. rewrite X. reflexivity.
Defined.

End ViewerFacts.

(** ** Scroll synchronisation *)

Module ScrollFacts.
Import Scroll JS JSFacts RoundingFacts.

(** The scrollable height of a pane, clamped at 0, is a double. *)
Lemma clamped_is_double (el : Pane) :
  0 <= max2 0 (fromMaxOf el)
  /\ fl (max2 0 (fromMaxOf el)) == max2 0 (fromMaxOf el).
Proof.
  split; [apply max2_ub_l|]. unfold max2.
  destruct (le 0 (fromMaxOf el)).
  - unfold fromMaxOf, sub. apply fl_idem.
  - now rewrite (fl_zero 0).
Qed.

Lemma target_scrolling (fromEl toEl : Pane) :
  0 < fromMaxOf fromEl ->
  target fromEl toEl
  = fl (fl (scrollTop fromEl / fromMaxOf fromEl) * max2 0 (fromMaxOf toEl)).
Proof.
  intros H. unfold target. apply gt_spec in H. now rewrite H.
Qed.

(** X21.  The scroll position given to the other pane is the same
    fraction of its scrollable height as the position of this pane is
    of its own, up to the rounding of the division and of the product:
    it differs from that fraction of the height by at most [2^-51] of
    it (and [2^-1074] for numbers next to zero), and it grows with the
    position of this pane.  It lies between 0 and the scrollable
    height of the other pane, it is 0 at the top and the full height
    at the bottom, and it is 0 when this pane cannot scroll.  While
    the other pane holds the lock, or when the synchronisation is
    switched off, nothing is assigned and the lock is left as it
    is. *)
Theorem X21_scroll_target_is_proportional :
  forall fromEl toEl,
    let fromMax := fromMaxOf fromEl in
    let toMax := max2 0 (fromMaxOf toEl) in
    (fromMax <= 0 -> target fromEl toEl == 0)
    /\ (0 < fromMax -> 0 <= scrollTop fromEl ->
        Qabs (target fromEl toEl - scrollTop fromEl / fromMax * toMax)
        <= pow2 (-51) * (scrollTop fromEl / fromMax * toMax)
           + pow2 (-1074) * (toMax + 1))
    /\ (forall top top',
          top <= top' ->
          target (mkPane top (scrollHeight fromEl) (clientHeight fromEl)) toEl
          <= target (mkPane top' (scrollHeight fromEl) (clientHeight fromEl))
               toEl)
    /\ (0 < fromMax -> 0 <= scrollTop fromEl -> scrollTop fromEl <= fromMax ->
        0 <= target fromEl toEl /\ target fromEl toEl <= toMax)
    /\ (0 < fromMax -> scrollTop fromEl == fromMax ->
        target fromEl toEl == toMax)
    /\ (0 < fromMax -> scrollTop fromEl == 0 -> target fromEl toEl == 0)
    /\ (forall from holder,
          Side_eqb holder from = false ->
          syncScroll true (Some holder) from fromEl toEl = (Some holder, None))
    /\ (forall lock from,
          syncScroll false lock from fromEl toEl = (lock, None)).
Proof.
  intros fromEl toEl fromMax toMax.
  destruct (clamped_is_double toEl) as [M0 Md]. fold toMax in M0, Md.
  assert (F1 : fl 1 == 1) by (vm_compute; reflexivity).
  split; [|split; [|split; [|split; [|split; [|split; [|split]]]]]].
  - intros H. unfold target. fold fromMax.
    assert (G : gt fromMax 0 = false) by (apply lt_false; exact H).
    rewrite G. unfold mul. rewrite fl_zero; [reflexivity | ring].
  - intros Hpos H0. rewrite (target_scrolling _ _ Hpos).
    fold fromMax. fold toMax.
    set (q := scrollTop fromEl / fromMax).
    assert (Q0 : 0 <= q).
    { unfold q. apply Qle_shift_div_l; [exact Hpos | lra]. }
    pose proof (fl_error q) as E1. rewrite (Qabs_pos q Q0) in E1.
    assert (R0 : 0 <= fl q) by (now apply fl_sign).
    pose proof (fl_error (fl q * toMax)) as E2.
    rewrite (Qabs_pos (fl q * toMax)) in E2 by nra.
    apply Qabs_Qle_condition in E1. apply Qabs_Qle_condition in E2.
    destruct E1 as [E1 E1']. destruct E2 as [E2 E2'].
    assert (U : pow2 (-51) == 4 * pow2 (-53)).
    { change (-51)%Z with (2 + -53)%Z. rewrite pow2_plus. reflexivity. }
    assert (V : pow2 (-1074) == 2 * pow2 (-1075)).
    { change (-1074)%Z with (1 + -1075)%Z. rewrite pow2_plus. reflexivity. }
    assert (U1 : pow2 (-53) <= 1) by (vm_compute; discriminate).
    pose proof (pow2_pos (-53)) as Pu. pose proof (pow2_pos (-1075)) as Ph.
    rewrite U, V. set (u := pow2 (-53)) in *. set (h := pow2 (-1075)) in *.
    set (r := fl q) in *. set (t := fl (r * toMax)) in *.
    clearbody u h r t q toMax.
    assert (UU : u * u <= u) by nra.
    assert (QM : 0 <= q * toMax) by nra.
    assert (UM : 0 <= u * toMax) by nra.
    assert (HM : 0 <= h * toMax) by nra.
    assert (A1 : u * (r * toMax) <= u * (q * toMax) + u * (u * (q * toMax))
                                    + u * (h * toMax)).
    { pose proof (Qmult_le_compat_r _ _ _ E1' UM) as K. nra. }
    assert (A2 : u * (u * (q * toMax)) <= u * (q * toMax)).
    { pose proof (Qmult_le_compat_r _ _ _ UU QM) as K. nra. }
    assert (A3 : u * (h * toMax) <= h * toMax).
    { pose proof (Qmult_le_compat_r _ _ _ U1 HM) as K. nra. }
    assert (A4 : (r - q) * toMax <= (u * q + h) * toMax).
    { apply Qmult_le_compat_r; assumption. }
    assert (A5 : - ((u * q + h) * toMax) <= (r - q) * toMax).
    { pose proof (Qmult_le_compat_r _ _ _ E1 M0) as K. nra. }
    apply Qabs_Qle_condition. split; nra.
  - intros top top' H.
    assert (E : forall t,
               fromMaxOf (mkPane t (scrollHeight fromEl) (clientHeight fromEl))
               = fromMax) by reflexivity.
    unfold target. rewrite !E. cbn [scrollTop]. fold toMax.
    destruct (gt fromMax 0) eqn:G; [|apply Qle_refl].
    apply gt_spec in G. unfold mul, div. apply fl_mono.
    assert (D : fl (top / fromMax) <= fl (top' / fromMax)).
    { apply fl_mono. apply Qmult_le_compat_r; [exact H|].
      apply Qlt_le_weak, Qinv_lt_0_compat, G. }
    nra.
  - intros Hpos H0 H1. rewrite (target_scrolling _ _ Hpos).
    fold fromMax. fold toMax.
    assert (Q0 : 0 <= scrollTop fromEl / fromMax).
    { apply Qle_shift_div_l; [exact Hpos | lra]. }
    assert (Q1 : scrollTop fromEl / fromMax <= 1).
    { apply Qle_shift_div_r; [exact Hpos | lra]. }
    assert (R0 : 0 <= fl (scrollTop fromEl / fromMax)) by (now apply fl_sign).
    assert (R1 : fl (scrollTop fromEl / fromMax) <= 1).
    { rewrite <- F1. now apply fl_mono. }
    set (r := fl (scrollTop fromEl / fromMax)) in *. clearbody r. split.
    + apply fl_sign. nra.
    + apply Qle_trans with (fl toMax); [apply fl_mono; nra|].
      rewrite Md. apply Qle_refl.
  - intros Hpos E. rewrite (target_scrolling _ _ Hpos).
    fold fromMax. fold toMax.
    assert (Q1 : scrollTop fromEl / fromMax == 1).
    { rewrite E. field. lra. }
    apply Qeq_trans with (fl toMax); [|exact Md].
    apply fl_compat. rewrite (fl_compat _ _ Q1), F1. ring.
  - intros Hpos E. rewrite (target_scrolling _ _ Hpos).
    fold fromMax. fold toMax.
    assert (Q1 : scrollTop fromEl / fromMax == 0).
    { rewrite E. field. lra. }
    rewrite (fl_zero _ Q1). rewrite fl_zero; [reflexivity | ring].
  - intros from holder H. unfold syncScroll. simpl. now rewrite H.
  - intros lock from. reflexivity.
Qed.

Lemma X21_scroll_target_is_proportional_witness :
  let fromEl := mkPane 50 300 100 in
  let toEl := mkPane 0 900 100 in
  0 <= target fromEl toEl /\ target fromEl toEl <= max2 0 (fromMaxOf toEl).
Proof.
  apply (proj1 (proj2 (proj2 (proj2 (X21_scroll_target_is_proportional
           (mkPane 50 300 100) (mkPane 0 900 100))))));
    vm_compute; (reflexivity || discriminate).
Defined.

End ScrollFacts.

(** ** Blob URLs *)

Module RegistryFacts.
Import Str Transform Text Page Document Describe Registry.
Import TrackerFacts.

Lemma registerPage_effect (ops : list Op) : forall h,
  registerPage ops h
  = mkHook (activeUrls h ++ urlsOf ops) (revokedUrls h) (extractedImages h)
      (error h) (isConverting h).
Proof.
  unfold registerPage, urlsOf.
  induction ops as [|op rest IH]; intros h; simpl.
  - rewrite app_nil_r. now destruct h.
  - rewrite IH. destruct (decodedBy op) as [[[w ht] url]|]; simpl.
    + now rewrite <- app_assoc.
    + reflexivity.
Qed.

Lemma registered_urls pageNumber ops : forall i,
  map src (registered pageNumber i ops) = urlsOf ops.
Proof.
  unfold urlsOf. induction ops as [|op rest IH]; intros i; simpl; [reflexivity|].
  rewrite map_app, IH. now destruct (decodedBy op) as [[[w h] url]|].
Qed.

Lemma runPages_readable (ps : list PageInput) : forall n a h,
  runPages n (map Some ps) a h
  = (Some (pagesFrom n ps a),
     mkHook (activeUrls h ++ map src (pageImageTables n ps)) (revokedUrls h)
       (extractedImages h) (error h) (isConverting h)).
Proof.
  induction ps as [|p rest IH]; intros n a h; cbn [map runPages pagesFrom
                                                    pageImageTables].
  - rewrite app_nil_r. now destruct h.
  - rewrite IH, registerPage_effect. cbn [activeUrls revokedUrls
      extractedImages error isConverting]. f_equal. f_equal.
    rewrite map_app, <- app_assoc. f_equal. f_equal.
    unfold convertPage. cbn [snd]. rewrite pageImages_replay.
    symmetry. apply registered_urls.
Qed.

Lemma runPages_unreadable (ps : list PageInput) rest : forall n a h,
  runPages n (map Some ps ++ None :: rest) a h
  = (None,
     mkHook (activeUrls h ++ registeredUrls (map Some ps ++ None :: rest))
       (revokedUrls h) (extractedImages h) (error h) (isConverting h)).
Proof.
  induction ps as [|p ps IH]; intros n a h; cbn [map app runPages registeredUrls].
  - rewrite app_nil_r. now destruct h.
  - rewrite IH, registerPage_effect. cbn [activeUrls revokedUrls
      extractedImages error isConverting].
    now rewrite <- app_assoc.
Qed.

(** X22.  A conversion whose pages are all readable returns the
    Markdown and publishes the image table of the document; the URLs
    that were active before it are revoked, and the active URLs
    afterwards are exactly the handles of the published images, in
    their order: every image published has a live URL and no other URL
    is kept alive. *)
Theorem X22_conversion_publishes_live_urls :
  forall ps h,
    convertPdfToMd (map Some ps) h
    = (Some (fst (Document.convertPdfToMd ps)),
       mkHook (map src (snd (Document.convertPdfToMd ps)))
         (revokedUrls h ++ activeUrls h)
         (snd (Document.convertPdfToMd ps)) None false).
Proof.
  intros ps h. unfold convertPdfToMd. rewrite runPages_readable.
  unfold Document.convertPdfToMd, clearBlobUrls.
  cbn [activeUrls revokedUrls extractedImages error isConverting fst snd app].
  now rewrite (proj1 (PageFacts.pagesFrom_tables ps 1 (mkAcc [] []))).
Qed.

(** X23.  A conversion that meets an unreadable page returns nothing
    and publishes no image: the image table is empty, no URL is left
    active, and the URLs that were active before and those registered
    for the pages already converted are all revoked; the error message
    is set and the conversion is marked as over. *)
Theorem X23_failed_conversion_revokes_everything :
  forall ps rest h,
    let pages := map Some ps ++ None :: rest in
    convertPdfToMd pages h
    = (None,
       mkHook [] ((revokedUrls h ++ activeUrls h) ++ registeredUrls pages)
         [] (Some failedMessage) false)
    /\ registeredUrls pages = map src (pageImageTables 1 ps).
Proof.
  intros ps rest h pages. subst pages. split.
  - unfold convertPdfToMd. rewrite runPages_unreadable. reflexivity.
  - generalize 1%nat.
    induction ps as [|p ps IH]; intros n;
      cbn [map app registeredUrls pageImageTables]; [reflexivity|].
    rewrite map_app, (IH (S n)). f_equal.
    unfold convertPage. cbn [snd]. rewrite pageImages_replay.
    symmetry. apply registered_urls.
Qed.

End RegistryFacts.

(** ** Nothing that is kept is lost *)

Module PresenceFacts.
Import Str Transform Text Page Document Describe.
Import JSFacts SortFacts TrackerFacts LineFacts.

Lemma occursIn_refl (s : jsstring) : occursIn s s.
Proof. exists [], []. now rewrite app_nil_r. Qed.

Lemma occursIn_app_l (s t u : jsstring) : occursIn s t -> occursIn s (t ++ u).
Proof.
  intros (b & a & ->). exists b, (a ++ u). now rewrite <- !app_assoc.
Qed.

Lemma occursIn_app_r (s t u : jsstring) : occursIn s t -> occursIn s (u ++ t).
Proof.
  intros (b & a & ->). exists (u ++ b), a. now rewrite <- !app_assoc.
Qed.

Lemma occursIn_nil (s : jsstring) : occursIn s [] -> s = [].
Proof.
  intros (b & a & E). symmetry in E. apply app_eq_nil in E.
  destruct E as [_ E]. now apply app_eq_nil in E.
Qed.

Lemma occursIn_of_nil (t : jsstring) : occursIn [] t.
Proof. now exists [], t. Qed.

(** The string of every run is part of the string of its line. *)
Lemma scan_keeps (baseFontSize : Q) (s : jsstring) (its : list TextItem) :
  forall s0,
    occursIn s (lineStr s0) ->
    occursIn s (lineStr (fold_left (scanItem baseFontSize) its s0)).
Proof.
  induction its as [|i r IH]; intros s0 H; simpl; [exact H|].
  apply IH. cbn [scanItem lineStr]. now apply occursIn_app_l.
Qed.

Lemma scan_has (baseFontSize : Q) (item : TextItem) (its : list TextItem) :
  forall s0,
    In item its ->
    occursIn (str item) (lineStr (fold_left (scanItem baseFontSize) its s0)).
Proof.
  induction its as [|i r IH]; intros s0 H; [contradiction|].
  destruct H as [->|H]; simpl.
  - apply scan_keeps. cbn [scanItem lineStr].
    apply occursIn_app_r, occursIn_app_r, occursIn_refl.
  - now apply IH.
Qed.

Lemma processLine_has (baseFontSize y : Q) (its : list TextItem) (item : TextItem) :
  In item its ->
  exists text prefix lineWidth,
    processLine baseFontSize (TextLine y its) = PText text prefix lineWidth
    /\ occursIn (str item) text.
Proof.
  intros H. simpl. do 3 eexists. split; [reflexivity|].
  apply scan_has. unfold sortItems. now apply sort_In.
Qed.

Lemma flush_written (s : jsstring) (o : Out) :
  written s o -> occursIn s (pageText (flush o)).
Proof.
  intros [H|H]; unfold flush.
  - destruct (Str.truthy (currentParagraph o)); simpl; [|exact H].
    now apply occursIn_app_l.
  - destruct (currentParagraph o) as [|c r] eqn:E; cbn [Str.truthy pageText].
    + apply occursIn_nil in H. subst s. apply occursIn_of_nil.
    + apply occursIn_app_r, occursIn_app_l. exact H.
Qed.

Lemma mergeLine_has (cp text : jsstring) :
  occursIn cp (mergeLine cp text) /\ occursIn text (mergeLine cp text).
Proof.
  unfold mergeLine.
  repeat match goal with |- context [if ?b then _ else _] => destruct b end;
    split;
    try (apply occursIn_app_l, occursIn_refl);
    try (apply occursIn_app_r, occursIn_refl);
    apply occursIn_app_r, occursIn_app_r, occursIn_refl.
Qed.

Lemma occursIn_trans (s t u : jsstring) :
  occursIn s t -> occursIn t u -> occursIn s u.
Proof.
  intros (b & a & ->) (b' & a' & ->).
  exists (b' ++ b), (a ++ a'). now rewrite <- !app_assoc.
Qed.

Lemma eqb_nil (s : jsstring) : Str.eqb s [] = true -> s = [].
Proof. destruct s; [reflexivity | discriminate]. Qed.

Lemma emit_keeps processedLines maxLineWidth pageImages o index line s :
  written s o ->
  written s (emit processedLines maxLineWidth pageImages o index line).
Proof.
  intros H. pose proof (flush_written s o H) as F.
  destruct line as [iid|text prefix lineWidth]; simpl.
  - left. destruct (findSrc pageImages iid) as [src|]; [|exact F].
    destruct (Str.truthy src); [|exact F]. simpl. now apply occursIn_app_l.
  - destruct (Str.truthy prefix).
    + left. simpl. now apply occursIn_app_l.
    + destruct (Str.eqb (currentParagraph o) []) eqn:E.
      * apply eqb_nil in E. destruct H as [H|H]; [now left|].
        rewrite E in H. apply occursIn_nil in H. subst s.
        left. apply occursIn_of_nil.
      * destruct (JS.lt _ _); simpl.
        -- left. simpl. destruct H as [H|H].
           ++ now apply occursIn_app_l.
           ++ now apply occursIn_app_r, occursIn_app_l.
        -- destruct H as [H|H]; [now left|]. right. simpl.
           apply (occursIn_trans s (currentParagraph o)); [exact H|].
           apply mergeLine_has.
Qed.

Lemma emit_writes_text processedLines maxLineWidth pageImages o index
    text prefix lineWidth :
  written text
    (emit processedLines maxLineWidth pageImages o index
       (PText text prefix lineWidth)).
Proof.
  simpl. destruct (Str.truthy prefix).
  - left. simpl. apply occursIn_app_r, occursIn_app_r, occursIn_app_l.
    apply occursIn_refl.
  - destruct (Str.eqb (currentParagraph o) []).
    + right. apply occursIn_refl.
    + destruct (JS.lt _ _); right; simpl.
      * apply occursIn_refl.
      * apply mergeLine_has.
Qed.

Lemma forEachFrom_keeps processedLines maxLineWidth pageImages rest s :
  forall index o,
    written s o ->
    written s (forEachFrom processedLines maxLineWidth pageImages index rest o).
Proof.
  induction rest as [|line rest IH]; intros index o H; simpl; [exact H|].
  apply IH. now apply emit_keeps.
Qed.

Lemma forEachFrom_writes_text processedLines maxLineWidth pageImages rest
    text prefix lineWidth :
  forall index o,
    In (PText text prefix lineWidth) rest ->
    written text
      (forEachFrom processedLines maxLineWidth pageImages index rest o).
Proof.
  induction rest as [|line rest IH]; intros index o H; [contradiction|].
  simpl. destruct H as [->|H].
  - apply forEachFrom_keeps, emit_writes_text.
  - now apply IH.
Qed.

Lemma forEachFrom_writes_image processedLines maxLineWidth pageImages rest
    iid url :
  findSrc pageImages iid = Some url -> Str.truthy url = true ->
  forall index o,
    In (PImage iid) rest ->
    written (imageRef url)
      (forEachFrom processedLines maxLineWidth pageImages index rest o).
Proof.
  intros F T. induction rest as [|line rest IH]; intros index o H;
    [contradiction|].
  simpl. destruct H as [->|H].
  - apply forEachFrom_keeps. left. simpl. rewrite F, T. simpl.
    apply occursIn_app_r, occursIn_refl.
  - now apply IH.
Qed.

(** X24.  No run that the filter keeps is lost: the string of every
    run of the page that is not dropped occurs, character for
    character, in the text of the page. *)
Theorem X24_kept_runs_appear_in_page_text :
  forall pageNumber p item,
    In item (items p) ->
    dropped (pageHeight p) (FontStats.baseFontSize (items p)) item = false ->
    occursIn (str item) (fst (convertPage pageNumber p)).
Proof.
  intros pageNumber p item Hin Hk.
  assert (Hl : In item (flat_map lineItems (pageLines pageNumber p))).
  { eapply Permutation_in.
    - apply Permutation_sym. apply (proj1 (pageLines_content pageNumber p)).
    - apply filter_In. split; [exact Hin | now rewrite Hk]. }
  apply in_flat_map in Hl. destruct Hl as (l & Hl & Hi).
  destruct l as [y its|y iid]; [|contradiction]. simpl in Hi.
  destruct (processLine_has (FontStats.baseFontSize (items p)) y its item Hi)
    as (text & prefix & w & E & O).
  unfold convertPage, assemble. cbn [fst].
  apply flush_written.
  assert (W : written text
                (forEachFrom
                   (map (processLine (FontStats.baseFontSize (items p)))
                      (pageLines pageNumber p))
                   (maxLineWidthOf
                      (map (processLine (FontStats.baseFontSize (items p)))
                         (pageLines pageNumber p)))
                   (pageImages (replay pageNumber (ops p))) 0
                   (map (processLine (FontStats.baseFontSize (items p)))
                      (pageLines pageNumber p))
                   (mkOut [] []))).
  { apply (forEachFrom_writes_text _ _ _ _ text prefix w).
    rewrite <- E. now apply in_map. }
  destruct W as [W|W]; [left | right]; now apply (occursIn_trans _ text).
Qed.

Lemma X24_kept_runs_appear_in_page_text_witness :
  let item := mkTextItem (lit "world"%string) (mkMatrix 12 0 0 12 72 380)
                (Some 12) (Some 30) in
  let p := mkPageInput 800
             [mkTextItem (lit "hello"%string) (mkMatrix 12 0 0 12 72 400)
                (Some 12) (Some 30); item] [] in
  occursIn (str item) (fst (convertPage 1 p)).
Proof.
  apply (X24_kept_runs_appear_in_page_text 1
           (mkPageInput 800
              [mkTextItem (lit "hello"%string) (mkMatrix 12 0 0 12 72 400)
                 (Some 12) (Some 30);
               mkTextItem (lit "world"%string) (mkMatrix 12 0 0 12 72 380)
                 (Some 12) (Some 30)] [])).
  - right. left. reflexivity.
  - reflexivity.
Defined.

(** X25.  No image that gets a line is lost: for every placement of
    the page that is not at the edge, the reference [![Image](url)]
    with the handle registered under the identifier of the placement
    occurs in the text of the page, when that handle is not empty. *)
Theorem X25_placed_images_appear_in_page_text :
  forall pageNumber p x,
    In x (imageInfos (replay pageNumber (ops p))) ->
    imageAtEdge (pageHeight p) x = false ->
    exists url,
      findSrc (snd (convertPage pageNumber p)) (info_id x) = Some url
      /\ (Str.truthy url = true ->
          occursIn (imageRef url) (fst (convertPage pageNumber p))).
Proof.
  intros pageNumber p x Hx He.
  assert (Hid : In (info_id x)
                  (map id (registered pageNumber 0 (ops p)))).
  { unfold replay in Hx.
    pose proof (proj2 (replay_from_registered pageNumber (ops p) 0 init)) as E.
    simpl in E. rewrite <- E. now apply in_map. }
  apply in_map_iff in Hid. destruct Hid as (e & Ee & He').
  destruct (registered_inv _ _ _ _ He') as (j & op & w & h & N & D & Ej).
  assert (F : findSrc (snd (convertPage pageNumber p)) (info_id x)
              = Some (src e)).
  { unfold convertPage. cbn [snd]. rewrite pageImages_replay, <- Ee, Ej.
    apply (findSrc_registered pageNumber (ops p) 0 j op w h (src e) N D). }
  exists (src e). split; [exact F|]. intros T.
  assert (Hl : In (ImageLine (info_y x) (info_id x)) (pageLines pageNumber p)).
  { assert (Hf : In (ImageLine (info_y x) (info_id x))
                   (filter (fun l => negb (isTextLine l))
                      (pageLines pageNumber p))).
    { eapply Permutation_in.
      - apply Permutation_sym. apply (proj2 (pageLines_content pageNumber p)).
      - apply in_map_iff. exists x. split; [reflexivity|].
        apply filter_In. split; [exact Hx | now rewrite He]. }
    now apply filter_In in Hf. }
  unfold convertPage, assemble. cbn [fst].
  apply flush_written.
  apply (forEachFrom_writes_image _ _ _ _ (info_id x) (src e)).
  - exact F.
  - exact T.
  - apply in_map_iff. exists (ImageLine (info_y x) (info_id x)).
    split; [reflexivity | exact Hl].
Qed.

Lemma X25_placed_images_appear_in_page_text_witness :
  let p := mkPageInput 800 []
             [TransformOp (mkMatrix 200 0 0 300 0 0);
              PaintImageXObject (Decoded 200 100 (lit "blob:a"%string))] in
  exists url,
    findSrc (snd (convertPage 1 p)) (1%nat, 1%nat) = Some url
    /\ (Str.truthy url = true ->
        occursIn (imageRef url) (fst (convertPage 1 p))).
Proof.
  apply (X25_placed_images_appear_in_page_text 1
           (mkPageInput 800 []
              [TransformOp (mkMatrix 200 0 0 300 0 0);
               PaintImageXObject (Decoded 200 100 (lit "blob:a"%string))])
           (mkImageInfo (JS.max2 (JS.max2 (JS.max2 0 (300 + 0)) (0 + 0))
                           (0 + 300 + 0)) (1%nat, 1%nat) 200 100)).
  - left. reflexivity.
  - reflexivity.
Defined.

End PresenceFacts.

(** ** Page numbers in the margins *)

Module MarginFacts.
Import Str Transform Text Patterns Page Document Describe.
Import JSFacts StrFacts.
Local Open Scope Z_scope.

Lemma digit_not_space (c : Z) : isDigit c = true -> isWhiteSpace c = false.
Proof.
  unfold isDigit. intros H. apply andb_true_iff in H. destruct H as [L U].
  apply Z.leb_le in L, U. unfold isWhiteSpace.
  repeat match goal with
         | |- context [(c =? ?k)%Z] => destruct (Z.eqb_spec c k); [lia|]
         end.
  destruct (Z.leb_spec 8192 c); [lia|]. reflexivity.
Qed.

Lemma space_not_digit (c : Z) : isWhiteSpace c = true -> isDigit c = false.
Proof.
  intros H. destruct (isDigit c) eqn:D; [|reflexivity].
  apply digit_not_space in D. congruence.
Qed.

Lemma dropWhile_app_all (p : Z -> bool) (a b : jsstring) :
  Forall (fun c => p c = true) a -> dropWhile p (a ++ b) = dropWhile p b.
Proof.
  induction 1 as [|c r Hc _ IH]; simpl; [reflexivity|]. now rewrite Hc.
Qed.

Lemma dropWhile_stop (p : Z -> bool) (c : Z) (r : jsstring) :
  p c = false -> dropWhile p (c :: r) = c :: r.
Proof. intros H. simpl. now rewrite H. Qed.

Lemma trim_fixed (c e : Z) (m : jsstring) :
  isWhiteSpace c = false -> isWhiteSpace e = false ->
  trim (c :: m ++ [e]) = c :: m ++ [e].
Proof.
  intros Hc He. unfold trim, trimEnd, trimStart.
  rewrite (dropWhile_stop _ c) by exact Hc.
  change (c :: m ++ [e]) with ((c :: m) ++ [e]).
  rewrite rev_unit, (dropWhile_stop _ e) by exact He.
  now rewrite <- rev_unit, rev_involutive.
Qed.

Lemma trim_fixed_one (c : Z) : isWhiteSpace c = false -> trim [c] = [c].
Proof.
  intros H. unfold trim, trimEnd, trimStart. simpl. rewrite H. simpl.
  now rewrite H.
Qed.

(** The pattern for [n / m] accepts every such string. *)
Lemma re_page_of_accepts (n ws1 ws2 m : jsstring) :
  n <> [] -> m <> [] ->
  Forall (fun c => isDigit c = true) n -> Forall (fun c => isDigit c = true) m ->
  Forall (fun c => isWhiteSpace c = true) ws1 ->
  Forall (fun c => isWhiteSpace c = true) ws2 ->
  re_page_of (pageOf n ws1 ws2 m) = true.
Proof.
  intros Hn Hm Dn Dm W1 W2. unfold re_page_of, pageOf.
  assert (Hhead : headIs isDigit (n ++ ws1 ++ [47] ++ ws2 ++ m) = true).
  { destruct n as [|c n']; [contradiction|]. simpl. now inversion Dn. }
  rewrite Hhead. cbn [andb].
  rewrite (dropWhile_app_all isDigit n) by exact Dn.
  assert (E1 : dropWhile isDigit (ws1 ++ [47] ++ ws2 ++ m)
               = ws1 ++ [47] ++ ws2 ++ m).
  { destruct ws1 as [|c r]; [reflexivity|]. simpl.
    inversion W1; subst. now rewrite space_not_digit. }
  rewrite E1, (dropWhile_app_all isWhiteSpace ws1) by exact W1.
  cbn [app dropWhile]. change (isWhiteSpace 47) with false. cbv iota.
  change (47 =? 47) with true. cbn [andb].
  rewrite (dropWhile_app_all isWhiteSpace ws2) by exact W2.
  assert (E2 : dropWhile isWhiteSpace m = m).
  { destruct m as [|c r]; [reflexivity|]. simpl.
    inversion Dm; subst. now rewrite digit_not_space. }
  rewrite E2.
  assert (Hm' : headIs isDigit m = true).
  { destruct m as [|c r]; [contradiction|]. simpl. now inversion Dm. }
  rewrite Hm', (dropWhile_all isDigit m Dm). reflexivity.
Qed.

Lemma pageOf_trim (n ws1 ws2 m : jsstring) :
  n <> [] -> m <> [] ->
  Forall (fun c => isDigit c = true) n -> Forall (fun c => isDigit c = true) m ->
  trim (pageOf n ws1 ws2 m) = pageOf n ws1 ws2 m.
Proof.
  intros Hn Hm Dn Dm. unfold pageOf.
  destruct n as [|c n']; [contradiction|].
  destruct (exists_last Hm) as (m' & e & ->).
  assert (Hc : isWhiteSpace c = false).
  { apply digit_not_space. now inversion Dn. }
  assert (He : isWhiteSpace e = false).
  { apply digit_not_space. apply Forall_app in Dm. destruct Dm as [_ Dm].
    now inversion Dm. }
  replace ((c :: n') ++ ws1 ++ [47] ++ ws2 ++ m' ++ [e])
    with (c :: (n' ++ ws1 ++ [47] ++ ws2 ++ m') ++ [e]).
  - now apply trim_fixed.
  - cbn [app]. f_equal. rewrite <- !app_assoc. cbn [app].
    rewrite <- ?app_assoc. reflexivity.
Qed.

(** White space around a string that begins and ends with another
    character is what [trim] removes. *)
Lemma trim_around (ws0 ws3 : jsstring) (c e : Z) (mid : jsstring) :
  Forall (fun c => isWhiteSpace c = true) ws0 ->
  Forall (fun c => isWhiteSpace c = true) ws3 ->
  isWhiteSpace c = false -> isWhiteSpace e = false ->
  trim (ws0 ++ (c :: mid ++ [e]) ++ ws3) = c :: mid ++ [e].
Proof.
  intros W0 W3 Hc He. unfold trim, trimEnd, trimStart.
  rewrite (dropWhile_app_all isWhiteSpace ws0) by exact W0.
  cbn [app]. rewrite (dropWhile_stop _ c) by exact Hc.
  change (c :: (mid ++ [e]) ++ ws3) with ((c :: mid ++ [e]) ++ ws3).
  rewrite rev_app_distr.
  rewrite (dropWhile_app_all isWhiteSpace (rev ws3))
    by (apply Forall_rev; exact W3).
  change (c :: mid ++ [e]) with ((c :: mid) ++ [e]).
  rewrite rev_unit, (dropWhile_stop _ e) by exact He.
  now rewrite <- rev_unit, rev_involutive.
Qed.

Lemma pageOf_shape (n ws1 ws2 m : jsstring) :
  n <> [] -> m <> [] ->
  Forall (fun c => isDigit c = true) n -> Forall (fun c => isDigit c = true) m ->
  exists c mid e,
    pageOf n ws1 ws2 m = c :: mid ++ [e]
    /\ isWhiteSpace c = false /\ isWhiteSpace e = false.
Proof.
  intros Hn Hm Dn Dm. unfold pageOf.
  destruct n as [|c n']; [contradiction|].
  destruct (exists_last Hm) as (m' & e & ->).
  exists c, (n' ++ ws1 ++ [47] ++ ws2 ++ m'), e. split; [|split].
  - cbn [app]. f_equal. rewrite <- !app_assoc. cbn [app].
    rewrite <- ?app_assoc. reflexivity.
  - apply digit_not_space. now inversion Dn.
  - apply digit_not_space. apply Forall_app in Dm. destruct Dm as [_ Dm].
    now inversion Dm.
Qed.

(** X26.  A run at the edge whose string is a page number of the form
    [n / m], with any digits, any white space around the slash and any
    white space before and after, is dropped, whatever its font
    size. *)
Theorem X26_page_numbers_at_the_edge_are_dropped :
  forall pageHeight baseFontSize tr h w ws0 n ws1 ws2 m ws3,
    n <> [] -> m <> [] ->
    Forall (fun c => isDigit c = true) n -> Forall (fun c => isDigit c = true) m ->
    Forall (fun c => isWhiteSpace c = true) ws0 ->
    Forall (fun c => isWhiteSpace c = true) ws1 ->
    Forall (fun c => isWhiteSpace c = true) ws2 ->
    Forall (fun c => isWhiteSpace c = true) ws3 ->
    let item := mkTextItem (ws0 ++ pageOf n ws1 ws2 m ++ ws3) tr h w in
    isEdge pageHeight (itemY item) = true ->
    dropped pageHeight baseFontSize item = true.
Proof.
  intros pageHeight baseFontSize tr h w ws0 n ws1 ws2 m ws3
    Hn Hm Dn Dm W0 W1 W2 W3 item He.
  unfold dropped. destruct (isBlank item); [reflexivity|]. rewrite He.
  subst item. cbn [str].
  destruct (pageOf_shape n ws1 ws2 m Hn Hm Dn Dm) as (c & mid & e & E & Hc & Hq).
  pose proof (re_page_of_accepts n ws1 ws2 m Hn Hm Dn Dm W1 W2) as R.
  rewrite E in *. rewrite (trim_around ws0 ws3 c e mid W0 W3 Hc Hq).
  unfold matchesIgnore, IGNORE_PATTERNS. cbn [existsb].
  rewrite R. now rewrite orb_true_r.
Qed.

Lemma X26_page_numbers_at_the_edge_are_dropped_witness :
  dropped 800 12
    (mkTextItem (lit "  12 / 340 "%string) (mkMatrix 30 0 0 30 72 20)
       (Some 30%Q) (Some 30%Q)) = true.
Proof.
  apply (X26_page_numbers_at_the_edge_are_dropped 800 12
           (mkMatrix 30 0 0 30 72 20) (Some 30%Q) (Some 30%Q)
           (lit "  "%string) (lit "12"%string) (lit " "%string)
           (lit " "%string) (lit "340"%string) (lit " "%string));
    try discriminate; try (repeat constructor); vm_compute; reflexivity.
Defined.

End MarginFacts.

(** ** The width of a line *)

Module WidthFacts.
Import Str Transform Text Page Document Describe.
Import JSFacts SortFacts.




End WidthFacts.

(** ** Headings and image references as blocks *)

Module StandaloneFacts.
Import Str Transform Text Page Document Describe.
Import BlockFacts.

Lemma blockOf_app (b t u : jsstring) : blockOf b t -> blockOf b (t ++ u).
Proof.
  intros (before & after & -> & C). exists before, (after ++ u).
  split; [now rewrite <- !app_assoc | exact C].
Qed.

Lemma blockOf_end (b t : jsstring) : closed t -> blockOf b (t ++ b).
Proof.
  intros C. exists t, []. split; [now rewrite app_nil_r | exact C].
Qed.

Lemma flush_grows (o : Out) : exists u, pageText (flush o) = pageText o ++ u.
Proof.
  unfold flush. destruct (Str.truthy (currentParagraph o)); simpl.
  - now eexists.
  - exists []. now rewrite app_nil_r.
Qed.

Lemma emit_grows processedLines maxLineWidth pageImages o index line :
  exists u,
    pageText (emit processedLines maxLineWidth pageImages o index line)
    = pageText o ++ u.
Proof.
  destruct (flush_grows o) as (u & E).
  destruct line as [iid|text prefix lineWidth]; simpl.
  - destruct (findSrc pageImages iid) as [src|]; [|now exists u].
    destruct (Str.truthy src); [|now exists u]. simpl. rewrite E.
    eexists. now rewrite <- app_assoc.
  - destruct (Str.truthy prefix).
    + simpl. rewrite E. eexists. now rewrite <- app_assoc.
    + destruct (Str.eqb (currentParagraph o) []).
      * exists []. now rewrite app_nil_r.
      * destruct (JS.lt _ _); simpl; [now eexists|].
        exists []. now rewrite app_nil_r.
Qed.

Lemma forEachFrom_keeps_block processedLines maxLineWidth pageImages rest b :
  forall index o,
    blockOf b (pageText o) ->
    blockOf b (pageText (forEachFrom processedLines maxLineWidth pageImages
                           index rest o)).
Proof.
  induction rest as [|line rest IH]; intros index o H; simpl; [exact H|].
  apply IH.
  destruct (emit_grows processedLines maxLineWidth pageImages o index line)
    as (u & ->).
  now apply blockOf_app.
Qed.

Lemma forEachFrom_block processedLines maxLineWidth pageImages rest line b :
  (forall o index,
      closed (pageText o) ->
      pageText (emit processedLines maxLineWidth pageImages o index line)
      = pageText (flush o) ++ b) ->
  forall index o,
    closed (pageText o) -> In line rest ->
    blockOf b (pageText (forEachFrom processedLines maxLineWidth pageImages
                           index rest o)).
Proof.
  intros Hline. induction rest as [|l rest IH]; intros index o C H;
    [contradiction|].
  simpl. destruct H as [->|H].
  - apply forEachFrom_keeps_block. rewrite (Hline o index C).
    apply blockOf_end. now apply flush_closed.
  - apply IH; [|exact H]. now apply emit_closed.
Qed.

(** X28.  A heading and an image reference are blocks of their own:
    the prefix, the text of the line and a blank line, and likewise
    [![Image](url)] and a blank line, occur in the text of the page at
    its start or right after a blank line, with no text of another
    line in between. *)
Theorem X28_headings_and_images_are_standalone :
  forall pageNumber p,
    let processedLines :=
      map (processLine (FontStats.baseFontSize (items p)))
        (pageLines pageNumber p) in
    (forall text prefix lineWidth,
        In (PText text prefix lineWidth) processedLines ->
        Str.truthy prefix = true ->
        blockOf (prefix ++ text ++ nl2) (fst (convertPage pageNumber p)))
    /\ (forall iid url,
          In (PImage iid) processedLines ->
          findSrc (snd (convertPage pageNumber p)) iid = Some url ->
          Str.truthy url = true ->
          blockOf (imageRef url) (fst (convertPage pageNumber p))).
Proof.
  intros pageNumber p processedLines.
  assert (F : forall b line,
             (forall o index,
                 closed (pageText o) ->
                 pageText (emit processedLines (maxLineWidthOf processedLines)
                             (pageImages (replay pageNumber (ops p)))
                             o index line)
                 = pageText (flush o) ++ b) ->
             In line processedLines ->
             blockOf b (fst (convertPage pageNumber p))).
  { intros b line Hline Hin. unfold convertPage, assemble. cbn [fst].
    fold processedLines.
    destruct (flush_grows
                (forEachFrom processedLines (maxLineWidthOf processedLines)
                   (pageImages (replay pageNumber (ops p))) 0 processedLines
                   (mkOut [] []))) as (u & ->).
    apply blockOf_app.
    apply (forEachFrom_block _ _ _ _ line b Hline); [now left | exact Hin]. }
  split.
  - intros text prefix lineWidth Hin T.
    apply (F _ (PText text prefix lineWidth)); [|exact Hin].
    intros o index _. simpl. now rewrite T.
  - intros iid url Hin Hf T.
    apply (F _ (PImage iid)); [|exact Hin].
    intros o index _. simpl. unfold convertPage in Hf. cbn [snd] in Hf.
    now rewrite Hf, T.
Qed.

Lemma X28_headings_and_images_are_standalone_witness :
  let p := mkPageInput 800
             [mkTextItem (lit "Title"%string) (mkMatrix 24 0 0 24 72 700)
                (Some 24) (Some 100);
              mkTextItem (lit "body"%string) (mkMatrix 12 0 0 12 72 650)
                (Some 12) (Some 100);
              mkTextItem (lit "more"%string) (mkMatrix 12 0 0 12 72 630)
                (Some 12) (Some 100)] [] in
  blockOf (lit "# "%string ++ lit "Title"%string ++ nl2) (fst (convertPage 1 p)).
Proof.
  apply (proj1 (X28_headings_and_images_are_standalone 1
           (mkPageInput 800
              [mkTextItem (lit "Title"%string) (mkMatrix 24 0 0 24 72 700)
                 (Some 24) (Some 100);
               mkTextItem (lit "body"%string) (mkMatrix 12 0 0 12 72 650)
                 (Some 12) (Some 100);
               mkTextItem (lit "more"%string) (mkMatrix 12 0 0 12 72 630)
                 (Some 12) (Some 100)] []))
         (lit "Title"%string) (lit "# "%string) 100).
  - vm_compute. left. reflexivity.
  - reflexivity.
Defined.

End StandaloneFacts.

(** ** The identifier strings *)

Module IdentFacts.
Import Str Transform Text Patterns Page Document Describe Ident.
Import TrackerFacts.

Lemma digits_value (fuel : nat) :
  forall n acc,
    (n < fuel)%nat ->
    fold_left digitStep (digits fuel n acc) 0%nat = fold_left digitStep acc n.
Proof.
  induction fuel as [|fuel IH]; intros n acc L; [lia|].
  cbn [digits].
  assert (D : (n mod 10 < 10)%nat) by (apply Nat.mod_upper_bound; lia).
  assert (E : n = (10 * (n / 10) + n mod 10)%nat) by (apply Nat.div_mod_eq).
  assert (V : Z.to_nat (0x30 + Z.of_nat (n mod 10) - 0x30) = (n mod 10)%nat)
    by lia.
  destruct (n / 10 =? 0)%nat eqn:Q.
  - apply Nat.eqb_eq in Q. cbn [fold_left]. unfold digitStep at 2.
    rewrite V. f_equal. lia.
  - apply Nat.eqb_neq in Q. rewrite IH by lia.
    cbn [fold_left]. unfold digitStep at 2. rewrite V. f_equal. lia.
Qed.

Lemma decimal_value (n : nat) : valueOf (decimal n) = n.
Proof.
  unfold valueOf, decimal. rewrite digits_value by lia. reflexivity.
Qed.

Lemma digits_no_underscore (fuel : nat) :
  forall n acc,
    Forall (fun c => c <> 0x5F%Z) acc ->
    Forall (fun c => c <> 0x5F%Z) (digits fuel n acc).
Proof.
  induction fuel as [|fuel IH]; intros n acc H; cbn [digits]; [exact H|].
  assert (D : (n mod 10 < 10)%nat) by (apply Nat.mod_upper_bound; lia).
  assert (H' : Forall (fun c => c <> 0x5F%Z)
                 ((0x30 + Z.of_nat (n mod 10))%Z :: acc))
    by (constructor; [lia | exact H]).
  destruct (n / 10 =? 0)%nat; [exact H' | now apply IH].
Qed.

Lemma split_at_underscore (s : jsstring) :
  forall s' t t',
    Forall (fun c => c <> 0x5F%Z) s ->
    Forall (fun c => c <> 0x5F%Z) s' ->
    s ++ 0x5F%Z :: t = s' ++ 0x5F%Z :: t' ->
    s = s' /\ t = t'.
Proof.
  induction s as [|c s IH]; intros s' t t' F F' E; destruct s' as [|c' s'];
    cbn [app] in E.
  - injection E as E. now split.
  - injection E as E1 E2. inversion F' as [|? ? N _]. congruence.
  - injection E as E1 E2. inversion F as [|? ? N _]. congruence.
  - injection E as E1 E2. inversion F as [|? ? _ Fs]. inversion F' as [|? ? _ Fs'].
    destruct (IH s' t t' Fs Fs' E2) as (-> & ->). now subst.
Qed.

Lemma imgIdString_inj (a b : ImgId) : imgIdString a = imgIdString b -> a = b.
Proof.
  destruct a as [p i], b as [q j]. unfold imgIdString. cbn [fst snd].
  intros E. apply app_inv_head in E.
  apply split_at_underscore in E;
    try (apply digits_no_underscore; constructor).
  destruct E as (E1 & E2).
  apply (f_equal valueOf) in E1, E2. rewrite !decimal_value in E1, E2.
  now subst.
Qed.

Lemma NoDup_map_inj {A B : Type} (f : A -> B) (l : list A) :
  (forall x y, f x = f y -> x = y) -> NoDup l -> NoDup (map f l).
Proof.
  intros I N. induction N as [|x l H N IH]; cbn [map]; constructor;
    [|exact IH].
  intros H'. apply in_map_iff in H'. destruct H' as (y & E & Hy).
  apply I in E. now subst.
Qed.

(** X29.  The identifier strings [pdf_img_<page>_<index>] tell the
    images apart: two identifiers written alike are built from the same
    page number and operator index, so in the table returned for a
    document no identifier string occurs twice.  The image of operator
    12 of page 3 is [pdf_img_3_12]. *)
Theorem X29_image_identifier_strings_are_unique :
  (forall a b : ImgId, imgIdString a = imgIdString b -> a = b)
  /\ (forall pages,
        NoDup (map (fun e => imgIdString (id e)) (snd (convertPdfToMd pages))))
  /\ imgIdString (3, 12)%nat = lit "pdf_img_3_12"%string.
Proof.
  split; [exact imgIdString_inj|]. split; [|reflexivity].
  intros pages. rewrite <- (map_map id imgIdString).
  apply NoDup_map_inj; [exact imgIdString_inj|].
  unfold convertPdfToMd. simpl.
  rewrite (proj1 (PageFacts.pagesFrom_tables pages 1 (mkAcc [] []))). simpl.
  apply document_ids_NoDup.
Qed.

Lemma X29_image_identifier_strings_are_unique_witness :
  ((1, 20) : ImgId)%nat = (1, 20)%nat.
Proof.
  apply (proj1 X29_image_identifier_strings_are_unique (1, 20)%nat (1, 20)%nat).
  reflexivity.
Defined.

End IdentFacts.
